(** * Gamma exposure analytics engine (web-app/calculations.js)

    A shallow embedding of the classes [GammaCalculator], [DataGenerator],
    [ExpectedMoveCalculator], [CSVParser], [WallAnalyzer] and
    [MetricsCalculator] of [src/web-app/calculations.js] and of
    [StrategyEngine.getConfidenceLevel], the properties of the engine that
    the specification states about them, and further properties that the
    code shows.

    JavaScript numbers are IEEE 754 binary64 values.  The engine is written
    once over an interface [Number] of the arithmetic it uses, and read at two
    instances: [float], the kernel's binary64 numbers, which is what the
    program computes with, and [R], exact real arithmetic, which is what the
    specification's formulas are written in.  [Math.exp], [Math.log] and
    [Math.pow] are implementation-approximated in ECMAScript; at [float] they
    are parameters. *)

From Stdlib Require Import List ZArith Bool String Ascii Lia Permutation Sorted.
From Stdlib Require Import Floats Uint63.
From Stdlib Require Import Reals Lra Psatz.
Import ListNotations.

Set Implicit Arguments.
Set Warnings "-inexact-float".

(* ------------------------------------------------------------------ *)
(** ** The arithmetic of the engine *)

(** What [calculations.js] uses of the JavaScript Number type and of [Math],
    apart from the transcendental functions. *)
Class Number (num : Type) : Type := {
  of_Z : Z -> num;                       (* integer literals and lengths *)
  add : num -> num -> num;               (* a + b *)
  sub : num -> num -> num;               (* a - b *)
  mul : num -> num -> num;               (* a * b *)
  div : num -> num -> num;               (* a / b *)
  neg : num -> num;                      (* -a *)
  Math_abs : num -> num;
  Math_sqrt : num -> num;
  Math_PI : num;
  ltb : num -> num -> bool;              (* a < b;  b > a is [ltb a b] too *)
  leb : num -> num -> bool;              (* a <= b; b >= a is [leb a b] too *)
  strict_eq : num -> num -> bool;        (* a === b *)
  sameValueZero : num -> num -> bool;    (* key equality of Map *)
  truthy : num -> bool                   (* ToBoolean, as in [a || b] *)
}.

(** [Math.exp] and [Math.log]. *)
Class Transcendental (num : Type) : Type := {
  Math_exp : num -> num;
  Math_log : num -> num
}.

(** What only IEEE numbers have: [Infinity], which [Math.min()] and
    [Math.max()] return on no arguments (through its two-argument steps
    [Math_min2], [Math_max2]), and [Math.pow]. *)
Class Extended (num : Type) : Type := {
  Infinity : num;
  Math_min2 : num -> num -> num;
  Math_max2 : num -> num -> num;
  Math_pow : num -> num -> num
}.

Declare Scope js_scope.
Delimit Scope js_scope with js.
Infix "+" := add : js_scope.
Infix "-" := sub : js_scope.
Infix "*" := mul : js_scope.
Infix "/" := div : js_scope.
Notation "- x" := (neg x) : js_scope.
Infix "<?" := ltb : js_scope.
Infix "<=?" := leb : js_scope.
Notation "x >? y" := (ltb y x) (at level 70, only parsing) : js_scope.
Notation "x >=? y" := (leb y x) (at level 70, only parsing) : js_scope.
Infix "===" := strict_eq (at level 70) : js_scope.

(** A decimal literal [m / k] with [k] a power of ten, such as [0.05 = 5/100]:
    both parts are exact in binary64 and IEEE division is correctly rounded,
    so on [float] this is the number the literal denotes (see
    [decimal_literals_float]). *)
Definition decimal {num} `{Number num} (m k : Z) : num :=
  div (of_Z m) (of_Z k).

(* ------------------------------------------------------------------ *)
(** ** The [float] instance: IEEE 754 binary64 *)

Module FloatNumber.

(** The number of an integer literal or of a length; exact below 2^53. *)
Definition of_Z (z : Z) : float :=
  match z with
  | Z0 => 0%float
  | Zpos _ => PrimFloat.of_uint63 (Uint63.of_Z z)
  | Zneg p => PrimFloat.opp (PrimFloat.of_uint63 (Uint63.of_Z (Zpos p)))
  end.

Definition sameValueZero (x y : float) : bool :=
  PrimFloat.eqb x y || (PrimFloat.is_nan x && PrimFloat.is_nan y).

(** [0], [-0] and [NaN] are the falsy numbers. *)
Definition truthy (x : float) : bool :=
  negb (PrimFloat.eqb x 0%float) && negb (PrimFloat.is_nan x).

(** [Math.min(a, b)]: NaN if either is NaN, and [-0] below [+0]. *)
Definition min2 (a b : float) : float :=
  if PrimFloat.is_nan a || PrimFloat.is_nan b then PrimFloat.nan
  else if PrimFloat.ltb a b then a
  else if PrimFloat.ltb b a then b
  else if PrimFloat.get_sign a then a else b.

Definition max2 (a b : float) : float :=
  if PrimFloat.is_nan a || PrimFloat.is_nan b then PrimFloat.nan
  else if PrimFloat.ltb a b then b
  else if PrimFloat.ltb b a then a
  else if PrimFloat.get_sign a then b else a.

(** [Math.PI], the binary64 number nearest to pi. *)
Definition PI : float := 0x1.921fb54442d18p+1%float.

End FloatNumber.

#[export] Instance float_Number : Number float := {|
  of_Z := FloatNumber.of_Z;
  add := PrimFloat.add;
  sub := PrimFloat.sub;
  mul := PrimFloat.mul;
  div := PrimFloat.div;
  neg := PrimFloat.opp;
  Math_abs := PrimFloat.abs;
  Math_sqrt := PrimFloat.sqrt;
  Math_PI := FloatNumber.PI;
  ltb := PrimFloat.ltb;
  leb := PrimFloat.leb;
  strict_eq := PrimFloat.eqb;
  sameValueZero := FloatNumber.sameValueZero;
  truthy := FloatNumber.truthy
|}.

(** The implementation-approximated [Math.exp] and [Math.log], as the host
    provides them. *)
Record MathLib : Type := {
  lib_exp : float -> float;
  lib_log : float -> float
}.

Definition float_Transcendental (M : MathLib) : Transcendental float := {|
  Math_exp := lib_exp M;
  Math_log := lib_log M
|}.

(** [Math.pow] is implementation-approximated as well: [pow] is the host's. *)
Definition float_Extended (pow : float -> float -> float) : Extended float := {|
  Infinity := PrimFloat.infinity;
  Math_min2 := FloatNumber.min2;
  Math_max2 := FloatNumber.max2;
  Math_pow := pow
|}.

(** A [Math.pow] that is exact at the exponent 2, the only exponent the
    engine passes. *)
Definition squaring (x y : float) : float := (x * x)%float.

(* ------------------------------------------------------------------ *)
(** ** The [R] instance: exact arithmetic *)

Module RealNumber.

Definition ltb (x y : R) : bool := if Rlt_dec x y then true else false.
Definition leb (x y : R) : bool := if Rle_dec x y then true else false.
Definition eqb (x y : R) : bool := if Req_dec_T x y then true else false.

End RealNumber.

#[export] Instance R_Number : Number R := {|
  of_Z := IZR;
  add := Rplus;
  sub := Rminus;
  mul := Rmult;
  div := Rdiv;
  neg := Ropp;
  Math_abs := Rabs;
  Math_sqrt := sqrt;
  Math_PI := PI;
  ltb := RealNumber.ltb;
  leb := RealNumber.leb;
  strict_eq := RealNumber.eqb;
  sameValueZero := RealNumber.eqb;
  truthy := fun x => negb (RealNumber.eqb x 0%R)
|}.

#[export] Instance R_Transcendental : Transcendental R := {|
  Math_exp := exp;
  Math_log := ln
|}.

(* ------------------------------------------------------------------ *)
(** ** Arrays *)

Section Arrays.

Context {A num : Type} `{Number num}.

(** [Array.prototype.sort(compareFn)]: stable, and a comparison result
    that is not above zero (NaN included) leaves the two elements in their
    order.  Written as the stable insertion sort; for a consistent
    [compareFn] every conforming engine returns this array. *)
Fixpoint sort_insert (compareFn : A -> A -> num) (x : A) (l : list A)
  : list A :=
  match l with
  | [] => [x]
  | y :: l' =>
      if (compareFn x y >? of_Z 0)%js
      then y :: sort_insert compareFn x l'
      else x :: l
  end.

Fixpoint Array_sort (compareFn : A -> A -> num) (l : list A) : list A :=
  match l with
  | [] => []
  | x :: l' => sort_insert compareFn x (Array_sort compareFn l')
  end.

(** [arr.slice(0, end)] for an integer [end]: a negative [end] counts from
    the end of the array. *)
Definition Array_slice0 (l : list A) (end_ : Z) : list A :=
  if (end_ <? 0)%Z
  then firstn (Z.to_nat (Z.of_nat (List.length l) + end_)) l
  else firstn (Z.to_nat end_) l.

End Arrays.

(** [arr.map((x, index) => f(x, index))], with the index counted from [i]. *)
Fixpoint Array_mapi {A B : Type} (f : A -> nat -> B) (i : nat) (l : list A)
  : list B :=
  match l with
  | [] => []
  | x :: l' => f x i :: Array_mapi f (S i) l'
  end.

(** [arr.reduce((sum, x) => sum + f(x), 0)]. *)
Definition sum_of {A num : Type} `{Number num} (f : A -> num) (l : list A)
  : num :=
  fold_left (fun sum x => (sum + f x)%js) l (of_Z 0).

(** [arr.length] as a number. *)
Definition length_of {A num : Type} `{Number num} (l : list A) : num :=
  of_Z (Z.of_nat (List.length l)).

(* ------------------------------------------------------------------ *)
(** ** Data *)

Section Data.

Variable num : Type.

(** An option contract, with the fields the engine reads. *)
Record Contract : Type := {
  strike : num;
  optionType : string;
  openInterest : num;
  impliedVolatility : num;
  daysToExpiry : num
}.

(** The object [calculateGammaExposure] returns. *)
Record Exposure : Type := {
  exp_strike : num;
  exp_optionType : string;
  gamma : num;
  gammaExposure : num;
  exp_openInterest : num
}.

(** The per-strike object of [aggregateByStrike]. *)
Record StrikeData : Type := {
  sd_strike : num;
  callGamma : num;
  putGamma : num;
  netGamma : num;
  totalOI : num
}.

End Data.

Arguments strike {num} _.
Arguments optionType {num} _.
Arguments openInterest {num} _.
Arguments impliedVolatility {num} _.
Arguments daysToExpiry {num} _.
Arguments exp_strike {num} _.
Arguments exp_optionType {num} _.
Arguments gamma {num} _.
Arguments gammaExposure {num} _.
Arguments exp_openInterest {num} _.
Arguments sd_strike {num} _.
Arguments callGamma {num} _.
Arguments putGamma {num} _.
Arguments netGamma {num} _.
Arguments totalOI {num} _.

(* ------------------------------------------------------------------ *)
(** ** class GammaCalculator *)

Section GammaCalculator.

Context {num : Type} {N : Number num} {T : Transcendental num}.

Local Open Scope js_scope.

(** [constructor(riskFreeRate = 0.05)]. *)
Record GammaCalculator : Type := { riskFreeRate : num }.

Definition new_GammaCalculator : GammaCalculator :=
  {| riskFreeRate := decimal 5 100 |}.

Variable this : GammaCalculator.

Definition normPDF (x : num) : num :=
  Math_exp (- decimal 5 10 * x * x) / Math_sqrt (of_Z 2 * Math_PI).

(** The approximation of the standard normal cumulative distribution by a
    polynomial in [t = 1 / (1 + 0.2316419 |x|)]. *)
Definition normCDF (x : num) : num :=
  let t := of_Z 1 / (of_Z 1 + decimal 2316419 10000000 * Math_abs x) in
  let d := decimal 3989423 10000000 * Math_exp (- x * x / of_Z 2) in
  let prob :=
    d * t * (decimal 3193815 10000000
             + t * (- decimal 3565638 10000000
                    + t * (decimal 1781478 1000000
                           + t * (- decimal 1821256 1000000
                                  + t * decimal 1330274 1000000)))) in
  if x >? of_Z 0 then of_Z 1 - prob else prob.

Definition calculateD1 (spotPrice strike timeToExpiry volatility : num)
  : num :=
  let numerator :=
    Math_log (spotPrice / strike) +
    (riskFreeRate this + decimal 5 10 * volatility * volatility)
      * timeToExpiry in
  let denominator := volatility * Math_sqrt timeToExpiry in
  numerator / denominator.

Definition calculateGamma (spotPrice strike timeToExpiry volatility : num)
  : num :=
  if timeToExpiry <=? of_Z 0 then of_Z 0
  else
    let d1 := calculateD1 spotPrice strike timeToExpiry volatility in
    let gamma :=
      normPDF d1 / (spotPrice * volatility * Math_sqrt timeToExpiry) in
    gamma.

Definition calculateGammaExposure (contract : Contract num)
  (spotPrice : num) : Exposure num :=
  let timeToExpiry := daysToExpiry contract / of_Z 365 in
  let gamma :=
    calculateGamma spotPrice (strike contract) timeToExpiry
      (impliedVolatility contract) in
  let gammaExposure :=
    gamma * openInterest contract * of_Z 100 * spotPrice * spotPrice in
  let mmGamma :=
    if String.eqb (optionType contract) "call"
    then - gammaExposure else gammaExposure in
  {| exp_strike := strike contract;
     exp_optionType := optionType contract;
     gamma := gamma;
     gammaExposure := mmGamma;
     exp_openInterest := openInterest contract |}.

(** The [Map] from strike to the strike's object: its entries in
    insertion order, keys compared with SameValueZero. *)
Definition StrikeMap : Type := list (num * StrikeData num).

Definition Map_has (m : StrikeMap) (key : num) : bool :=
  existsb (fun e => sameValueZero (fst e) key) m.

(** [strikeMap.set(key, value)] for a key the map does not have. *)
Definition Map_set_new (m : StrikeMap) (key : num) (v : StrikeData num)
  : StrikeMap :=
  m ++ [(key, v)].

(** [strikeMap.get(key)] followed by assignments to the object's fields:
    the entry of [key] is updated in place. *)
Fixpoint Map_modify (m : StrikeMap) (key : num)
  (f : StrikeData num -> StrikeData num) : StrikeMap :=
  match m with
  | [] => []
  | (k, v) :: m' =>
      if sameValueZero k key then (k, f v) :: m'
      else (k, v) :: Map_modify m' key f
  end.

Definition Map_values (m : StrikeMap) : list (StrikeData num) :=
  map snd m.

(** The assignments of one [forEach] callback to [strikeData]. *)
Definition accumulate (exposure : Exposure num) (strikeData : StrikeData num)
  : StrikeData num :=
  let callGamma' :=
    if String.eqb (exp_optionType exposure) "call"
    then callGamma strikeData + gammaExposure exposure
    else callGamma strikeData in
  let putGamma' :=
    if String.eqb (exp_optionType exposure) "call"
    then putGamma strikeData
    else putGamma strikeData + gammaExposure exposure in
  {| sd_strike := sd_strike strikeData;
     callGamma := callGamma';
     putGamma := putGamma';
     netGamma := callGamma' + putGamma';
     totalOI := totalOI strikeData + exp_openInterest exposure |}.

(** The body of the [forEach] callback of [aggregateByStrike]. *)
Definition aggregateStep (spotPrice : num) (strikeMap : StrikeMap)
  (contract : Contract num) : StrikeMap :=
  let exposure := calculateGammaExposure contract spotPrice in
  let strikeMap1 :=
    if negb (Map_has strikeMap (exp_strike exposure))
    then Map_set_new strikeMap (exp_strike exposure)
           {| sd_strike := exp_strike exposure;
              callGamma := of_Z 0;
              putGamma := of_Z 0;
              netGamma := of_Z 0;
              totalOI := of_Z 0 |}
    else strikeMap in
  Map_modify strikeMap1 (exp_strike exposure) (accumulate exposure).

(** The map after the callback has run on each of [contracts]. *)
Definition aggregateFold (contracts : list (Contract num))
  (spotPrice : num) : StrikeMap :=
  fold_left (aggregateStep spotPrice) contracts [].

Definition aggregateByStrike (contracts : list (Contract num))
  (spotPrice : num) : list (StrikeData num) :=
  Array_sort (fun a b => sd_strike a - sd_strike b)
    (Map_values (aggregateFold contracts spotPrice)).

End GammaCalculator.

Arguments GammaCalculator : clear implicits.
Arguments StrikeMap : clear implicits.

(* ------------------------------------------------------------------ *)
(** ** class ExpectedMoveCalculator *)

(** What the property [currentPrice] of the global object [window] holds
    when [getAverageIVAndDTE] reads it.  Nothing in the application assigns
    it: [app.js] keeps the price in a script-level [let currentPrice], which
    is no property of [window].  In the page, where the text field of the
    price has the id [currentPrice], the read gives that element, an object:
    truthy, and NaN in arithmetic.  A value that is neither [undefined] nor
    a number is given by what [||] and [-] make of it: its truth value and
    its conversion to a number.  (A BigInt or a Symbol, on which [-] throws,
    is left out.) *)
Inductive WindowValue (num : Type) : Type :=
| wv_undefined
| wv_number (value : num)
| wv_other (toBoolean : bool) (toNumber : num).

Arguments wv_undefined {num}.
Arguments wv_number {num} _.
Arguments wv_other {num} _ _.

(** The ambient state [getAverageIVAndDTE] reads. *)
Record Window (num : Type) : Type := {
  window_currentPrice : WindowValue num
}.

Arguments window_currentPrice {num} _.

Section ExpectedMoveCalculator.

Context {num : Type} `{Number num}.

Local Open Scope js_scope.

Record ExpectedMove : Type := {
  em_currentPrice : num;
  em_impliedVolatility : num;
  ivPercentage : num;
  em_daysToExpiry : num;
  expectedMove1SD : num;
  expectedMove2SD : num;
  movePct1SD : num;
  movePct2SD : num;
  upper1SD : num;
  lower1SD : num;
  upper2SD : num;
  lower2SD : num;
  probability1SD : num;
  probability2SD : num
}.

Definition calculateExpectedMove (currentPrice impliedVolatility
  daysToExpiry : num) : ExpectedMove :=
  let timeFactor := Math_sqrt (daysToExpiry / of_Z 365) in
  let expectedMove1SD := currentPrice * impliedVolatility * timeFactor in
  let expectedMove2SD := expectedMove1SD * of_Z 2 in
  let upper1SD := currentPrice + expectedMove1SD in
  let lower1SD := currentPrice - expectedMove1SD in
  let upper2SD := currentPrice + expectedMove2SD in
  let lower2SD := currentPrice - expectedMove2SD in
  let movePct1SD := (expectedMove1SD / currentPrice) * of_Z 100 in
  let movePct2SD := (expectedMove2SD / currentPrice) * of_Z 100 in
  {| em_currentPrice := currentPrice;
     em_impliedVolatility := impliedVolatility;
     ivPercentage := impliedVolatility * of_Z 100;
     em_daysToExpiry := daysToExpiry;
     expectedMove1SD := expectedMove1SD;
     expectedMove2SD := expectedMove2SD;
     movePct1SD := movePct1SD;
     movePct2SD := movePct2SD;
     upper1SD := upper1SD;
     lower1SD := lower1SD;
     upper2SD := upper2SD;
     lower2SD := lower2SD;
     probability1SD := decimal 682 10;
     probability2SD := decimal 954 10 |}.

(** The object [getAverageIVAndDTE] returns. *)
Record IVStatistics : Type := {
  atmIV : num;
  overallAvgIV : num;
  avgDTE : num
}.

(** An element of [contractsWithDistance]. *)
Record WithDistance : Type := {
  wd_contract : Contract num;
  wd_distance : num
}.

(** [window.currentPrice || 450], as a number: the operand the subtraction
    [c.strike - (window.currentPrice || 450)] works on. *)
Definition ambientPrice (window : Window num) : num :=
  match window_currentPrice window with
  | wv_undefined => of_Z 450
  | wv_number p => if truthy p then p else of_Z 450
  | wv_other toBoolean toNumber => if toBoolean then toNumber else of_Z 450
  end.

(** [getAverageIVAndDTE(contracts)], in the state [window].  [None] is a
    [null] or [undefined] argument.  The [console.log] call, which writes a
    debug record and does not change the result, is left out. *)
Definition getAverageIVAndDTE (window : Window num)
  (contracts : option (list (Contract num))) : IVStatistics :=
  match contracts with
  | None => {| atmIV := of_Z 0; overallAvgIV := of_Z 0; avgDTE := of_Z 0 |}
  | Some [] => {| atmIV := of_Z 0; overallAvgIV := of_Z 0; avgDTE := of_Z 0 |}
  | Some contracts =>
      let totalIV := sum_of impliedVolatility contracts in
      let overallAvgIV := totalIV / length_of contracts in
      let contractsWithDistance :=
        map (fun c =>
               {| wd_contract := c;
                  wd_distance := Math_abs (strike c - ambientPrice window) |})
            contracts in
      let contractsWithDistance :=
        Array_sort (fun a b => wd_distance a - wd_distance b)
          contractsWithDistance in
      let numATMContracts :=
        Nat.min 10 (List.length contractsWithDistance) in
      let atmContracts := firstn numATMContracts contractsWithDistance in
      let atmIVSum :=
        sum_of (fun item => impliedVolatility (wd_contract item))
          atmContracts in
      let atmIV := atmIVSum / length_of atmContracts in
      let totalDTE := sum_of daysToExpiry contracts in
      let avgDTE := totalDTE / length_of contracts in
      {| atmIV := atmIV; overallAvgIV := overallAvgIV; avgDTE := avgDTE |}
  end.

(** The object [getIVLevel] returns. *)
Record IVLevel : Type := {
  iv_level : string;
  iv_color : string;
  iv_description : string;
  iv_class : string
}.

Definition getIVLevel (iv : num) : IVLevel :=
  let ivPct := iv * of_Z 100 in
  if ivPct >? of_Z 40 then
    {| iv_level := "HIGH"%string;
       iv_color := "🔴"%string;
       iv_description :=
         "Large expected move. Premium selling may be attractive."%string;
       iv_class := "alert-error"%string |}
  else if ivPct >? of_Z 25 then
    {| iv_level := "MODERATE"%string;
       iv_color := "🟡"%string;
       iv_description :=
         "Normal expected move. Balanced strategies recommended."%string;
       iv_class := "alert-warning"%string |}
  else
    {| iv_level := "LOW"%string;
       iv_color := "🟢"%string;
       iv_description :=
         "Small expected move. Buying options may be attractive."%string;
       iv_class := "alert-success"%string |}.

End ExpectedMoveCalculator.

Arguments ExpectedMove : clear implicits.
Arguments IVStatistics : clear implicits.
Arguments WithDistance : clear implicits.
Arguments IVLevel : clear implicits.

(* ------------------------------------------------------------------ *)
(** ** class WallAnalyzer *)

Section WallAnalyzer.

Context {num : Type} `{Number num}.

Local Open Scope js_scope.

(** [constructor(minSignificanceThreshold = 0.05)]. *)
Record WallAnalyzer : Type := { minSignificanceThreshold : num }.

Definition new_WallAnalyzer : WallAnalyzer :=
  {| minSignificanceThreshold := decimal 5 100 |}.

(** An element of [callCandidates] or [putCandidates]. *)
Record Candidate : Type := {
  cand_strike : num;
  exposure : num;
  rawExposure : num;
  distance : num
}.

Record Wall : Type := {
  wall_strike : num;
  exposureValue : num;
  wallType : string;
  distanceFromSpot : num;
  significanceRank : nat
}.

Variable this : WallAnalyzer.

(** [findCallWalls(gammaExposures, currentPrice, maxWalls = 5)], for an
    integer [maxWalls]. *)
Definition findCallWalls (gammaExposures : list (StrikeData num))
  (currentPrice : num) (maxWalls : Z) : list Wall :=
  let callCandidates :=
    Array_sort (fun a b => exposure b - exposure a)
      (map (fun ge =>
              {| cand_strike := sd_strike ge;
                 exposure := Math_abs (callGamma ge);
                 rawExposure := callGamma ge;
                 distance := Math_abs (sd_strike ge - currentPrice) |})
         (filter (fun ge => callGamma ge <? of_Z 0) gammaExposures)) in
  match callCandidates with
  | [] => []
  | _ =>
      let totalCallExposure := sum_of exposure callCandidates in
      let threshold := totalCallExposure * minSignificanceThreshold this in
      Array_mapi
        (fun c index =>
           {| wall_strike := cand_strike c;
              exposureValue := rawExposure c;
              wallType := "call_wall";
              distanceFromSpot := distance c;
              significanceRank := index + 1 |})
        0%nat
        (Array_slice0
           (filter (fun c => exposure c >=? threshold) callCandidates)
           maxWalls)
  end.

Definition findPutWalls (gammaExposures : list (StrikeData num))
  (currentPrice : num) (maxWalls : Z) : list Wall :=
  let putCandidates :=
    Array_sort (fun a b => exposure b - exposure a)
      (map (fun ge =>
              {| cand_strike := sd_strike ge;
                 exposure := putGamma ge;
                 rawExposure := putGamma ge;
                 distance := Math_abs (sd_strike ge - currentPrice) |})
         (filter (fun ge => putGamma ge >? of_Z 0) gammaExposures)) in
  match putCandidates with
  | [] => []
  | _ =>
      let totalPutExposure := sum_of exposure putCandidates in
      let threshold := totalPutExposure * minSignificanceThreshold this in
      Array_mapi
        (fun c index =>
           {| wall_strike := cand_strike c;
              exposureValue := rawExposure c;
              wallType := "put_wall";
              distanceFromSpot := distance c;
              significanceRank := index + 1 |})
        0%nat
        (Array_slice0
           (filter (fun c => exposure c >=? threshold) putCandidates)
           maxWalls)
  end.

Definition findAllWalls (gammaExposures : list (StrikeData num))
  (currentPrice : num) (maxWallsPerType : Z) : list Wall * list Wall :=
  (findCallWalls gammaExposures currentPrice maxWallsPerType,
   findPutWalls gammaExposures currentPrice maxWallsPerType).

End WallAnalyzer.

Arguments WallAnalyzer : clear implicits.
Arguments Candidate : clear implicits.
Arguments Wall : clear implicits.

(* ------------------------------------------------------------------ *)
(** ** class MetricsCalculator *)

Section MetricsCalculator.

Context {num : Type} {N : Number num} {E : Extended num}.

Local Open Scope string_scope.
Local Open Scope js_scope.

(** [Math.min(...values)] and [Math.max(...values)] (an engine's limit on
    the number of arguments of a call is not modelled). *)
Definition Math_min (values : list num) : num :=
  fold_left Math_min2 values Infinity.

Definition Math_max (values : list num) : num :=
  fold_left Math_max2 values (- Infinity).

Record Metrics : Type := {
  totalNetGamma : num;
  totalCallGamma : num;
  totalPutGamma : num;
  gammaWeightedAvgStrike : num;
  callPutGammaRatio : num;
  maxCallExposure : num;
  maxPutExposure : num;
  gammaExposureStd : num
}.

Definition calculateAllMetrics (gammaExposures : list (StrikeData num))
  : Metrics :=
  let totalNetGamma := sum_of netGamma gammaExposures in
  let totalCallGamma := sum_of callGamma gammaExposures in
  let totalPutGamma := sum_of putGamma gammaExposures in
  let totalAbsGamma :=
    sum_of (fun ge => Math_abs (netGamma ge)) gammaExposures in
  let weightedStrike :=
    sum_of (fun ge => sd_strike ge * Math_abs (netGamma ge)) gammaExposures
    / totalAbsGamma in
  let callPutRatio := Math_abs (totalCallGamma / totalPutGamma) in
  let maxCallExposure := Math_min (map callGamma gammaExposures) in
  let maxPutExposure := Math_max (map putGamma gammaExposures) in
  let mean := totalNetGamma / length_of gammaExposures in
  let variance :=
    sum_of (fun ge => Math_pow (netGamma ge - mean) (of_Z 2)) gammaExposures
    / length_of gammaExposures in
  let stdDev := Math_sqrt variance in
  {| totalNetGamma := totalNetGamma;
     totalCallGamma := totalCallGamma;
     totalPutGamma := totalPutGamma;
     gammaWeightedAvgStrike := weightedStrike;
     callPutGammaRatio := callPutRatio;
     maxCallExposure := maxCallExposure;
     maxPutExposure := maxPutExposure;
     gammaExposureStd := stdDev |}.

Record StrengthInterpretation : Type := {
  level : string;
  color : string;
  volatilityImpact : string;
  si_description : string
}.

Record GammaEnvironment : Type := {
  environment : string;
  environmentStrength : num;
  strengthInterpretation : StrengthInterpretation;
  gammaFlipLevel : option num;
  description : string;
  positiveStrikes : nat;
  negativeStrikes : nat;
  neutralStrikes : nat;
  positiveStrikePercentage : num;
  negativeStrikePercentage : num
}.

(** The test of the gamma-flip loop on [current] and [next]. *)
Definition signChange (current next : StrikeData num) : bool :=
  (netGamma current >? of_Z 0) && (netGamma next <? of_Z 0)
  || (netGamma current <? of_Z 0) && (netGamma next >? of_Z 0).

(** The loop [for (i = 0; i < gammaExposures.length - 1; i++)] with its
    [break], as a recursion on the part of the array from index [i] on: the
    value of [gammaFlipLevel] when the loop ends ([None] is [null]). *)
Fixpoint gammaFlipLoop (gammaExposures : list (StrikeData num))
  : option num :=
  match gammaExposures with
  | current :: (next :: _) as rest =>
      if signChange current next
      then Some ((sd_strike current + sd_strike next) / of_Z 2)
      else gammaFlipLoop rest
  | _ => None
  end.

(** [arr.filter(p).length]. *)
Definition countIf (p : StrikeData num -> bool) (l : list (StrikeData num))
  : nat :=
  List.length (filter p l).

Definition calculateGammaEnvironment
  (gammaExposures : list (StrikeData num)) (currentPrice : num)
  : GammaEnvironment :=
  let metrics := calculateAllMetrics gammaExposures in
  let environment :=
    if totalNetGamma metrics >? of_Z 0 then "positive"
    else if totalNetGamma metrics <? of_Z 0 then "negative"
    else "neutral" in
  let totalOI := sum_of totalOI gammaExposures in
  let strength :=
    Math_abs (totalNetGamma metrics) / (currentPrice * totalOI) in
  let interpretation :=
    if strength >=? decimal 10 100 then
      {| level := "Very Strong";
         color := "🔴";
         volatilityImpact := "Extreme impact expected";
         si_description := "Dominant market maker forces with very high confidence in gamma effects" |}
    else if strength >=? decimal 5 100 then
      {| level := "Strong";
         color := "🟠";
         volatilityImpact := "Significant impact expected";
         si_description := "Strong gamma forces create meaningful price dynamics" |}
    else if strength >=? decimal 2 100 then
      {| level := "Moderate";
         color := "🟡";
         volatilityImpact := "Noticeable impact";
         si_description := "Moderate gamma influence alongside other market factors" |}
    else if strength >=? decimal 1 100 then
      {| level := "Weak";
         color := "🟢";
         volatilityImpact := "Limited impact";
         si_description := "Weak gamma forces, other factors likely more important" |}
    else
      {| level := "Very Weak";
         color := "⚪";
         volatilityImpact := "Minimal impact";
         si_description := "Minimal gamma influence on price action" |} in
  let gammaFlipLevel := gammaFlipLoop gammaExposures in
  let positiveStrikes :=
    countIf (fun ge => netGamma ge >? of_Z 0) gammaExposures in
  let negativeStrikes :=
    countIf (fun ge => netGamma ge <? of_Z 0) gammaExposures in
  let neutralStrikes :=
    countIf (fun ge => netGamma ge === of_Z 0) gammaExposures in
  let totalStrikes := List.length gammaExposures in
  let envDescription :=
    if String.eqb environment "positive" then
      "Market makers are net long gamma, providing price stability through mean-reverting hedging flows. Expect lower volatility and range-bound trading."
    else if String.eqb environment "negative" then
      "Market makers are net short gamma, amplifying price moves through momentum-reinforcing hedging flows. Expect higher volatility and trending behavior."
    else
      "Balanced gamma exposure with mixed market maker positioning. Moderate volatility expected with no clear directional bias." in
  {| environment := environment;
     environmentStrength := strength;
     strengthInterpretation := interpretation;
     gammaFlipLevel := gammaFlipLevel;
     description := envDescription;
     positiveStrikes := positiveStrikes;
     negativeStrikes := negativeStrikes;
     neutralStrikes := neutralStrikes;
     positiveStrikePercentage :=
       (of_Z (Z.of_nat positiveStrikes) / of_Z (Z.of_nat totalStrikes))
       * of_Z 100;
     negativeStrikePercentage :=
       (of_Z (Z.of_nat negativeStrikes) / of_Z (Z.of_nat totalStrikes))
       * of_Z 100 |}.

End MetricsCalculator.

Arguments Metrics : clear implicits.
Arguments StrengthInterpretation : clear implicits.
Arguments GammaEnvironment : clear implicits.

(* ------------------------------------------------------------------ *)
(** ** The host: strings, dates, rounding, the clock and Math.random *)

(** A value read from a row of the CSV text or written in its place: the
    trimmed text of a cell, [undefined] for a cell the line does not have,
    or a number literal of the source. *)
Inductive JSValue (num : Type) : Type :=
| undefined
| text (s : string)
| number (x : num).

Arguments undefined {num}.
Arguments text {num} s.
Arguments number {num} x.

(** The built-in functions [calculations.js] calls besides those of
    [Number], [Transcendental] and [Extended].  On strings:
    [String.prototype.trim] and [toLowerCase], [parseFloat], [parseInt] and
    the time value of [new Date(v)] for [v] a string or [undefined]; on
    numbers: the time value of [new Date(n)], and [Math.ceil], [Math.floor]
    and [Math.round]. *)
Class Host (num : Type) : Type := {
  String_trim : string -> string;
  String_toLowerCase : string -> string;
  parseFloat : JSValue num -> num;
  parseInt : JSValue num -> num;
  Date_parse : JSValue num -> num;
  TimeClip : num -> num;
  Math_ceil : num -> num;
  Math_floor : num -> num;
  Math_round : num -> num
}.

(** What a run reads from outside: the time at the [k]-th reading of the
    clock ([new Date()] or [Date.now()]) and the [k]-th number that
    [Math.random()] returns. *)
Record Sources (num : Type) : Type := {
  Date_now : nat -> num;
  Math_random : nat -> num
}.

Arguments Date_now {num} _ _.
Arguments Math_random {num} _ _.

(** A completion: a value, or a thrown error with its name. *)
Inductive Completion (A : Type) : Type :=
| normal (value : A)
| throw (error : string).

Arguments normal {A} value.
Arguments throw {A} error.

(** [s.split(sep)] for a separator of one character. *)
Fixpoint String_split (sep : ascii) (s : string) : list string :=
  match s with
  | EmptyString => [EmptyString]
  | String c s' =>
      if Ascii.eqb c sep then EmptyString :: String_split sep s'
      else
        match String_split sep s' with
        | [] => [String c EmptyString]
        | w :: ws => String c w :: ws
        end
  end.

(** A contract as [CSVParser.parse] and [DataGenerator.generateSampleData]
    build it: the fields the engine reads, and the others ([expiryDate] is
    the time value of the [Date]). *)
Record ContractRecord (num : Type) : Type := {
  contract : Contract num;
  expiryDate : num;
  volume : num;
  bid : num;
  ask : num;
  lastPrice : num
}.

Arguments contract {num} _.
Arguments expiryDate {num} _.
Arguments volume {num} _.
Arguments bid {num} _.
Arguments ask {num} _.
Arguments lastPrice {num} _.

(* ------------------------------------------------------------------ *)
(** ** class DataGenerator *)

Section DataGenerator.

Context {num : Type} {N : Number num} {H : Host num}.

Local Open Scope string_scope.
Local Open Scope js_scope.

Variable sources : Sources num.

(** How many times the clock and [Math.random] have been read. *)
Record Reads : Type := {
  clockReads : nat;
  randomDraws : nat
}.

(** One object literal of the loop body; [offset] is what its [expiryDate]
    adds to [Date.now()]: [daysToExpiry * 24 * 60 * 60 * 1000] in the call
    and [daysToExpiry * 24 * 60 * 1000] in the put.  The fields are
    evaluated in the order of the literal: one reading of the clock, then
    six random numbers. *)
Definition generateContract (strike : num) (optionType : string)
  (offset : num) (daysToExpiry : num) (reads : Reads)
  : ContractRecord num * Reads :=
  let now := Date_now sources (clockReads reads) in
  let random k := Math_random sources (randomDraws reads + k) in
  ({| contract :=
        {| strike := strike;
           optionType := optionType;
           openInterest :=
             Math_floor (random 0%nat * of_Z 10000 + of_Z 1000);
           impliedVolatility := random 5%nat * decimal 3 10 + decimal 15 100;
           daysToExpiry := daysToExpiry |};
      expiryDate := TimeClip (now + offset);
      volume := Math_floor (random 1%nat * of_Z 5000);
      bid := random 2%nat * of_Z 10 + of_Z 1;
      ask := random 3%nat * of_Z 10 + of_Z 2;
      lastPrice := random 4%nat * of_Z 10 + decimal 15 10 |},
   {| clockReads := S (clockReads reads);
      randomDraws := randomDraws reads + 6 |}).

(** The loop [for (let i = 0; i < numStrikes; i++)] from [i] on, with
    [remaining] iterations to go. *)
Fixpoint generateLoop (strikeSpacing startStrike daysToExpiry : num)
  (remaining : nat) (i : nat) (contracts : list (ContractRecord num))
  (reads : Reads) : list (ContractRecord num) :=
  match remaining with
  | O => contracts
  | S remaining' =>
      let strike :=
        Math_round
          ((startStrike + of_Z (Z.of_nat i) * strikeSpacing) / of_Z 5)
        * of_Z 5 in
      if strike <=? of_Z 0
      then
        generateLoop strikeSpacing startStrike daysToExpiry remaining' (S i)
          contracts reads
      else
        let (call, reads1) :=
          generateContract strike "call"
            (daysToExpiry * of_Z 24 * of_Z 60 * of_Z 60 * of_Z 1000)
            daysToExpiry reads in
        let (put, reads2) :=
          generateContract strike "put"
            (daysToExpiry * of_Z 24 * of_Z 60 * of_Z 1000)
            daysToExpiry reads1 in
        generateLoop strikeSpacing startStrike daysToExpiry remaining' (S i)
          (contracts ++ [call; put]) reads2
  end.

(** [generateSampleData(spotPrice, numStrikes, daysToExpiry)] for an
    integer [numStrikes] below 2^53, where [i++] is exact; the caller
    passes the result of [parseInt] (a [numStrikes] that is NaN runs no
    iteration, as 0 does). *)
Definition generateSampleData (spotPrice : num) (numStrikes : Z)
  (daysToExpiry : num) : list (ContractRecord num) :=
  let strikeSpacing := spotPrice * decimal 2 100 in
  let startStrike :=
    spotPrice - (of_Z numStrikes / of_Z 2) * strikeSpacing in
  generateLoop strikeSpacing startStrike daysToExpiry (Z.to_nat numStrikes)
    0%nat [] {| clockReads := 0; randomDraws := 0 |}.

End DataGenerator.

(* ------------------------------------------------------------------ *)
(** ** class CSVParser *)

Section CSVParser.

Context {num : Type} {N : Number num} {E : Extended num} {H : Host num}.

Local Open Scope string_scope.
Local Open Scope js_scope.

(** [ToBoolean]. *)
Definition ToBoolean (v : JSValue num) : bool :=
  match v with
  | undefined => false
  | text s => negb (String.eqb s "")
  | number x => truthy x
  end.

(** [a || b]. *)
Definition JS_or (a b : JSValue num) : JSValue num :=
  if ToBoolean a then a else b.

(** [isNaN(x)] for a number [x]. *)
Definition isNaN (x : num) : bool := negb (x === x).

(** The object [row], as its assignments [row[header] = value] in order. *)
Definition Row : Type := list (string * JSValue num).

(** [row.key]: the value of the last assignment to [key], [undefined] when
    there is none (no key that [parse] reads is a property of
    [Object.prototype]). *)
Definition Row_get (row : Row) (key : string) : JSValue num :=
  match find (fun e => String.eqb (fst e) key) (rev row) with
  | Some e => snd e
  | None => undefined
  end.

(** [values[index]?.trim()]. *)
Definition cell (values : list string) (index : nat) : JSValue num :=
  match nth_error values index with
  | Some value => text (String_trim value)
  | None => undefined
  end.

(** The body of the loop of [parse] on one line: a thrown error, or the
    contract if it is pushed.  [today] is the time [new Date()] gives in
    this iteration; [new Date(contract.expiryDate)] has the time value of
    [contract.expiryDate].  The [console.log] and [console.warn] calls are
    left out. *)
Definition parseLine (headers : list string) (today : num) (line : string)
  : Completion (option (ContractRecord num)) :=
  let values := String_split "," line in
  let row : Row :=
    Array_mapi (fun header index => (header, cell values index)) 0%nat
      headers in
  let rawIV :=
    parseFloat
      (JS_or (JS_or (Row_get row "implied_volatility") (Row_get row "iv"))
         (number (decimal 2 10))) in
  let rawIV := if rawIV >? of_Z 10 then rawIV / of_Z 100 else rawIV in
  let rawIV :=
    if rawIV <? decimal 1 100 then decimal 5 100
    else if rawIV >? of_Z 10 then of_Z 10
    else rawIV in
  let strike := parseFloat (Row_get row "strike") in
  let expiryDate :=
    Date_parse (JS_or (Row_get row "expiry_date") (Row_get row "expiration")) in
  match JS_or (Row_get row "option_type") (Row_get row "type") with
  | text optionType =>
      let optionType := String_toLowerCase optionType in
      let openInterest :=
        parseInt
          (JS_or (JS_or (Row_get row "open_interest")
                    (Row_get row "openinterest"))
             (number (of_Z 0))) in
      let volume := parseInt (JS_or (Row_get row "volume") (number (of_Z 0))) in
      let bid := parseFloat (JS_or (Row_get row "bid") (number (of_Z 0))) in
      let ask := parseFloat (JS_or (Row_get row "ask") (number (of_Z 0))) in
      let lastPrice :=
        parseFloat
          (JS_or (JS_or (JS_or (Row_get row "last_price")
                           (Row_get row "lastprice"))
                    (Row_get row "last"))
             (number (of_Z 0))) in
      let expiry := expiryDate in
      let daysToExpiry :=
        Math_max
          [of_Z 1;
           Math_ceil
             ((expiry - today) / (of_Z 1000 * of_Z 60 * of_Z 60 * of_Z 24))] in
      let contract :=
        {| contract :=
             {| strike := strike;
                optionType := optionType;
                openInterest := openInterest;
                impliedVolatility := rawIV;
                daysToExpiry := daysToExpiry |};
           expiryDate := expiryDate;
           volume := volume;
           bid := bid;
           ask := ask;
           lastPrice := lastPrice |} in
      normal
        (if negb (isNaN strike) && (strike >? of_Z 0) then Some contract
         else None)
  | _ => throw "TypeError"
  end.

Variable sources : Sources num.

(** The loop [for (let i = 1; i < lines.length; i++)] from line [i] on:
    the iteration of line [i] reads the clock for the [(i - 1)]-th time. *)
Fixpoint parseLoop (headers : list string) (lines : list string) (i : nat)
  (contracts : list (ContractRecord num))
  : Completion (list (ContractRecord num)) :=
  match lines with
  | [] => normal contracts
  | line :: lines' =>
      match parseLine headers (Date_now sources (i - 1)) line with
      | throw error => throw error
      | normal (Some contract) =>
          parseLoop headers lines' (S i) (contracts ++ [contract])
      | normal None => parseLoop headers lines' (S i) contracts
      end
  end.

Definition parse (csvText : string) : Completion (list (ContractRecord num)) :=
  let lines := String_split "010"%char (String_trim csvText) in
  let headers :=
    map (fun h => String_toLowerCase (String_trim h))
      (String_split "," (hd "" lines)) in
  parseLoop headers (tl lines) 1%nat [].

End CSVParser.

(* ------------------------------------------------------------------ *)
(** ** class StrategyEngine *)

Section StrategyEngine.

Local Open Scope string_scope.

Definition getConfidenceLevel (strengthLevel : string) : string :=
  if existsb (String.eqb strengthLevel) ["Very Strong"; "Strong"] then "HIGH"
  else if String.eqb strengthLevel "Moderate" then "MODERATE"
  else "LOW".

End StrategyEngine.

(* ------------------------------------------------------------------ *)
(** * The vocabulary of the properties *)

(** ** Laws shared by binary64 and real arithmetic *)

Class NumberLaws (num : Type) `{Number num} : Prop := {
  sameValueZero_refl : forall x : num, sameValueZero x x = true;
  leb_trans : forall x y z : num,
    leb x y = true -> leb y z = true -> leb x z = true
}.

Arguments NumberLaws num {_}.

Section Vocabulary.

Context {num : Type} `{Number num}.

(** The invariant of a strike's object. *)
Definition netIsSum (strikeData : StrikeData num) : Prop :=
  netGamma strikeData = add (callGamma strikeData) (putGamma strikeData).

(** [strikeMap.get(key)]: the object of the first entry with the key, if
    any. *)
Fixpoint Map_get (m : StrikeMap num) (key : num) : option (StrikeData num) :=
  match m with
  | [] => None
  | (k, v) :: m' => if sameValueZero k key then Some v else Map_get m' key
  end.

(** The object [set] stores for a strike the map does not have. *)
Definition freshStrikeData (strike : num) : StrikeData num :=
  {| sd_strike := strike; callGamma := of_Z 0; putGamma := of_Z 0;
     netGamma := of_Z 0; totalOI := of_Z 0 |}.

(** The key of every entry is the [strike] of its object. *)
Definition keyIsStrike (e : num * StrikeData num) : Prop :=
  fst e = sd_strike (snd e).

(** The sorted candidates of [findCallWalls] and of [findPutWalls]. *)
Definition callCandidates (gammaExposures : list (StrikeData num))
  (currentPrice : num) : list (Candidate num) :=
  Array_sort (fun a b => sub (exposure b) (exposure a))
    (map (fun ge =>
            {| cand_strike := sd_strike ge;
               exposure := Math_abs (callGamma ge);
               rawExposure := callGamma ge;
               distance := Math_abs (sub (sd_strike ge) currentPrice) |})
       (filter (fun ge => ltb (callGamma ge) (of_Z 0)) gammaExposures)).

Definition putCandidates (gammaExposures : list (StrikeData num))
  (currentPrice : num) : list (Candidate num) :=
  Array_sort (fun a b => sub (exposure b) (exposure a))
    (map (fun ge =>
            {| cand_strike := sd_strike ge;
               exposure := putGamma ge;
               rawExposure := putGamma ge;
               distance := Math_abs (sub (sd_strike ge) currentPrice) |})
       (filter (fun ge => ltb (of_Z 0) (putGamma ge)) gammaExposures)).

(** The value of [threshold] in the two functions. *)
Definition callThreshold (this : WallAnalyzer num)
  (gammaExposures : list (StrikeData num)) (currentPrice : num) : num :=
  mul (sum_of exposure (callCandidates gammaExposures currentPrice))
    (minSignificanceThreshold this).

Definition putThreshold (this : WallAnalyzer num)
  (gammaExposures : list (StrikeData num)) (currentPrice : num) : num :=
  mul (sum_of exposure (putCandidates gammaExposures currentPrice))
    (minSignificanceThreshold this).

End Vocabulary.

Section FlipVocabulary.

Context {num : Type} `{Number num} `{Extended num}.

(** No adjacent pair of [gammaExposures] at an index below [i] changes
    sign. *)
Definition noSignChangeBefore (gammaExposures : list (StrikeData num))
  (i : nat) : Prop :=
  forall j current next,
    (j < i)%nat ->
    nth_error gammaExposures j = Some current ->
    nth_error gammaExposures (S j) = Some next ->
    signChange current next = false.

(** [level] is the midpoint of the first adjacent pair that changes sign. *)
Definition firstCrossingMidpoint (gammaExposures : list (StrikeData num))
  (level : num) : Prop :=
  exists i current next,
    nth_error gammaExposures i = Some current
    /\ nth_error gammaExposures (S i) = Some next
    /\ signChange current next = true
    /\ noSignChangeBefore gammaExposures i
    /\ level = div (add (sd_strike current) (sd_strike next)) (of_Z 2).

End FlipVocabulary.

(** ** Signs in binary64 *)

(** The sign of [f] is [sx], or [f] is NaN. *)
Definition signIs (sx : bool) (f : spec_float) : Prop :=
  match f with
  | S754_zero s | S754_infinity s | S754_finite s _ _ => s = sx
  | S754_nan => True
  end.

(** The sign bit of [x] is clear, or [x] is NaN: [x] is [+0], a number above
    zero, [Infinity] or NaN. *)
Definition signClear (x : float) : Prop := signIs false (Prim2SF x).

(** The mantissa of [mrs] is a positive number of [k] binary digits. *)
Definition hasDigits (mrs : shr_record) (k : Z) : Prop :=
  exists m, shr_m mrs = Zpos m /\ Zpos (digits2_pos m) = k.

(** [f] is a number other than zero, or an infinity, of sign [sx]. *)
Definition nonzeroWithSign (sx : bool) (f : spec_float) : Prop :=
  match f with
  | S754_finite s _ _ | S754_infinity s => s = sx
  | _ => False
  end.

(** ** For the aggregation in real arithmetic *)

(** Two maps with the same object at every key. *)
Definition sameEntries (m1 m2 : StrikeMap R) : Prop :=
  forall key : R, Map_get m1 key = Map_get m2 key.

(** The comparison function of the final [sort]. *)
Definition byStrike (a b : StrikeData R) : R :=
  sub (sd_strike a) (sd_strike b).

Definition strikeLe (a b : StrikeData R) : Prop :=
  (sd_strike a <= sd_strike b)%R.

(** ** Laws of the comparisons *)

(** The laws of the comparisons that binary64 and real arithmetic share.  A
    number [x] with [x <= x] is any real number and, in binary64, any number
    but NaN. *)
Class OrderLaws (num : Type) `{Number num} : Prop := {
  sub_above_zero : forall x y : num, ltb (of_Z 0) (sub x y) = ltb y x;
  ltb_irreflexive : forall x : num, ltb x x = false;
  ltb_leb : forall x y : num, ltb x y = true -> leb x y = true;
  ltb_comparable : forall x y : num,
    ltb x y = true -> leb x x = true /\ leb y y = true;
  leb_total : forall x y : num,
    leb x x = true -> leb y y = true -> ltb y x = false -> leb x y = true;
  leb_transitive : forall x y z : num,
    leb x y = true -> leb y z = true -> leb x z = true;
  leb_distinct : forall x y : num,
    leb x y = true -> sameValueZero x y = false -> ltb x y = true;
  sameValueZero_sym : forall x y : num,
    sameValueZero x y = sameValueZero y x;
  sameValueZero_reflexive : forall x : num, sameValueZero x x = true;
  abs_comparable : forall x : num,
    leb x x = true -> leb (Math_abs x) (Math_abs x) = true
}.

Arguments OrderLaws num {_}.

Section OrderVocabulary.

Context {num : Type} `{Number num}.

(** A number other than NaN. *)
Definition comparable (x : num) : Prop := leb x x = true.

(** No two keys are the same value. *)
Definition distinctKeys (keys : list num) : Prop :=
  ForallOrdPairs (fun k1 k2 => sameValueZero k1 k2 = false) keys.

End OrderVocabulary.

(** ** For the aggregates *)

Section AggregateVocabulary.

Context {num : Type} `{Number num}.

(** The call exposure of a strike's object is the [0] it starts with, or
    the chain has a call at the strike; and so for its put exposure and the
    contracts that are no calls. *)
Definition hasSources (contracts : list (Contract num))
  (e : num * StrikeData num) : Prop :=
  fst e = sd_strike (snd e)
  /\ (callGamma (snd e) = of_Z 0
      \/ exists c, In c contracts /\ optionType c = "call"%string
                   /\ sameValueZero (fst e) (strike c) = true)
  /\ (putGamma (snd e) = of_Z 0
      \/ exists c, In c contracts /\ optionType c <> "call"%string
                   /\ sameValueZero (fst e) (strike c) = true).

End AggregateVocabulary.

(** The contracts the sign rule is stated for: volatility above zero and an
    open interest that is not below zero. *)
Definition quoted (contract : Contract float) : Prop :=
  PrimFloat.ltb 0 (impliedVolatility contract) = true
  /\ PrimFloat.ltb (openInterest contract) 0 = false.

(** The signed exposure [calculateGammaExposure] gives a contract. *)
Definition signedExposure (M : MathLib) (this : GammaCalculator float)
  (spotPrice : float) (contract : Contract float) : float :=
  gammaExposure
    (calculateGammaExposure (T := float_Transcendental M) this contract
       spotPrice).

(** The call exposure is not above zero, the put exposure and the open
    interest are not below zero. *)
Definition callsBelowPutsAbove (strikeData : StrikeData float) : Prop :=
  PrimFloat.ltb 0 (callGamma strikeData) = false
  /\ PrimFloat.ltb (putGamma strikeData) 0 = false
  /\ PrimFloat.ltb (totalOI strikeData) 0 = false.

(** [f] is not above zero (it is a zero, a number below zero or NaN) when
    [sx] is [true], and not below zero when [sx] is [false]. *)
Definition signOrZero (sx : bool) (f : spec_float) : Prop :=
  match f with
  | S754_infinity s | S754_finite s _ _ => s = sx
  | S754_zero _ | S754_nan => True
  end.

(** [f] is a number, and zero or of sign [sx]. *)
Definition numberOfSign (sx : bool) (f : spec_float) : Prop :=
  signOrZero sx f /\ f <> S754_nan.

(** ** Rounding in binary64 *)

(** [value] is [shr_m mrs * scale] plus a remainder below [scale] that the
    round and sticky bits of [mrs] locate: the round bit says whether the
    remainder reaches half of [scale], the sticky bit whether it is neither
    nothing nor that half. *)
Definition located (mrs : shr_record) (value scale : Z) : Prop :=
  (0 <= shr_m mrs)%Z
  /\ exists rem : Z,
       (value = shr_m mrs * scale + rem)%Z
       /\ (0 <= rem < scale)%Z
       /\ (shr_r mrs = true <-> (scale <= 2 * rem)%Z)
       /\ (shr_s mrs = true <-> rem <> 0%Z /\ (2 * rem)%Z <> scale).

(** [n] is the integer nearest to [value / scale], the even one of the two
    when [value / scale] is halfway. *)
Definition nearestEven (value scale n : Z) : Prop :=
  ((2 * n - 1) * scale <= 2 * value <= (2 * n + 1) * scale)%Z
  /\ ((2 * value = (2 * n - 1) * scale)%Z -> Z.even n = true)
  /\ ((2 * value = (2 * n + 1) * scale)%Z -> Z.even n = true).

(** What [binary_round_aux] makes of the rounded mantissa [n] at the
    exponent [e]: a mantissa of [prec + 1] digits is shifted once more, and
    an exponent above the largest is an overflow. *)
Definition finish (sx : bool) (n e : Z) : spec_float :=
  match n with
  | Z0 => S754_zero sx
  | Zpos m =>
      if (n =? 2 ^ prec)%Z
      then if (e + 1 <=? emax - prec)%Z
           then S754_finite sx (Z.to_pos (2 ^ (prec - 1))) (e + 1)
           else S754_infinity sx
      else if (e <=? emax - prec)%Z then S754_finite sx m e
           else S754_infinity sx
  | Zneg _ => S754_nan
  end.

(** The exponent a mantissa [m] at the exponent [e] is rounded at. *)
Definition targetExponent (m : positive) (e : Z) : Z :=
  SpecFloat.fexp prec emax (Zpos (digits2_pos m) + e).

(** The mantissa of [f] with its sign, 0 for a zero. *)
Definition signedMantissa (f : spec_float) : Z :=
  match f with
  | S754_finite s m _ => cond_Zopp s (Zpos m)
  | _ => 0%Z
  end.

(** The exponent of [f], the least one for a zero. *)
Definition exponentOf (f : spec_float) : Z :=
  match f with
  | S754_finite _ _ e => e
  | _ => SpecFloat.emin prec emax
  end.

(** The value of [f] in units of [2^c]. *)
Definition scaledValue (f : spec_float) (c : Z) : Z :=
  (signedMantissa f * 2 ^ (exponentOf f - c))%Z.

(** A zero or a finite number. *)
Definition isFinite (f : spec_float) : bool :=
  match f with
  | S754_zero _ | S754_finite _ _ _ => true
  | _ => false
  end.

(** ** For the walls *)

Section WallVocabulary.

Context {num : Type} `{Number num}.

(** The wall [findCallWalls] and [findPutWalls] make of a candidate. *)
Definition wallOf (wallType : string) (c : Candidate num) (index : nat)
  : Wall num :=
  {| wall_strike := cand_strike c;
     exposureValue := rawExposure c;
     wallType := wallType;
     distanceFromSpot := distance c;
     significanceRank := index + 1 |}.

(** The candidates that reach the threshold. *)
Definition significantCalls (this : WallAnalyzer num)
  (gammaExposures : list (StrikeData num)) (currentPrice : num)
  : list (Candidate num) :=
  filter (fun c => leb (callThreshold this gammaExposures currentPrice)
                     (exposure c))
    (callCandidates gammaExposures currentPrice).

Definition significantPuts (this : WallAnalyzer num)
  (gammaExposures : list (StrikeData num)) (currentPrice : num)
  : list (Candidate num) :=
  filter (fun c => leb (putThreshold this gammaExposures currentPrice)
                     (exposure c))
    (putCandidates gammaExposures currentPrice).

End WallVocabulary.

(** ** For the ATM statistics *)

Section AtmVocabulary.

Context {num : Type} `{Number num}.

(** The distance [getAverageIVAndDTE] sorts a contract by. *)
Definition distanceFromAmbient (window : Window num) (c : Contract num)
  : num :=
  Math_abs (sub (strike c) (ambientPrice window)).

(** [contractsWithDistance] after the sort. *)
Definition sortedByDistance (window : Window num)
  (contracts : list (Contract num)) : list (WithDistance num) :=
  Array_sort (fun a b => sub (wd_distance a) (wd_distance b))
    (map (fun c => {| wd_contract := c;
                      wd_distance := distanceFromAmbient window c |})
       contracts).

End AtmVocabulary.

(** ** For the parser and the generator *)

(** What [parse] leaves of a contract's strike, volatility and days to
    expiry. *)
Definition parsedWell (c : ContractRecord float) : Prop :=
  PrimFloat.ltb 0 (strike (contract c)) = true
  /\ (PrimFloat.is_nan (impliedVolatility (contract c)) = true
      \/ PrimFloat.leb 0.01 (impliedVolatility (contract c)) = true
         /\ PrimFloat.leb (impliedVolatility (contract c)) 10 = true)
  /\ (PrimFloat.is_nan (daysToExpiry (contract c)) = true
      \/ PrimFloat.leb 1 (daysToExpiry (contract c)) = true).

Section TextVocabulary.

Context {num : Type} {H : Host num}.

(** The lines of the trimmed text and the header names of its first line,
    as [parse] computes them. *)
Definition linesOf (csvText : string) : list string :=
  String_split "010"%char (String_trim csvText).

Definition headersOf (csvText : string) : list string :=
  map (fun h => String_toLowerCase (String_trim h))
    (String_split "," (hd ""%string (linesOf csvText))).

End TextVocabulary.

Section ListingVocabulary.

Context {num : Type}.

(** The strike, type and days to expiry of a contract. *)
Definition listing (c : ContractRecord num) : num * string * num :=
  (strike (contract c), optionType (contract c), daysToExpiry (contract c)).

(** A call and a put at one strike. *)
Definition pairAt (daysToExpiry : num) (strike : num)
  : list (num * string * num) :=
  [(strike, "call"%string, daysToExpiry); (strike, "put"%string, daysToExpiry)].

End ListingVocabulary.

(** ** Example data *)

(** What [calculateGammaEnvironment] returns on no aggregates. *)
Definition emptyEnvironment : GammaEnvironment float :=
  {| environment := "neutral";
     environmentStrength := PrimFloat.nan;
     strengthInterpretation :=
       {| level := "Very Weak";
          color := "⚪";
          volatilityImpact := "Minimal impact";
          si_description := "Minimal gamma influence on price action" |};
     gammaFlipLevel := None;
     description := "Balanced gamma exposure with mixed market maker positioning. Moderate volatility expected with no clear directional bias.";
     positiveStrikes := 0;
     negativeStrikes := 0;
     neutralStrikes := 0;
     positiveStrikePercentage := PrimFloat.nan;
     negativeStrikePercentage := PrimFloat.nan |}.

Module AtmExample.

(** One contract at strike 100 with IV 0.5 and ten at strike 450 with IV
    0.25. *)
Definition contract (strike impliedVolatility : float) : Contract float :=
  {| strike := strike; optionType := "call"; openInterest := 10%float;
     impliedVolatility := impliedVolatility; daysToExpiry := 30%float |}.

Definition chain : list (Contract float) :=
  contract 100 0.5 :: repeat (contract 450 0.25) 10.

(** The same contracts, the ten at strike 450 first. *)
Definition chainReversed : list (Contract float) :=
  repeat (contract 450 0.25) 10 ++ [contract 100 0.5].

(** A state where [window.currentPrice] is undefined. *)
Definition unset : Window float := {| window_currentPrice := wv_undefined |}.

(** The state of the page: [window.currentPrice] is the text field of the
    price, an object, which is truthy and NaN as a number. *)
Definition page : Window float :=
  {| window_currentPrice := wv_other true PrimFloat.nan |}.

End AtmExample.

Module FlatExample.

(** An aggregate with no exposure at strike 100. *)
Definition flat : StrikeData float :=
  {| sd_strike := 100%float; callGamma := 0%float; putGamma := 0%float;
     netGamma := 0%float; totalOI := 0%float |}.

End FlatExample.

Module InvalidExample.

Definition valid : Contract float :=
  {| strike := 100%float; optionType := "put"; openInterest := 1000%float;
     impliedVolatility := 0.2%float; daysToExpiry := 30%float |}.

Definition negativeOpenInterest : Contract float :=
  {| strike := 100%float; optionType := "put"; openInterest := (-5)%float;
     impliedVolatility := 0.2%float; daysToExpiry := 30%float |}.

Definition nonPositiveStrike : Contract float :=
  {| strike := (-100)%float; optionType := "put"; openInterest := 7%float;
     impliedVolatility := 0.2%float; daysToExpiry := 30%float |}.

Definition zeroVolatility : Contract float :=
  {| strike := 100%float; optionType := "put"; openInterest := 7%float;
     impliedVolatility := 0%float; daysToExpiry := 30%float |}.

Definition nanVolatility : Contract float :=
  {| strike := 100%float; optionType := "put"; openInterest := 7%float;
     impliedVolatility := PrimFloat.nan; daysToExpiry := 30%float |}.

(** The same contracts in real arithmetic. *)
Definition validR : Contract R :=
  {| strike := 100%R; optionType := "put"; openInterest := 1000%R;
     impliedVolatility := (2 / 10)%R; daysToExpiry := 30%R |}.

Definition negativeOpenInterestR : Contract R :=
  {| strike := 100%R; optionType := "put"; openInterest := (-5)%R;
     impliedVolatility := (2 / 10)%R; daysToExpiry := 30%R |}.

End InvalidExample.

Module WallExample.

(** One aggregate whose call exposure has overflowed to [-Infinity]. *)
Definition overflowed : StrikeData float :=
  {| sd_strike := 100%float; callGamma := PrimFloat.neg_infinity;
     putGamma := 0%float; netGamma := PrimFloat.neg_infinity;
     totalOI := 10%float |}.

(** Call exposures of 90, 6 and 4. *)
Definition chain : list (StrikeData float) :=
  [ {| sd_strike := 100%float; callGamma := (-90)%float;
       putGamma := 0%float; netGamma := (-90)%float; totalOI := 10%float |};
    {| sd_strike := 105%float; callGamma := (-6)%float;
       putGamma := 0%float; netGamma := (-6)%float; totalOI := 10%float |};
    {| sd_strike := 110%float; callGamma := (-4)%float;
       putGamma := 0%float; netGamma := (-4)%float; totalOI := 10%float |} ].

End WallExample.

Module OrderExample.

(** Three calls at strike 100 with open interest 2^53, 1 and 1. *)
Definition call (openInterest : float) : Contract float :=
  {| strike := 100%float; optionType := "call"; openInterest := openInterest;
     impliedVolatility := 0.2%float; daysToExpiry := 30%float |}.

Definition listed : list (Contract float) :=
  [call 9007199254740992; call 1; call 1].

Definition shuffled : list (Contract float) :=
  [call 1; call 1; call 9007199254740992].

(** The call and the put of scenario B, in real arithmetic. *)
Definition callR : Contract R :=
  {| strike := 100%R; optionType := "call"; openInterest := 1000%R;
     impliedVolatility := (2 / 10)%R; daysToExpiry := 30%R |}.

Definition putR : Contract R :=
  {| strike := 100%R; optionType := "put"; openInterest := 1000%R;
     impliedVolatility := (2 / 10)%R; daysToExpiry := 30%R |}.

End OrderExample.

(** A host for the examples: ASCII text, plain decimal numerals
    ([450], [0.25], [-3.5]), days written [YYYY-MM-DD], and the rounding
    functions on numbers below 2^52 in size. *)
Module HostExample.

Local Open Scope string_scope.

Definition isSpace (c : ascii) : bool :=
  existsb (Ascii.eqb c) [" "%char; "009"%char; "010"%char; "013"%char].

Fixpoint trimStart (s : string) : string :=
  match s with
  | String c s' => if isSpace c then trimStart s' else s
  | EmptyString => EmptyString
  end.

Fixpoint reverse (s acc : string) : string :=
  match s with
  | String c s' => reverse s' (String c acc)
  | EmptyString => acc
  end.

Definition trim (s : string) : string :=
  reverse (trimStart (reverse (trimStart s) "")) "".

Definition lower (c : ascii) : ascii :=
  let n := nat_of_ascii c in
  if (65 <=? n)%nat && (n <=? 90)%nat then ascii_of_nat (n + 32) else c.

Fixpoint toLowerCase (s : string) : string :=
  match s with
  | String c s' => String (lower c) (toLowerCase s')
  | EmptyString => EmptyString
  end.

Definition digit (c : ascii) : option Z :=
  let n := Z.of_nat (nat_of_ascii c) in
  if (48 <=? n)%Z && (n <=? 57)%Z then Some (n - 48)%Z else None.

(** The digits at the start of [s], appended to [value]: the number, how
    many digits were read, and the rest of [s]. *)
Fixpoint digits (s : string) (value : Z) (count : nat) : Z * nat * string :=
  match s with
  | String c s' =>
      match digit c with
      | Some d => digits s' (10 * value + d)%Z (S count)
      | None => (value, count, s)
      end
  | EmptyString => (value, count, s)
  end.

(** A numeral [m / 10^k] at the start of [s]. *)
Definition numeral (s : string) : option (Z * Z) :=
  let '(int, n, rest) := digits s 0%Z 0%nat in
  match rest with
  | String "."%char rest' =>
      let '(all, k, _) := digits rest' int 0%nat in
      if (n + k =? 0)%nat then None else Some (all, (10 ^ Z.of_nat k)%Z)
  | _ => if (n =? 0)%nat then None else Some (int, 1%Z)
  end.

Definition signed (s : string) : bool * string :=
  match s with
  | String "-"%char s' => (true, s')
  | String "+"%char s' => (false, s')
  | _ => (false, s)
  end.

(** [parseFloat] and [parseInt]: a number argument is one of the literals
    [0] and [0.2] of the source, which they return. *)
Definition decimalOf (v : JSValue float) : float :=
  match v with
  | undefined => PrimFloat.nan
  | number x => x
  | text s =>
      let (negative, s') := signed (trimStart s) in
      match numeral s' with
      | Some (m, k) =>
          let x := (FloatNumber.of_Z m / FloatNumber.of_Z k)%float in
          if negative then PrimFloat.opp x else x
      | None => PrimFloat.nan
      end
  end.

Definition integerOf (v : JSValue float) : float :=
  match v with
  | undefined => PrimFloat.nan
  | number x => x
  | text s =>
      let (negative, s') := signed (trimStart s) in
      match digits s' 0%Z 0%nat with
      | (_, O, _) => PrimFloat.nan
      | (m, _, _) =>
          if negative then PrimFloat.opp (FloatNumber.of_Z m)
          else FloatNumber.of_Z m
      end
  end.

(** The days from 1970-01-01 to the day [d] of month [m] of year [y]. *)
Definition daysFromCivil (y m d : Z) : Z :=
  let y' := (if m <=? 2 then y - 1 else y)%Z in
  let era := (y' / 400)%Z in
  let yoe := (y' - era * 400)%Z in
  let doy := ((153 * (if m >? 2 then m - 3 else m + 9) + 2) / 5 + d - 1)%Z in
  let doe := (yoe * 365 + yoe / 4 - yoe / 100 + doy)%Z in
  (era * 146097 + doe - 719468)%Z.

(** [new Date("YYYY-MM-DD")]: midnight UTC of the day. *)
Definition dayOf (v : JSValue float) : float :=
  match v with
  | text s =>
      match digits s 0%Z 0%nat with
      | (y, 4%nat, String "-"%char s1) =>
          match digits s1 0%Z 0%nat with
          | (m, 2%nat, String "-"%char s2) =>
              match digits s2 0%Z 0%nat with
              | (d, 2%nat, EmptyString) =>
                  FloatNumber.of_Z (daysFromCivil y m d * 86400000)
              | _ => PrimFloat.nan
              end
          | _ => PrimFloat.nan
          end
      | _ => PrimFloat.nan
      end
  | _ => PrimFloat.nan
  end.

(** The integer nearest to [x], for [|x| < 2^52]; [x] itself beyond. *)
Definition nearest (x : float) : float :=
  if PrimFloat.ltb (PrimFloat.abs x) 4503599627370496 then
    if PrimFloat.ltb x 0 then (x - 4503599627370496 + 4503599627370496)%float
    else (x + 4503599627370496 - 4503599627370496)%float
  else x.

Definition floor (x : float) : float :=
  let r := nearest x in if PrimFloat.ltb x r then (r - 1)%float else r.

Definition ceil (x : float) : float :=
  let r := nearest x in if PrimFloat.ltb r x then (r + 1)%float else r.

(** [Math.round]: halves go up. *)
Definition round (x : float) : float :=
  let r := floor x in
  if PrimFloat.leb 0.5 (x - r) then (r + 1)%float else r.

Definition timeClip (x : float) : float :=
  if PrimFloat.leb (PrimFloat.abs x) 8.64e15 then
    (if PrimFloat.ltb x 0 then ceil x else floor x) + 0
  else PrimFloat.nan.

Definition host : Host float := {|
  String_trim := trim;
  String_toLowerCase := toLowerCase;
  parseFloat := decimalOf;
  parseInt := integerOf;
  Date_parse := dayOf;
  TimeClip := timeClip;
  Math_ceil := ceil;
  Math_floor := floor;
  Math_round := round
|}.

(** A [Math.exp] and a [Math.log] of low accuracy: [(1 + x/1024)^1024],
    by ten squarings, and its inverse [1024 * (x^(1/1024) - 1)], by ten
    square roots. *)
Fixpoint squareTimes (n : nat) (y : float) : float :=
  match n with
  | O => y
  | S n' => squareTimes n' (y * y)
  end.

Fixpoint sqrtTimes (n : nat) (y : float) : float :=
  match n with
  | O => y
  | S n' => sqrtTimes n' (PrimFloat.sqrt y)
  end.

Definition mathLib : MathLib := {|
  lib_exp := fun x => squareTimes 10 (1 + x / 1024);
  lib_log := fun x => (1024 * (sqrtTimes 10 x - 1))%float
|}.

(** A clock that stands at 2025-01-01 and a [Math.random] that cycles
    through 0, 0.25, 0.5 and 0.75. *)
Definition sources : Sources float := {|
  Date_now := fun _ => 1735689600000%float;
  Math_random := fun k => (FloatNumber.of_Z (Z.of_nat (k mod 4)) / 4)%float
|}.

Definition csvText : string :=
  "strike,expiry_date,option_type,open_interest,implied_volatility" ++ String "010" (
  "450,2025-01-17,call,15420,0.185" ++ String "010" (
  "450,2025-01-17,put,12350,17.2" ++ String "010" (
  "0,2025-01-17,put,10,0.2" ++ String "010" (
  " 455 ,2025-01-31, CALL ,18900,0.0001")))).

End HostExample.

Module ChainExample.

(** A call and a put at 450 and a put at 440, 30 days from expiry. *)
Definition quote (strike : float) (optionType : string)
  (openInterest impliedVolatility : float) : Contract float :=
  {| strike := strike; optionType := optionType;
     openInterest := openInterest; impliedVolatility := impliedVolatility;
     daysToExpiry := 30%float |}.

Definition chain : list (Contract float) :=
  [quote 450 "call" 15420 0.185; quote 440 "put" 9000 0.21;
   quote 450 "put" 12350 0.172].

Definition calculator : GammaCalculator float := new_GammaCalculator.

(** Its aggregates at spot 450, with the example [Math.exp] and
    [Math.log]. *)
Definition aggregates : list (StrikeData float) :=
  aggregateByStrike (T := float_Transcendental HostExample.mathLib)
    calculator chain 450%float.

End ChainExample.

Module TextExample.

(** The contracts of [HostExample.csvText]. *)
Definition parsed : list (ContractRecord float) :=
  Eval vm_compute in
    match parse (E := float_Extended squaring) (H := HostExample.host)
            HostExample.sources HostExample.csvText with
    | normal contracts => contracts
    | throw _ => []
    end.

(** A text without a column for the option type. *)
Definition untyped : string :=
  "strike,iv" ++ String "010" "450,0.2".

End TextExample.

(* ------------------------------------------------------------------ *)
(** * Properties *)

(** ** The embedding at work in binary64 *)

(** The decimal literals of the source, as [decimal] builds them, are the
    binary64 numbers the literals denote. *)
Lemma decimal_literals_float :
  (decimal 5 100 : float) = 0.05%float
  /\ (decimal 5 10 : float) = 0.5%float
  /\ (decimal 10 100 : float) = 0.10%float
  /\ (decimal 2 100 : float) = 0.02%float
  /\ (decimal 1 100 : float) = 0.01%float
  /\ (decimal 682 10 : float) = 68.2%float
  /\ (decimal 954 10 : float) = 95.4%float.
Proof. repeat split. Qed.

(** Scenario D: spot 580, IV 0.20, 30 days. *)
Example calculateExpectedMove_scenario_D :
  let move := calculateExpectedMove 580%float 0.2%float 30%float in
  expectedMove1SD move = 33.256166386697757%float
  /\ expectedMove2SD move = 66.512332773395514%float
  /\ upper1SD move = 613.25616638669771%float
  /\ lower1SD move = 546.74383361330229%float.
Proof. repeat split. Qed.

(** The default analyzer on call exposures of 90, 6 and 4: the strike with
    4% of the total is no wall. *)
Example findCallWalls_example :
  map wall_strike
    (findCallWalls new_WallAnalyzer WallExample.chain 100%float 5)
  = [100%float; 105%float].
Proof. reflexivity. Qed.

(** ** Facts of binary64 arithmetic *)

Module FloatFacts.

Lemma sameValueZero_float_refl (x : float) :
  FloatNumber.sameValueZero x x = true.
Proof.
  unfold FloatNumber.sameValueZero, PrimFloat.is_nan.
  destruct (PrimFloat.eqb x x); reflexivity.
Qed.

Lemma SFleb_trans (x y z : spec_float) :
  SFleb x y = true -> SFleb y z = true -> SFleb x z = true.
Proof.
  unfold SFleb, SFcompare.
  destruct x as [sx|sx| |sx mx ex], y as [sy|sy| |sy my ey],
    z as [sz|sz| |sz mz ez];
    repeat match goal with s : bool |- _ => destruct s end;
    try reflexivity; try discriminate;
    change (Pos.compare_cont Eq) with Pos.compare;
    repeat match goal with
      | |- context [Z.compare ?a ?b] => destruct (Z.compare_spec a b)
      | |- context [Pos.compare ?a ?b] => destruct (Pos.compare_spec a b)
      end;
    simpl; try reflexivity; try discriminate; intros _ _; exfalso; lia.
Qed.

Lemma leb_float_trans (x y z : float) :
  PrimFloat.leb x y = true -> PrimFloat.leb y z = true ->
  PrimFloat.leb x z = true.
Proof. rewrite !FloatAxioms.leb_spec. apply SFleb_trans. Qed.

Lemma Prim2SF_zero_of (x : float) :
  PrimFloat.eqb x 0%float = true -> exists s, Prim2SF x = S754_zero s.
Proof.
  rewrite FloatAxioms.eqb_spec.
  change (Prim2SF 0%float) with (S754_zero false).
  destruct (Prim2SF x) as [s|s| |s m e]; simpl; try discriminate.
  - intros _. exists s. reflexivity.
  - destruct s; discriminate.
  - destruct s; discriminate.
Qed.

(** [a < b] excludes [b < a]. *)
Lemma ltb_asym (x y : float) :
  PrimFloat.ltb x y = true -> PrimFloat.ltb y x = false.
Proof.
  rewrite !FloatAxioms.ltb_spec. unfold SFltb, SFcompare.
  destruct (Prim2SF x) as [sx|sx| |sx mx ex],
    (Prim2SF y) as [sy|sy| |sy my ey];
    repeat match goal with s : bool |- _ => destruct s end;
    try reflexivity; try discriminate;
    change (Pos.compare_cont Eq) with Pos.compare;
    repeat match goal with
      | |- context [Z.compare ?a ?b] => destruct (Z.compare_spec a b)
      | |- context [Pos.compare ?a ?b] => destruct (Pos.compare_spec a b)
      end;
    simpl; try reflexivity; try discriminate; intros _; exfalso; lia.
Qed.

(** The absolute value of a zero is [+0]. *)
Lemma abs_zero (x : float) :
  PrimFloat.eqb x 0%float = true -> PrimFloat.abs x = 0%float.
Proof.
  intro Hx. apply Prim2SF_zero_of in Hx. destruct Hx as [s Hx].
  apply Prim2SF_inj. rewrite FloatAxioms.abs_spec, Hx. reflexivity.
Qed.

(** [|0 / 0|] is NaN. *)
Lemma abs_div_zero_nan (x y : float) :
  PrimFloat.eqb y 0%float = true -> PrimFloat.eqb x 0%float = true ->
  PrimFloat.abs (x / y)%float = PrimFloat.nan.
Proof.
  intros Hy Hx. apply Prim2SF_zero_of in Hy, Hx.
  destruct Hy as [sy Hy], Hx as [sx Hx].
  apply Prim2SF_inj.
  rewrite FloatAxioms.abs_spec, FloatAxioms.div_spec, Hx, Hy. reflexivity.
Qed.

(** [|NaN / y|] is NaN. *)
Lemma abs_div_nan (x y : float) :
  PrimFloat.is_nan x = true -> PrimFloat.abs (x / y)%float = PrimFloat.nan.
Proof.
  unfold PrimFloat.is_nan. rewrite FloatAxioms.eqb_spec. intro Hx.
  apply Prim2SF_inj.
  rewrite FloatAxioms.abs_spec, FloatAxioms.div_spec.
  change (Prim2SF PrimFloat.nan) with S754_nan.
  unfold SFeqb, SFcompare in Hx.
  destruct (Prim2SF x) as [sx|sx| |sx mx ex].
  - discriminate.
  - destruct sx; discriminate.
  - reflexivity.
  - exfalso. destruct sx; rewrite Z.compare_refl in Hx;
      change (Pos.compare_cont Eq mx mx) with (Pos.compare mx mx) in Hx;
      rewrite Pos.compare_refl in Hx; discriminate.
Qed.

(** [|x / 0|] is [Infinity] for a number [x] that is not a zero. *)
Lemma abs_div_zero_infinity (x y : float) :
  PrimFloat.eqb y 0%float = true -> PrimFloat.eqb x 0%float = false ->
  PrimFloat.is_nan x = false ->
  PrimFloat.abs (x / y)%float = PrimFloat.infinity.
Proof.
  intros Hy Hx Hn. apply Prim2SF_zero_of in Hy. destruct Hy as [sy Hy].
  unfold PrimFloat.is_nan in Hn. rewrite FloatAxioms.eqb_spec in Hx, Hn.
  change (Prim2SF 0%float) with (S754_zero false) in Hx.
  apply Prim2SF_inj.
  rewrite FloatAxioms.abs_spec, FloatAxioms.div_spec, Hy.
  destruct (Prim2SF x) as [sx|sx| |sx mx ex]; simpl in *;
    try discriminate; reflexivity.
Qed.

(** [0 / (x * 0)] is NaN: [x * 0] is a zero or NaN. *)
Lemma zero_div_mul_zero (x : float) :
  (0 / (x * 0))%float = PrimFloat.nan.
Proof.
  apply Prim2SF_inj.
  rewrite FloatAxioms.div_spec, FloatAxioms.mul_spec.
  change (Prim2SF 0%float) with (S754_zero false).
  destruct (Prim2SF x) as [sx|sx| |sx mx ex]; reflexivity.
Qed.

(** [x / Infinity] is a zero or NaN, never above 0. *)
Lemma div_infinity_not_positive (x : float) :
  PrimFloat.ltb 0%float (x / PrimFloat.infinity)%float = false.
Proof.
  rewrite FloatAxioms.ltb_spec, FloatAxioms.div_spec.
  change (Prim2SF 0%float) with (S754_zero false).
  change (Prim2SF PrimFloat.infinity) with (S754_infinity false).
  destruct (Prim2SF x) as [sx|sx| |sx mx ex]; reflexivity.
Qed.

(** Adding [k * 0] to a sum that is [+0] or NaN leaves it [+0] or NaN. *)
Lemma add_mul_zero (s k : float) :
  s = 0%float \/ s = PrimFloat.nan ->
  (s + k * 0)%float = 0%float \/ (s + k * 0)%float = PrimFloat.nan.
Proof.
  assert (Hk : Prim2SF (k * 0)%float = S754_nan
               \/ exists sk, Prim2SF (k * 0)%float = S754_zero sk).
  { rewrite FloatAxioms.mul_spec.
    change (Prim2SF 0%float) with (S754_zero false).
    destruct (Prim2SF k) as [sx|sx| |sx mx ex]; simpl;
      try (left; reflexivity); right; eexists; reflexivity. }
  intros [Hs|Hs]; subst s.
  - destruct Hk as [Hk|[sk Hk]]; [right|left]; apply Prim2SF_inj;
      rewrite FloatAxioms.add_spec, Hk;
      change (Prim2SF 0%float) with (S754_zero false);
      try destruct sk; reflexivity.
  - right. apply Prim2SF_inj. rewrite FloatAxioms.add_spec.
    change (Prim2SF PrimFloat.nan) with S754_nan. reflexivity.
Qed.

(** Rounding keeps the sign. *)
Lemma binary_round_aux_sign (p e : Z) (sx : bool) (mx ex : Z)
  (lx : location) :
  signIs sx (binary_round_aux p e sx mx ex lx).
Proof.
  unfold binary_round_aux.
  destruct (shr_fexp p e mx ex lx) as [mrs' e'].
  destruct (shr_fexp p e _ e' loc_Exact) as [mrs'' e''].
  destruct (shr_m mrs''); simpl; trivial.
  destruct (Z.leb e'' (e - p)); simpl; trivial.
Qed.

Lemma positive_signClear (x : float) :
  PrimFloat.ltb 0 x = true -> signClear x.
Proof.
  rewrite FloatAxioms.ltb_spec. unfold signClear, signIs.
  change (Prim2SF 0%float) with (S754_zero false).
  destruct (Prim2SF x) as [s|s| |s m e]; simpl; trivial;
    destruct s; trivial; discriminate.
Qed.

Lemma positive_not_leb (x : float) :
  PrimFloat.ltb 0 x = true -> PrimFloat.leb x 0 = false.
Proof.
  rewrite FloatAxioms.ltb_spec, FloatAxioms.leb_spec.
  change (Prim2SF 0%float) with (S754_zero false).
  destruct (Prim2SF x) as [s|s| |s m e]; simpl; trivial;
    destruct s; trivial; discriminate.
Qed.

Lemma mul_signClear (x y : float) :
  signClear x -> signClear y -> signClear (x * y)%float.
Proof.
  unfold signClear, signIs. rewrite FloatAxioms.mul_spec.
  destruct (Prim2SF x) as [sx|sx| |sx mx ex],
    (Prim2SF y) as [sy|sy| |sy my ey];
    simpl; trivial; intros -> ->; trivial.
  exact (binary_round_aux_sign prec emax false _ _ _).
Qed.

Lemma sqrt_signClear (x : float) :
  signClear x -> signClear (PrimFloat.sqrt x).
Proof.
  unfold signClear, signIs. rewrite FloatAxioms.sqrt_spec.
  destruct (Prim2SF x) as [sx|sx| |sx mx ex]; simpl; trivial; intros ->;
    trivial.
  unfold SF64sqrt, SFsqrt.
  destruct (SFsqrt_core_binary prec emax (Z.pos mx) ex) as [[mz ez] lz].
  exact (binary_round_aux_sign prec emax false mz ez lz).
Qed.

(** A number that is not below zero, divided by one whose sign is clear,
    is not below zero. *)
Lemma div_not_negative (x y : float) :
  PrimFloat.ltb x 0 = false -> signClear y ->
  PrimFloat.ltb (x / y) 0 = false.
Proof.
  unfold signClear, signIs. rewrite !FloatAxioms.ltb_spec, FloatAxioms.div_spec.
  change (Prim2SF 0%float) with (S754_zero false).
  destruct (Prim2SF x) as [sx|sx| |sx mx ex],
    (Prim2SF y) as [sy|sy| |sy my ey];
    simpl; intros Hx Hy; try subst sy;
    repeat match goal with s : bool |- _ => destruct s end;
    try discriminate Hx; try reflexivity.
  destruct (SFdiv_core_binary prec emax (Z.pos mx) ex (Z.pos my) ey)
    as [[mz ez] lz].
  match goal with
  | |- SFltb (binary_round_aux ?p ?e ?s ?m ?x ?l) _ = _ =>
      pose proof (binary_round_aux_sign p e s m x l) as Hs;
      destruct (binary_round_aux p e s m x l) as [s'|s'| |s' m' e']
  end; simpl in *; subst; reflexivity.
Qed.

(** Rounding a positive mantissa never gives zero: of the two shifts of
    [binary_round_aux], each leaves at least one digit. *)
Section Rounding.

Variables p e : Z.

Hypothesis prec_pos : (0 < p)%Z.

Lemma shr_1_digits (mrs : shr_record) (k : Z) :
  hasDigits mrs k -> (1 < k)%Z -> hasDigits (shr_1 mrs) (k - 1).
Proof.
  intros (m & Hm & Hk) Hlt. destruct mrs as [mm r s]. simpl in Hm. subst mm.
  destruct m as [m|m|]; simpl in *.
  - exists m. split; [reflexivity|lia].
  - exists m. split; [reflexivity|lia].
  - lia.
Qed.

Lemma iter_shr_1_digits (n : positive) :
  forall (mrs : shr_record) (k : Z),
    hasDigits mrs k -> (Zpos n < k)%Z ->
    hasDigits (SpecFloat.iter_pos shr_1 n mrs) (k - Zpos n).
Proof.
  induction n as [n IH|n IH|]; intros mrs k Hd Hlt; simpl.
  - replace (k - Zpos n~1)%Z with (k - 1 - Zpos n - Zpos n)%Z by lia.
    apply IH; [|lia]. apply IH; [|lia].
    apply shr_1_digits; [assumption|lia].
  - replace (k - Zpos n~0)%Z with (k - Zpos n - Zpos n)%Z by lia.
    apply IH; [|lia]. apply IH; [assumption|lia].
  - apply shr_1_digits; assumption.
Qed.

Lemma fexp_ge_emin (x : Z) : (SpecFloat.emin p e <= SpecFloat.fexp p e x)%Z.
Proof. unfold SpecFloat.fexp. lia. Qed.

Lemma shr_fexp_positive (m : positive) (ex : Z) (l : location) :
  (SpecFloat.emin p e <= ex)%Z ->
  exists m', shr_m (fst (shr_fexp p e (Zpos m) ex l)) = Zpos m'
             /\ (SpecFloat.emin p e <= snd (shr_fexp p e (Zpos m) ex l))%Z.
Proof.
  intro He. unfold shr_fexp, shr. simpl Zdigits2.
  set (d := Zpos (digits2_pos m)).
  assert (Hrec : hasDigits (shr_record_of_loc (Zpos m) l) d).
  { exists m. split; [|reflexivity]. destruct l as [|[]]; reflexivity. }
  destruct (SpecFloat.fexp p e (d + ex) - ex)%Z as [|n|n] eqn:Hn; simpl.
  - destruct Hrec as (m' & Hm' & _). exists m'. split; assumption.
  - assert (Hlt : (Zpos n < d)%Z).
    { unfold SpecFloat.fexp in Hn. lia. }
    destruct (iter_shr_1_digits Hrec Hlt) as (m' & Hm' & _).
    exists m'. split; [assumption|lia].
  - destruct Hrec as (m' & Hm' & _). exists m'. split; assumption.
Qed.

Lemma round_nearest_even_positive (m : positive) (l : location) :
  exists m', round_nearest_even (Zpos m) l = Zpos m'.
Proof.
  destruct l as [|[]]; simpl; eauto.
  destruct (Z.even (Zpos m)); eauto.
  destruct m; simpl; eauto.
  destruct m; simpl; eauto.
Qed.

Lemma binary_round_aux_nonzero (sx : bool) (m : positive) (ex : Z)
  (l : location) :
  (SpecFloat.emin p e <= ex)%Z ->
  nonzeroWithSign sx (binary_round_aux p e sx (Zpos m) ex l).
Proof.
  intro He. unfold binary_round_aux.
  destruct (shr_fexp_positive m l He) as (m1 & Hm1 & He1).
  destruct (shr_fexp p e (Zpos m) ex l) as [mrs' e']. simpl in Hm1, He1.
  rewrite Hm1.
  destruct (round_nearest_even_positive m1 (loc_of_shr_record mrs'))
    as (m2 & Hm2).
  rewrite Hm2.
  destruct (shr_fexp_positive m2 loc_Exact He1) as (m3 & Hm3 & He3).
  destruct (shr_fexp p e (Zpos m2) e' loc_Exact) as [mrs'' e''].
  simpl in Hm3. rewrite Hm3.
  destruct (Z.leb e'' (e - p)); reflexivity.
Qed.

Lemma binary_round_nonzero (sx : bool) (m : positive) (ex : Z) :
  (SpecFloat.emin p e <= ex)%Z ->
  nonzeroWithSign sx (binary_round p e sx m ex).
Proof.
  intro He. unfold binary_round.
  destruct (shl_align m ex (SpecFloat.fexp p e (Zpos (digits2_pos m) + ex)))
    as [mz ez] eqn:Hal.
  apply binary_round_aux_nonzero.
  unfold shl_align in Hal.
  destruct (SpecFloat.fexp p e (Zpos (digits2_pos m) + ex) - ex)%Z eqn:Hd;
    injection Hal as <- <-; try assumption.
  apply fexp_ge_emin.
Qed.

End Rounding.

(** The exponent of a number is not below [emin]. *)
Lemma valid_exponent (x : float) (s : bool) (m : positive) (e : Z) :
  Prim2SF x = S754_finite s m e -> (SpecFloat.emin prec emax <= e)%Z.
Proof.
  intro Hx. pose proof (Prim2SF_valid x) as Hv. rewrite Hx in Hv.
  simpl in Hv. unfold bounded, canonical_mantissa in Hv.
  apply andb_true_iff in Hv. destruct Hv as [Hc _].
  apply Z.eqb_eq in Hc. rewrite <- Hc. apply fexp_ge_emin.
Qed.

Lemma Prim2SF_zero_eqb (x : float) (s : bool) :
  Prim2SF x = S754_zero s -> PrimFloat.eqb x 0 = true.
Proof.
  intro Hx. rewrite FloatAxioms.eqb_spec, Hx. reflexivity.
Qed.

Lemma SFadd_zero (x y : float) (s : bool) :
  signClear x -> signClear y ->
  SF64add (Prim2SF x) (Prim2SF y) = S754_zero s ->
  (exists sx, Prim2SF x = S754_zero sx)
  /\ (exists sy, Prim2SF y = S754_zero sy).
Proof.
  unfold signClear, signIs, SF64add, SFadd.
  destruct (Prim2SF x) as [sx|sx| |sx mx ex] eqn:Hx,
    (Prim2SF y) as [sy|sy| |sy my ey] eqn:Hy;
    intros Hsx Hsy; try subst sx; try subst sy; simpl; intro Hz;
    try discriminate Hz; try (split; eexists; reflexivity).
  exfalso.
  pose proof (valid_exponent x Hx) as Hex.
  pose proof (valid_exponent y Hy) as Hey.
  match type of Hz with
  | binary_round _ _ _ ?m ?e = _ =>
      pose proof (@binary_round_nonzero prec emax eq_refl false m e) as Hnz
  end.
  rewrite Hz in Hnz. apply Hnz. lia.
Qed.

Lemma add_signClear (x y : float) :
  signClear x -> signClear y -> signClear (x + y)%float.
Proof.
  unfold signClear, signIs. rewrite FloatAxioms.add_spec.
  unfold SF64add, SFadd.
  destruct (Prim2SF x) as [sx|sx| |sx mx ex],
    (Prim2SF y) as [sy|sy| |sy my ey];
    intros Hsx Hsy; try subst sx; try subst sy; simpl; trivial.
  unfold binary_round.
  match goal with
  | |- context [shl_align ?a ?b ?c] => destruct (shl_align a b c) as [mz ez]
  end.
  exact (binary_round_aux_sign prec emax false _ _ _).
Qed.

(** A sum of two numbers that are not negative is zero only when both
    are. *)
Lemma add_zero (x y : float) :
  signClear x -> signClear y -> PrimFloat.eqb (x + y) 0 = true ->
  PrimFloat.eqb x 0 = true /\ PrimFloat.eqb y 0 = true.
Proof.
  intros Hx Hy Hz. apply Prim2SF_zero_of in Hz.
  destruct Hz as [s Hz]. rewrite FloatAxioms.add_spec in Hz.
  destruct (SFadd_zero x y Hx Hy Hz) as [[sx Hsx] [sy Hsy]].
  split; eapply Prim2SF_zero_eqb; eassumption.
Qed.

Lemma abs_signClear (x : float) : signClear (PrimFloat.abs x).
Proof.
  unfold signClear, signIs. rewrite FloatAxioms.abs_spec.
  destruct (Prim2SF x); simpl; trivial.
Qed.

Lemma abs_zero_inv (x : float) :
  PrimFloat.eqb (PrimFloat.abs x) 0 = true -> PrimFloat.eqb x 0 = true.
Proof.
  rewrite !FloatAxioms.eqb_spec, FloatAxioms.abs_spec.
  change (Prim2SF 0%float) with (S754_zero false).
  destruct (Prim2SF x) as [s|s| |s m e]; simpl; trivial;
    destruct s; trivial.
Qed.

End FloatFacts.

#[export] Instance float_NumberLaws : NumberLaws float.
Proof.
  split.
  - exact FloatFacts.sameValueZero_float_refl.
  - exact FloatFacts.leb_float_trans.
Qed.

(** ** Facts of real arithmetic *)

Module RealFacts.

Lemma eqb_true_iff (x y : R) : RealNumber.eqb x y = true <-> x = y.
Proof.
  unfold RealNumber.eqb. destruct (Req_dec_T x y); split; intro;
    congruence.
Qed.

Lemma eqb_false_iff (x y : R) : RealNumber.eqb x y = false <-> x <> y.
Proof.
  unfold RealNumber.eqb. destruct (Req_dec_T x y); split; intro;
    congruence.
Qed.

Lemma ltb_true_iff (x y : R) : RealNumber.ltb x y = true <-> (x < y)%R.
Proof.
  unfold RealNumber.ltb. destruct (Rlt_dec x y); split; intro;
    try assumption; try reflexivity; try discriminate; contradiction.
Qed.

Lemma ltb_false_iff (x y : R) : RealNumber.ltb x y = false <-> (y <= x)%R.
Proof.
  unfold RealNumber.ltb. destruct (Rlt_dec x y); split; intro;
    try reflexivity; try discriminate; lra.
Qed.

Lemma leb_true_iff (x y : R) : RealNumber.leb x y = true <-> (x <= y)%R.
Proof.
  unfold RealNumber.leb. destruct (Rle_dec x y); split; intro;
    try assumption; try reflexivity; try discriminate; contradiction.
Qed.

End RealFacts.

#[export] Instance R_NumberLaws : NumberLaws R.
Proof.
  split.
  - intro x. apply RealFacts.eqb_true_iff. reflexivity.
  - intros x y z Hxy Hyz. apply RealFacts.leb_true_iff.
    apply RealFacts.leb_true_iff in Hxy, Hyz. simpl in *. lra.
Qed.

(* ------------------------------------------------------------------ *)
(** ** Arrays *)

Section ArrayFacts.

Context {A num : Type} `{Number num}.

Variable compareFn : A -> A -> num.

Lemma sort_insert_perm (x : A) (l : list A) :
  Permutation (sort_insert compareFn x l) (x :: l).
Proof.
  induction l as [|y l IH]; simpl.
  - apply Permutation_refl.
  - destruct (ltb (of_Z 0) (compareFn x y)).
    + apply perm_trans with (y :: x :: l).
      * apply perm_skip, IH.
      * apply perm_swap.
    + apply Permutation_refl.
Qed.

Lemma Array_sort_perm (l : list A) : Permutation (Array_sort compareFn l) l.
Proof.
  induction l as [|x l IH]; simpl.
  - apply perm_nil.
  - apply perm_trans with (x :: Array_sort compareFn l).
    + apply sort_insert_perm.
    + apply perm_skip, IH.
Qed.

Lemma Array_sort_In (x : A) (l : list A) :
  In x (Array_sort compareFn l) <-> In x l.
Proof.
  split; apply Permutation_in.
  - apply Array_sort_perm.
  - apply Permutation_sym, Array_sort_perm.
Qed.

Lemma Array_sort_Forall (P : A -> Prop) (l : list A) :
  Forall P l -> Forall P (Array_sort compareFn l).
Proof.
  intro Hl. rewrite Forall_forall in *. intros x Hx.
  apply Hl, Array_sort_In, Hx.
Qed.

Lemma Array_slice0_length_mono (l1 l2 : list A) (end_ : Z) :
  (List.length l2 <= List.length l1)%nat ->
  (List.length (Array_slice0 l2 end_) <= List.length (Array_slice0 l1 end_))%nat.
Proof.
  intro Hle. unfold Array_slice0.
  destruct (end_ <? 0)%Z; rewrite !length_firstn; lia.
Qed.

End ArrayFacts.

Lemma Array_mapi_length {A B : Type} (f : A -> nat -> B) (l : list A) :
  forall i, List.length (Array_mapi f i l) = List.length l.
Proof.
  induction l as [|x l IH]; intro i; simpl.
  - reflexivity.
  - rewrite IH. reflexivity.
Qed.

(* ------------------------------------------------------------------ *)
(** ** aggregateByStrike: what every bucket satisfies *)

Section AggregateInvariant.

Context {num : Type} `{NumberLaws num} `{Transcendental num}.

Variable this : GammaCalculator num.

Lemma accumulate_netIsSum (exposure : Exposure num)
  (strikeData : StrikeData num) :
  netIsSum (accumulate exposure strikeData).
Proof. unfold netIsSum, accumulate. simpl. reflexivity. Qed.

Lemma Map_modify_Forall (P : StrikeData num -> Prop)
  (f : StrikeData num -> StrikeData num) (key : num) (m : StrikeMap num) :
  (forall v, P (f v)) ->
  Forall (fun e => P (snd e)) m ->
  Forall (fun e => P (snd e)) (Map_modify m key f).
Proof.
  intros Hf Hm. induction Hm as [|[k v] m Hv Hm IH]; simpl.
  - constructor.
  - destruct (sameValueZero k key); constructor; simpl;
      try apply Hf; assumption.
Qed.

(** After [set] on a key the map does not have, [get] returns the new
    object. *)
Lemma Map_modify_set_new (f : StrikeData num -> StrikeData num) (key : num)
  (v0 : StrikeData num) (m : StrikeMap num) :
  Map_has m key = false ->
  Map_modify (Map_set_new m key v0) key f = m ++ [(key, f v0)].
Proof.
  unfold Map_set_new, Map_has. induction m as [|[k v] m IH]; simpl; intro Hm.
  - rewrite sameValueZero_refl. reflexivity.
  - apply orb_false_iff in Hm. destruct Hm as [Hk Hm].
    rewrite Hk, (IH Hm). reflexivity.
Qed.

Lemma aggregateStep_Forall (P : StrikeData num -> Prop) (spotPrice : num)
  (m : StrikeMap num) (contract : Contract num) :
  (forall exposure v, P (accumulate exposure v)) ->
  Forall (fun e => P (snd e)) m ->
  Forall (fun e => P (snd e)) (aggregateStep this spotPrice m contract).
Proof.
  intros Hf Hm. unfold aggregateStep.
  destruct (Map_has m _) eqn:Hhas; simpl.
  - apply Map_modify_Forall; auto.
  - rewrite Map_modify_set_new by assumption.
    apply Forall_app. split; [assumption|].
    constructor; [apply Hf | constructor].
Qed.

Lemma aggregateFold_Forall (P : StrikeData num -> Prop) (spotPrice : num)
  (contracts : list (Contract num)) :
  (forall exposure v, P (accumulate exposure v)) ->
  Forall P (Map_values (aggregateFold this contracts spotPrice)).
Proof.
  intro Hf. unfold Map_values. apply Forall_map.
  unfold aggregateFold.
  assert (Hgen : forall m, Forall (fun e => P (snd e)) m ->
            Forall (fun e => P (snd e))
              (fold_left (aggregateStep this spotPrice) contracts m)).
  { induction contracts as [|c l IH]; intros m Hm; simpl.
    - assumption.
    - apply IH, aggregateStep_Forall; assumption. }
  apply Hgen. constructor.
Qed.

Lemma aggregateByStrike_Forall (P : StrikeData num -> Prop) (spotPrice : num)
  (contracts : list (Contract num)) :
  (forall exposure v, P (accumulate exposure v)) ->
  Forall P (aggregateByStrike this contracts spotPrice).
Proof.
  intro Hf. unfold aggregateByStrike.
  apply Array_sort_Forall, aggregateFold_Forall, Hf.
Qed.

End AggregateInvariant.

(** In binary64, whatever the host's [Math.exp] and [Math.log]. *)
Lemma aggregateByStrike_netIsSum_binary64 (M : MathLib)
  (this : GammaCalculator float) (contracts : list (Contract float))
  (spotPrice : float) :
  Forall netIsSum
    (aggregateByStrike (T := float_Transcendental M) this contracts
       spotPrice).
Proof.
  apply aggregateByStrike_Forall. intros. apply accumulate_netIsSum.
Qed.

(** C2. Every object [aggregateByStrike] returns has
    [netGamma = callGamma + putGamma], the very sum, and so has every object
    of the map after each per-contract step of the fold (the map after the
    first [n] contracts, for every [n]): the callback assigns [netGamma] from
    the two totals each time it runs, no later pass corrects it.  This holds
    in binary64, whatever [Math.exp] and [Math.log] are, and in real
    arithmetic. *)
Theorem aggregate_net_is_call_plus_put
  (num : Type) `(NumberLaws num) `(Transcendental num)
  (this : GammaCalculator num) (contracts : list (Contract num))
  (spotPrice : num) :
  (forall n : nat,
     Forall netIsSum
       (Map_values (aggregateFold this (firstn n contracts) spotPrice)))
  /\ Forall netIsSum (aggregateByStrike this contracts spotPrice).
Proof.
  split.
  - intro n. apply aggregateFold_Forall. intros. apply accumulate_netIsSum.
  - apply aggregateByStrike_Forall. intros. apply accumulate_netIsSum.
Qed.

(** The invariant on the call and the put of scenario B, in real
    arithmetic. *)
Lemma aggregate_net_is_call_plus_put_witness :
  Forall netIsSum
    (aggregateByStrike (num := R) new_GammaCalculator
       [OrderExample.callR; OrderExample.putR] 100%R).
Proof.
  exact (proj2 (aggregate_net_is_call_plus_put R_NumberLaws R_Transcendental
                  new_GammaCalculator _ _)).
Defined.

(* ------------------------------------------------------------------ *)
(** ** getAverageIVAndDTE *)

(** C10. For a [null] (or [undefined]) and for an empty contract list,
    [getAverageIVAndDTE] returns the object with [atmIV], [overallAvgIV] and
    [avgDTE] all 0, in every state; in binary64 these are the number 0, not
    NaN. *)
Theorem getAverageIVAndDTE_no_contracts :
  (forall (num : Type) (N : Number num) (window : Window num),
     getAverageIVAndDTE window None
     = {| atmIV := of_Z 0; overallAvgIV := of_Z 0; avgDTE := of_Z 0 |}
     /\ getAverageIVAndDTE window (Some [])
        = {| atmIV := of_Z 0; overallAvgIV := of_Z 0; avgDTE := of_Z 0 |})
  /\ (of_Z 0 : float) = 0%float
  /\ PrimFloat.is_nan (of_Z 0) = false.
Proof.
  split; [intros; split; reflexivity|].
  split; reflexivity.
Qed.

(* ------------------------------------------------------------------ *)
(** ** calculateGammaEnvironment: the gamma flip level *)

Section GammaFlip.

Context {num : Type} `{Number num} `{Extended num}.

Lemma gammaFlipLoop_cons (a b : StrikeData num)
  (rest : list (StrikeData num)) :
  gammaFlipLoop (a :: b :: rest)
  = if signChange a b
    then Some (div (add (sd_strike a) (sd_strike b)) (of_Z 2))
    else gammaFlipLoop (b :: rest).
Proof. reflexivity. Qed.

Lemma noSignChangeBefore_cons (a b : StrikeData num)
  (rest : list (StrikeData num)) (i : nat) :
  signChange a b = false ->
  noSignChangeBefore (b :: rest) i ->
  noSignChangeBefore (a :: b :: rest) (S i).
Proof.
  intros Hab Hrest j current next Hj Hc Hn.
  destruct j as [|j]; simpl in Hc, Hn.
  - congruence.
  - apply (Hrest j); [lia | assumption | assumption].
Qed.

Lemma gammaFlipLoop_Some (gammaExposures : list (StrikeData num))
  (level : num) :
  gammaFlipLoop gammaExposures = Some level ->
  firstCrossingMidpoint gammaExposures level.
Proof.
  revert level. induction gammaExposures as [|a l IH]; intro level.
  - discriminate.
  - destruct l as [|b rest]; [discriminate|].
    rewrite gammaFlipLoop_cons.
    destruct (signChange a b) eqn:Hab.
    + intro Hl. injection Hl as <-.
      exists 0%nat, a, b. repeat split; try assumption.
      intros j ? ? Hj. lia.
    + intro Hl. destruct (IH level Hl) as (i & c & n & Hc & Hn & Hs & Hb & He).
      exists (S i), c, n. repeat split; try assumption.
      apply noSignChangeBefore_cons; assumption.
Qed.

Lemma gammaFlipLoop_None (gammaExposures : list (StrikeData num)) :
  gammaFlipLoop gammaExposures = None ->
  noSignChangeBefore gammaExposures (List.length gammaExposures).
Proof.
  induction gammaExposures as [|a l IH].
  - intros _ j ? ? Hj. simpl in Hj. lia.
  - destruct l as [|b rest].
    + intros _ j ? ? Hj Hc Hn. destruct j; simpl in Hn; [discriminate|].
      simpl in Hj. lia.
    + rewrite gammaFlipLoop_cons.
      destruct (signChange a b) eqn:Hab; [discriminate|].
      intro Hl. apply noSignChangeBefore_cons; [assumption|].
      apply IH, Hl.
Qed.

End GammaFlip.

(** C3. The [gammaFlipLevel] of [calculateGammaEnvironment] is found by
    scanning the aggregates in the order of the array (ascending strike, as
    [aggregateByStrike] returns them): when it is a number it is the midpoint
    [(strike_i + strike_(i+1)) / 2] of the first adjacent pair whose net
    values differ in sign (one above zero, the other below), and when it is
    null no adjacent pair differs in sign.  In binary64, for aggregates at
    strikes 100, 101, 102, 103 with net signs [+,+,-,+] it is 101.5, the
    first crossing, although 102 and 103 cross as well. *)
Theorem gammaFlipLevel_first_crossing :
  (forall (num : Type) (N : Number num) (E : Extended num)
     (gammaExposures : list (StrikeData num)) (currentPrice : num),
     match
       gammaFlipLevel (calculateGammaEnvironment gammaExposures currentPrice)
     with
     | Some level => firstCrossingMidpoint gammaExposures level
     | None =>
         noSignChangeBefore gammaExposures (List.length gammaExposures)
     end)
  /\ (forall (pow : float -> float -> float)
        (g1 g2 g3 g4 : StrikeData float) (currentPrice : float),
        sd_strike g1 = 100%float -> sd_strike g2 = 101%float ->
        sd_strike g3 = 102%float -> sd_strike g4 = 103%float ->
        PrimFloat.ltb 0 (netGamma g1) = true ->
        PrimFloat.ltb 0 (netGamma g2) = true ->
        PrimFloat.ltb (netGamma g3) 0 = true ->
        PrimFloat.ltb 0 (netGamma g4) = true ->
        gammaFlipLevel
          (calculateGammaEnvironment (E := float_Extended pow)
             [g1; g2; g3; g4] currentPrice) = Some 101.5%float
        /\ signChange g3 g4 = true).
Proof.
  split.
  - intros num N E gammaExposures currentPrice.
    change (gammaFlipLevel
              (calculateGammaEnvironment gammaExposures currentPrice))
      with (gammaFlipLoop gammaExposures).
    destruct (gammaFlipLoop gammaExposures) as [level|] eqn:Hloop.
    + apply gammaFlipLoop_Some, Hloop.
    + apply gammaFlipLoop_None, Hloop.
  - intros pow g1 g2 g3 g4 currentPrice K1 K2 K3 K4 P1 P2 N3 P4.
    change (gammaFlipLevel
              (calculateGammaEnvironment (E := float_Extended pow)
                 [g1; g2; g3; g4] currentPrice))
      with (gammaFlipLoop [g1; g2; g3; g4]).
    assert (H12 : signChange g1 g2 = false).
    { unfold signChange. simpl.
      rewrite (FloatFacts.ltb_asym P1), (FloatFacts.ltb_asym P2).
      rewrite andb_false_r. reflexivity. }
    assert (H23 : signChange g2 g3 = true).
    { unfold signChange. simpl. rewrite P2, N3. reflexivity. }
    assert (H34 : signChange g3 g4 = true).
    { unfold signChange. simpl. rewrite P4, N3. apply orb_true_r. }
    split; [|exact H34].
    rewrite !gammaFlipLoop_cons, H12, H23, K2, K3. reflexivity.
Qed.

(** Scenario E with net values 1, 2, -3 and 4. *)
Lemma gammaFlipLevel_first_crossing_witness :
  gammaFlipLevel
    (calculateGammaEnvironment
       (E := float_Extended squaring)
       [ {| sd_strike := 100%float; callGamma := (-1)%float;
            putGamma := 2%float; netGamma := 1%float; totalOI := 10%float |};
         {| sd_strike := 101%float; callGamma := (-1)%float;
            putGamma := 3%float; netGamma := 2%float; totalOI := 10%float |};
         {| sd_strike := 102%float; callGamma := (-4)%float;
            putGamma := 1%float; netGamma := (-3)%float;
            totalOI := 10%float |};
         {| sd_strike := 103%float; callGamma := (-1)%float;
            putGamma := 5%float; netGamma := 4%float; totalOI := 10%float |} ]
       102%float) = Some 101.5%float.
Proof.
  refine (proj1 (proj2 gammaFlipLevel_first_crossing _ _ _ _ _ _
                   _ _ _ _ _ _ _ _));
    reflexivity.
Defined.

(* ------------------------------------------------------------------ *)
(** ** The empty dataset *)

Lemma calculateGammaEnvironment_nil (pow : float -> float -> float)
  (currentPrice : float) :
  calculateGammaEnvironment (E := float_Extended pow) [] currentPrice
  = emptyEnvironment.
Proof.
  unfold calculateGammaEnvironment, calculateAllMetrics, sum_of, length_of,
    countIf.
  simpl. rewrite !FloatFacts.zero_div_mul_zero. reflexivity.
Qed.

(** C4, as stated, fails: nothing in the engine raises an error on an empty
    dataset.  With the spot at 450, [aggregateByStrike] returns the empty
    array for no contracts, and [calculateGammaEnvironment] returns a
    statistics object for no aggregates: environment "neutral", no flip
    level, all counts 0. *)
Lemma empty_dataset_returns_statistics :
  (forall (M : MathLib) (this : GammaCalculator float),
     aggregateByStrike (T := float_Transcendental M) this [] 450%float = [])
  /\ (forall pow : float -> float -> float,
        calculateGammaEnvironment (E := float_Extended pow) [] 450%float
        = emptyEnvironment)
  /\ environment emptyEnvironment = "neutral"%string
  /\ positiveStrikes emptyEnvironment = 0%nat
  /\ negativeStrikes emptyEnvironment = 0%nat
  /\ neutralStrikes emptyEnvironment = 0%nat.
Proof.
  split; [reflexivity|].
  split; [intro pow; apply calculateGammaEnvironment_nil|].
  repeat split.
Qed.

(** C4, amended.  For zero contracts [aggregateByStrike] returns the empty
    array, and for zero aggregates [calculateGammaEnvironment] returns, at
    every spot, the statistics object [emptyEnvironment]: environment
    "neutral", strength NaN (it is 0/0) at level "Very Weak", flip level
    null, the three strike counts 0 and the two percentages NaN.  Neither
    raises an error. *)
Theorem empty_dataset_is_classified
  (M : MathLib) (pow : float -> float -> float)
  (this : GammaCalculator float) (spotPrice : float) :
  aggregateByStrike (T := float_Transcendental M) this [] spotPrice = []
  /\ calculateGammaEnvironment (E := float_Extended pow) [] spotPrice
     = emptyEnvironment
  /\ calculateGammaEnvironment (E := float_Extended pow)
       (aggregateByStrike (T := float_Transcendental M) this [] spotPrice)
       spotPrice
     = emptyEnvironment.
Proof.
  split; [reflexivity|].
  split; apply calculateGammaEnvironment_nil.
Qed.

(* ------------------------------------------------------------------ *)
(** ** calculateAllMetrics: the degenerate divisions *)

Section DegenerateMetrics.

Variable pow : float -> float -> float.

Local Abbreviation metricsOf :=
  (calculateAllMetrics (E := float_Extended pow)).

Lemma callPutGammaRatio_eq (gammaExposures : list (StrikeData float)) :
  callPutGammaRatio (metricsOf gammaExposures)
  = PrimFloat.abs
      (totalCallGamma (metricsOf gammaExposures)
       / totalPutGamma (metricsOf gammaExposures))%float.
Proof. reflexivity. Qed.

(** With every net value a zero, the sum of the [|net|] is [+0]. *)
Lemma totalAbsGamma_zero (gammaExposures : list (StrikeData float)) :
  Forall (fun ge => PrimFloat.eqb (netGamma ge) 0 = true) gammaExposures ->
  sum_of (fun ge => Math_abs (netGamma ge)) gammaExposures = 0%float.
Proof.
  unfold sum_of. simpl.
  assert (Hgen : forall s, s = 0%float ->
            Forall (fun ge => PrimFloat.eqb (netGamma ge) 0 = true)
              gammaExposures ->
            fold_left (fun sum ge => (sum + PrimFloat.abs (netGamma ge))%float)
              gammaExposures s = 0%float).
  { induction gammaExposures as [|ge l IH]; intros s Hs Hl; simpl.
    - assumption.
    - inversion Hl as [|? ? Hge Hl']; subst.
      apply IH; [|assumption].
      rewrite (FloatFacts.abs_zero Hge). reflexivity. }
  apply Hgen. reflexivity.
Qed.

(** And the sum of the [strike * |net|] is [+0] or NaN. *)
Lemma weightedSum_zero (gammaExposures : list (StrikeData float)) :
  Forall (fun ge => PrimFloat.eqb (netGamma ge) 0 = true) gammaExposures ->
  let weighted :=
    sum_of (fun ge => mul (sd_strike ge) (Math_abs (netGamma ge)))
      gammaExposures in
  weighted = 0%float \/ weighted = PrimFloat.nan.
Proof.
  unfold sum_of. simpl.
  assert (Hgen : forall s, s = 0%float \/ s = PrimFloat.nan ->
            Forall (fun ge => PrimFloat.eqb (netGamma ge) 0 = true)
              gammaExposures ->
            let r :=
              fold_left
                (fun sum ge =>
                   (sum + sd_strike ge * PrimFloat.abs (netGamma ge))%float)
                gammaExposures s in
            r = 0%float \/ r = PrimFloat.nan).
  { induction gammaExposures as [|ge l IH]; intros s Hs Hl; simpl.
    - assumption.
    - inversion Hl as [|? ? Hge Hl']; subst.
      apply IH; [|assumption].
      rewrite (FloatFacts.abs_zero Hge). apply FloatFacts.add_mul_zero, Hs. }
  apply Hgen. left. reflexivity.
Qed.

(** The sum of the [|net|] is zero only when every net value is. *)
Lemma totalAbsGamma_zero_inv (gammaExposures : list (StrikeData float)) :
  PrimFloat.eqb (sum_of (fun ge => Math_abs (netGamma ge)) gammaExposures) 0
  = true ->
  Forall (fun ge => PrimFloat.eqb (netGamma ge) 0 = true) gammaExposures.
Proof.
  unfold sum_of. simpl.
  assert (Hgen : forall s, signClear s ->
            PrimFloat.eqb
              (fold_left
                 (fun sum ge => (sum + PrimFloat.abs (netGamma ge))%float)
                 gammaExposures s) 0 = true ->
            Forall (fun ge => PrimFloat.eqb (netGamma ge) 0 = true)
              gammaExposures).
  { induction gammaExposures as [|ge l IH]; intros s Hs Hz; simpl in *.
    - constructor.
    - assert (Hsum : signClear (s + PrimFloat.abs (netGamma ge))%float)
        by (apply FloatFacts.add_signClear;
            [assumption | apply FloatFacts.abs_signClear]).
      constructor; [|exact (IH _ Hsum Hz)].
      assert (Hz' : PrimFloat.eqb (s + PrimFloat.abs (netGamma ge)) 0 = true).
      { clear IH. revert Hsum Hz.
        generalize (s + PrimFloat.abs (netGamma ge))%float.
        induction l as [|ge' l IHl]; intros s' Hs' Hz'; simpl in *.
        - assumption.
        - assert (Hs'' : signClear (s' + PrimFloat.abs (netGamma ge'))%float)
            by (apply FloatFacts.add_signClear;
                [assumption | apply FloatFacts.abs_signClear]).
          specialize (IHl _ Hs'' Hz').
          apply (FloatFacts.add_zero Hs' (FloatFacts.abs_signClear _) IHl). }
      apply FloatFacts.abs_zero_inv.
      apply (FloatFacts.add_zero Hs (FloatFacts.abs_signClear _) Hz'). }
  apply Hgen. vm_compute. reflexivity.
Qed.

Lemma gammaWeightedAvgStrike_nan (gammaExposures : list (StrikeData float)) :
  Forall (fun ge => PrimFloat.eqb (netGamma ge) 0 = true) gammaExposures ->
  gammaWeightedAvgStrike (metricsOf gammaExposures) = PrimFloat.nan.
Proof.
  intro Hl.
  change (gammaWeightedAvgStrike (metricsOf gammaExposures))
    with (sum_of (fun ge => mul (sd_strike ge) (Math_abs (netGamma ge)))
            gammaExposures
          / sum_of (fun ge => Math_abs (netGamma ge)) gammaExposures)%float.
  rewrite (totalAbsGamma_zero Hl).
  destruct (weightedSum_zero Hl) as [Hw|Hw]; rewrite Hw; reflexivity.
Qed.

End DegenerateMetrics.

(** C6, as stated, fails in its first part: with [totalPutGamma] zero the
    ratio is [|totalCallGamma / 0|], which is NaN, not [Infinity], when
    [totalCallGamma] is zero too.  So it is for no aggregates and for one
    aggregate without exposure. *)
Lemma callPutGammaRatio_zero_by_zero :
  (forall pow : float -> float -> float,
     totalPutGamma (calculateAllMetrics (E := float_Extended pow) [])
     = 0%float
     /\ callPutGammaRatio (calculateAllMetrics (E := float_Extended pow) [])
        = PrimFloat.nan)
  /\ (forall pow : float -> float -> float,
        totalPutGamma
          (calculateAllMetrics (E := float_Extended pow) [FlatExample.flat])
        = 0%float
        /\ callPutGammaRatio
             (calculateAllMetrics (E := float_Extended pow)
                [FlatExample.flat])
           = PrimFloat.nan)
  /\ PrimFloat.eqb PrimFloat.nan PrimFloat.infinity = false.
Proof.
  repeat split.
Qed.

(** C6, amended.  [calculateAllMetrics] raises no error on degenerate
    totals.  When [totalPutGamma] is zero, [callPutGammaRatio] is [Infinity]
    if [totalCallGamma] is a number other than zero, and NaN if
    [totalCallGamma] is zero or NaN.  When the total of [|net|] is zero,
    [gammaWeightedAvgStrike] is NaN, not 0. *)
Theorem degenerate_metrics_are_infinity_or_nan
  (pow : float -> float -> float)
  (gammaExposures : list (StrikeData float)) :
  let metrics := calculateAllMetrics (E := float_Extended pow)
                   gammaExposures in
  let totalAbsGamma :=
    sum_of (fun ge => Math_abs (netGamma ge)) gammaExposures in
  (PrimFloat.eqb (totalPutGamma metrics) 0 = true ->
   (PrimFloat.eqb (totalCallGamma metrics) 0 = false ->
    PrimFloat.is_nan (totalCallGamma metrics) = false ->
    callPutGammaRatio metrics = PrimFloat.infinity)
   /\ (PrimFloat.eqb (totalCallGamma metrics) 0 = true ->
       callPutGammaRatio metrics = PrimFloat.nan)
   /\ (PrimFloat.is_nan (totalCallGamma metrics) = true ->
       callPutGammaRatio metrics = PrimFloat.nan))
  /\ (PrimFloat.eqb totalAbsGamma 0 = true ->
      gammaWeightedAvgStrike metrics = PrimFloat.nan).
Proof.
  intros metrics totalAbsGamma. split.
  - intro Hput. unfold metrics. rewrite callPutGammaRatio_eq.
    fold metrics. repeat split.
    + intros Hcall Hnan. apply FloatFacts.abs_div_zero_infinity; assumption.
    + intro Hcall. apply FloatFacts.abs_div_zero_nan; assumption.
    + intro Hnan. apply FloatFacts.abs_div_nan; assumption.
  - intro Habs. apply gammaWeightedAvgStrike_nan.
    apply totalAbsGamma_zero_inv, Habs.
Qed.

(** One aggregate with call exposure -5 and no put exposure: the ratio is
    [Infinity]. *)
Lemma degenerate_metrics_are_infinity_or_nan_witness :
  callPutGammaRatio
    (calculateAllMetrics (E := float_Extended squaring)
       [ {| sd_strike := 100%float; callGamma := (-5)%float;
            putGamma := 0%float; netGamma := (-5)%float;
            totalOI := 10%float |} ])
  = PrimFloat.infinity.
Proof.
  refine (proj1 (proj1 (degenerate_metrics_are_infinity_or_nan squaring _) _)
            _ _);
    reflexivity.
Defined.

(* ------------------------------------------------------------------ *)
(** ** calculateGamma *)

Section GammaGeneric.

Context {num : Type} `{Number num} `{Transcendental num}.

Variable this : GammaCalculator num.

Lemma calculateGamma_expired (spotPrice strike timeToExpiry volatility : num) :
  leb timeToExpiry (of_Z 0) = true ->
  calculateGamma this spotPrice strike timeToExpiry volatility = of_Z 0.
Proof. intro Ht. unfold calculateGamma. rewrite Ht. reflexivity. Qed.

(** The [gamma] of [calculateGammaExposure] does not read [optionType]. *)
Lemma calculateGammaExposure_gamma (c1 c2 : Contract num) (spotPrice : num) :
  strike c1 = strike c2 ->
  daysToExpiry c1 = daysToExpiry c2 ->
  impliedVolatility c1 = impliedVolatility c2 ->
  gamma (calculateGammaExposure this c1 spotPrice)
  = gamma (calculateGammaExposure this c2 spotPrice).
Proof.
  intros Hk Hd Hv. unfold calculateGammaExposure. simpl.
  rewrite Hk, Hd, Hv. reflexivity.
Qed.

End GammaGeneric.

Lemma normPDF_positive (x : R) : (0 < normPDF x)%R.
Proof.
  unfold normPDF. simpl.
  apply Rdiv_lt_0_compat.
  - apply exp_pos.
  - apply sqrt_lt_R0. pose proof PI_RGT_0. lra.
Qed.

Lemma calculateGamma_positive_real (this : GammaCalculator R)
  (spotPrice strike timeToExpiry volatility : R) :
  (0 < spotPrice)%R -> (0 < volatility)%R -> (0 < timeToExpiry)%R ->
  (0 < calculateGamma this spotPrice strike timeToExpiry volatility)%R.
Proof.
  intros Hs Hv Ht. unfold calculateGamma.
  change (leb timeToExpiry (of_Z 0)) with (RealNumber.leb timeToExpiry 0%R).
  destruct (RealNumber.leb timeToExpiry 0) eqn:Hle.
  - apply RealFacts.leb_true_iff in Hle. lra.
  - cbv zeta. change div with Rdiv. change mul with Rmult.
    apply Rdiv_lt_0_compat.
    + apply normPDF_positive.
    + apply Rmult_lt_0_compat.
      * apply Rmult_lt_0_compat; assumption.
      * apply sqrt_lt_R0. exact Ht.
Qed.

(** In binary64 gamma is never below zero, when [Math.exp] returns no
    number below zero. *)
Section GammaBinary64.

Variable M : MathLib.
Variable this : GammaCalculator float.

Hypothesis exp_not_negative :
  forall x : float, PrimFloat.ltb (lib_exp M x) 0 = false.

Lemma normPDF_not_negative (x : float) :
  PrimFloat.ltb (normPDF (T := float_Transcendental M) x) 0 = false.
Proof.
  unfold normPDF. apply FloatFacts.div_not_negative.
  - apply exp_not_negative.
  - vm_compute. reflexivity.
Qed.

Lemma calculateGamma_not_negative
  (spotPrice strike timeToExpiry volatility : float) :
  PrimFloat.ltb 0 spotPrice = true ->
  PrimFloat.ltb 0 volatility = true ->
  PrimFloat.ltb 0 timeToExpiry = true ->
  PrimFloat.ltb
    (calculateGamma (T := float_Transcendental M) this spotPrice strike
       timeToExpiry volatility) 0 = false.
Proof.
  intros Hs Hv Ht. unfold calculateGamma.
  change (leb timeToExpiry (of_Z 0)) with (PrimFloat.leb timeToExpiry 0).
  rewrite (FloatFacts.positive_not_leb Ht). cbv zeta.
  apply FloatFacts.div_not_negative.
  - apply normPDF_not_negative.
  - apply FloatFacts.mul_signClear.
    + apply FloatFacts.mul_signClear; apply FloatFacts.positive_signClear;
        assumption.
    + apply FloatFacts.sqrt_signClear, FloatFacts.positive_signClear, Ht.
Qed.

End GammaBinary64.

(** In binary64 a quotient by [Infinity] is never above zero, so with
    [spot * vol * sqrt(t)] infinite, gamma is not. *)
Lemma calculateGamma_overflow (M : MathLib) (this : GammaCalculator float) :
  PrimFloat.ltb 0
    (calculateGamma (T := float_Transcendental M) this
       1e200%float 100%float 1%float 1e200%float) = false.
Proof.
  unfold calculateGamma.
  change (leb 1%float (of_Z 0)) with false. cbv iota zeta.
  change (mul (mul 1e200%float 1e200%float) (Math_sqrt 1%float))
    with PrimFloat.infinity.
  apply FloatFacts.div_infinity_not_positive.
Qed.

(** C9, as stated, fails in binary64: with spot 1e200, strike 100, one year
    to expiry and volatility 1e200, all above zero, the divisor
    [spot * vol * sqrt(t)] is [Infinity] and gamma is not above zero,
    whatever [Math.exp] and [Math.log] return. *)
Lemma calculateGamma_not_strictly_positive :
  PrimFloat.ltb 0 1e200 = true
  /\ PrimFloat.ltb 0 100 = true
  /\ PrimFloat.ltb 0 1 = true
  /\ (forall (M : MathLib) (this : GammaCalculator float),
        PrimFloat.ltb 0
          (calculateGamma (T := float_Transcendental M) this
             1e200%float 100%float 1%float 1e200%float) = false).
Proof.
  repeat split. apply calculateGamma_overflow.
Qed.

(** C9, amended.  When [timeToExpiry <= 0], [calculateGamma] returns exactly
    0, and the gamma of a contract does not depend on its being a call or a
    put: two contracts with the same strike, expiry and volatility get the
    same gamma at the same spot.  Both hold in binary64 and in real
    arithmetic.  For all spot, strike, vol and time to expiry above zero,
    gamma is strictly positive in real arithmetic; in binary64, where the
    quotient can round to 0, it is never below zero (it is zero, above zero
    or NaN), provided [Math.exp] returns no number below zero. *)
Theorem calculateGamma_properties :
  (forall (num : Type) (N : Number num) (T : Transcendental num)
     (this : GammaCalculator num)
     (spotPrice strike timeToExpiry volatility : num),
     leb timeToExpiry (of_Z 0) = true ->
     calculateGamma this spotPrice strike timeToExpiry volatility = of_Z 0)
  /\ (forall (num : Type) (N : Number num) (T : Transcendental num)
        (this : GammaCalculator num) (call put : Contract num)
        (spotPrice : num),
        optionType call = "call"%string -> optionType put = "put"%string ->
        strike call = strike put ->
        daysToExpiry call = daysToExpiry put ->
        impliedVolatility call = impliedVolatility put ->
        gamma (calculateGammaExposure this call spotPrice)
        = gamma (calculateGammaExposure this put spotPrice))
  /\ (forall (this : GammaCalculator R)
        (spotPrice strike timeToExpiry volatility : R),
        (0 < spotPrice)%R -> (0 < strike)%R -> (0 < volatility)%R ->
        (0 < timeToExpiry)%R ->
        (0 < calculateGamma this spotPrice strike timeToExpiry volatility)%R)
  /\ (forall (M : MathLib) (this : GammaCalculator float)
        (spotPrice strike timeToExpiry volatility : float),
        (forall x : float, PrimFloat.ltb (lib_exp M x) 0 = false) ->
        PrimFloat.ltb 0 spotPrice = true -> PrimFloat.ltb 0 strike = true ->
        PrimFloat.ltb 0 volatility = true ->
        PrimFloat.ltb 0 timeToExpiry = true ->
        PrimFloat.ltb
          (calculateGamma (T := float_Transcendental M) this spotPrice strike
             timeToExpiry volatility) 0 = false).
Proof.
  split; [|split; [|split]].
  - intros. apply calculateGamma_expired. assumption.
  - intros. apply calculateGammaExposure_gamma; assumption.
  - intros. apply calculateGamma_positive_real; assumption.
  - intros. apply calculateGamma_not_negative; assumption.
Qed.

(** Scenario A in real arithmetic: spot 100, strike 100, 30 days, volatility
    0.20, rate 0.05. *)
Lemma calculateGamma_properties_witness :
  (0 < calculateGamma (num := R) new_GammaCalculator 100 100 (30 / 365)
         (2 / 10))%R.
Proof.
  apply (proj1 (proj2 (proj2 calculateGamma_properties))); lra.
Defined.

(* ------------------------------------------------------------------ *)
(** ** aggregateByStrike: every contract reaches its bucket *)

Section AggregateBuckets.

Context {num : Type} `{NumberLaws num} `{Transcendental num}.

Variable this : GammaCalculator num.
Variable spotPrice : num.

Lemma Map_has_get (m : StrikeMap num) (key : num) :
  Map_has m key = false <-> Map_get m key = None.
Proof.
  unfold Map_has. induction m as [|[k v] m IH]; simpl.
  - tauto.
  - destruct (sameValueZero k key); simpl.
    + split; discriminate.
    + exact IH.
Qed.

Lemma Map_get_modify_same (m : StrikeMap num) (key : num)
  (f : StrikeData num -> StrikeData num) :
  Map_get (Map_modify m key f) key = option_map f (Map_get m key).
Proof.
  induction m as [|[k v] m IH]; simpl.
  - reflexivity.
  - destruct (sameValueZero k key) eqn:Hk; simpl; rewrite Hk.
    + reflexivity.
    + exact IH.
Qed.

Lemma Map_get_set_new (m : StrikeMap num) (key : num) (v : StrikeData num) :
  Map_get m key = None ->
  Map_get (Map_set_new m key v) key = Some v.
Proof.
  unfold Map_set_new. induction m as [|[k w] m IH]; simpl.
  - intros _. rewrite sameValueZero_refl. reflexivity.
  - destruct (sameValueZero k key); [discriminate | exact IH].
Qed.

(** One step of the fold, seen from the contract's strike: the contract is
    accumulated into the object of its strike, a fresh one when the map has
    none.  No field of the contract is tested. *)
Lemma aggregateStep_get (m : StrikeMap num) (contract : Contract num) :
  Map_get (aggregateStep this spotPrice m contract) (strike contract)
  = Some (accumulate (calculateGammaExposure this contract spotPrice)
            (match Map_get m (strike contract) with
             | Some strikeData => strikeData
             | None => freshStrikeData (strike contract)
             end)).
Proof.
  unfold aggregateStep. simpl exp_strike.
  rewrite Map_get_modify_same.
  destruct (Map_has m (strike contract)) eqn:Hhas; simpl.
  - destruct (Map_get m (strike contract)) eqn:Hget; [reflexivity|].
    apply Map_has_get in Hget. congruence.
  - apply Map_has_get in Hhas.
    rewrite Map_get_set_new by exact Hhas. rewrite Hhas. reflexivity.
Qed.

Lemma Map_modify_keys (m : StrikeMap num) (key : num)
  (f : StrikeData num -> StrikeData num) :
  map fst (Map_modify m key f) = map fst m.
Proof.
  induction m as [|[k v] m IH]; simpl.
  - reflexivity.
  - destruct (sameValueZero k key); simpl; [reflexivity|].
    rewrite IH. reflexivity.
Qed.

Lemma Map_has_keys (m1 m2 : StrikeMap num) (key : num) :
  map fst m1 = map fst m2 -> Map_has m1 key = Map_has m2 key.
Proof.
  unfold Map_has. revert m2.
  induction m1 as [|[k v] m1 IH]; intros [|[k' v'] m2] Hk;
    simpl in *; try discriminate; [reflexivity|].
  injection Hk as -> Hk. rewrite (IH _ Hk). reflexivity.
Qed.

Lemma Map_has_app (m1 m2 : StrikeMap num) (key : num) :
  Map_has (m1 ++ m2) key = Map_has m1 key || Map_has m2 key.
Proof. unfold Map_has. apply existsb_app. Qed.

(** A step keeps the keys of the map and has the key of its contract. *)
Lemma aggregateStep_has (m : StrikeMap num) (contract : Contract num)
  (key : num) :
  Map_has (aggregateStep this spotPrice m contract) key
  = Map_has m key
    || negb (Map_has m (strike contract))
       && sameValueZero (strike contract) key.
Proof.
  unfold aggregateStep. simpl exp_strike.
  rewrite (Map_has_keys _ _ key (Map_modify_keys _ _ _)).
  destruct (Map_has m (strike contract)); simpl.
  - rewrite orb_false_r. reflexivity.
  - unfold Map_set_new. rewrite Map_has_app. simpl.
    rewrite orb_false_r. reflexivity.
Qed.

Lemma aggregateStep_has_own (m : StrikeMap num) (contract : Contract num) :
  Map_has (aggregateStep this spotPrice m contract) (strike contract) = true.
Proof.
  rewrite aggregateStep_has, sameValueZero_refl.
  destruct (Map_has m (strike contract)); reflexivity.
Qed.

Lemma aggregateFold_has (contracts : list (Contract num)) :
  forall (m : StrikeMap num) (key : num),
    Map_has m key = true
    \/ (exists c, In c contracts /\ strike c = key) ->
    Map_has (fold_left (aggregateStep this spotPrice) contracts m) key = true.
Proof.
  induction contracts as [|c l IH]; intros m key Hk; simpl.
  - destruct Hk as [Hk|(c & [] & _)]. exact Hk.
  - apply IH. destruct Hk as [Hk|(c' & [->|Hin] & Hc')].
    + left. rewrite aggregateStep_has, Hk. reflexivity.
    + left. subst key. apply aggregateStep_has_own.
    + right. exists c'. split; assumption.
Qed.

Lemma Map_modify_keyIsStrike (m : StrikeMap num) (key : num)
  (exposure : Exposure num) :
  Forall keyIsStrike m ->
  Forall keyIsStrike (Map_modify m key (accumulate exposure)).
Proof.
  intro Hm. induction Hm as [|[k v] m Hv Hm IH]; simpl.
  - constructor.
  - destruct (sameValueZero k key); constructor; assumption.
Qed.

Lemma aggregateStep_keyIsStrike (m : StrikeMap num)
  (contract : Contract num) :
  Forall keyIsStrike m ->
  Forall keyIsStrike (aggregateStep this spotPrice m contract).
Proof.
  intro Hm. unfold aggregateStep. apply Map_modify_keyIsStrike.
  destruct (Map_has m _); simpl; [assumption|].
  apply Forall_app. split; [assumption|].
  constructor; [reflexivity | constructor].
Qed.

Lemma aggregateFold_keyIsStrike (contracts : list (Contract num)) :
  forall m : StrikeMap num,
    Forall keyIsStrike m ->
    Forall keyIsStrike (fold_left (aggregateStep this spotPrice) contracts m).
Proof.
  induction contracts as [|c l IH]; intros m Hm; simpl.
  - assumption.
  - apply IH, aggregateStep_keyIsStrike, Hm.
Qed.

Lemma aggregateByStrike_has_bucket (contracts : list (Contract num))
  (contract : Contract num) :
  In contract contracts ->
  exists strikeData,
    In strikeData (aggregateByStrike this contracts spotPrice)
    /\ sameValueZero (sd_strike strikeData) (strike contract) = true.
Proof.
  intro Hin.
  assert (Hhas : Map_has (aggregateFold this contracts spotPrice)
                   (strike contract) = true).
  { apply aggregateFold_has. right. exists contract. split; auto. }
  apply existsb_exists in Hhas. destruct Hhas as ([k v] & He & Hk).
  assert (Hkey : keyIsStrike (k, v)).
  { pose proof (aggregateFold_keyIsStrike contracts (m := [])
                  (Forall_nil _)) as Hall.
    rewrite Forall_forall in Hall. apply Hall, He. }
  exists v. split.
  - unfold aggregateByStrike. apply Array_sort_In.
    unfold Map_values. apply in_map_iff. exists (k, v). split; auto.
  - unfold keyIsStrike in Hkey. simpl in Hkey, Hk. rewrite <- Hkey. exact Hk.
Qed.

End AggregateBuckets.

(** C5, as stated, fails: [aggregateByStrike] tests no field of a contract.
    Next to a valid put at strike 100 with open interest 1000, a contract
    with open interest -5 at the same strike brings the bucket's [totalOI] to
    995; a contract with strike -100 gets a bucket of its own, at -100; and a
    contract with volatility 0, or NaN, and open interest 7 brings [totalOI]
    to 1007.  The valid contract alone gives 1000. *)
Lemma aggregateByStrike_keeps_invalid_contracts :
  (forall (M : MathLib) (this : GammaCalculator float),
     map totalOI
       (aggregateByStrike (T := float_Transcendental M) this
          [InvalidExample.valid] 450%float) = [1000%float])
  /\ (forall (M : MathLib) (this : GammaCalculator float),
        map totalOI
          (aggregateByStrike (T := float_Transcendental M) this
             [InvalidExample.valid; InvalidExample.negativeOpenInterest]
             450%float) = [995%float])
  /\ (forall (M : MathLib) (this : GammaCalculator float),
        map sd_strike
          (aggregateByStrike (T := float_Transcendental M) this
             [InvalidExample.valid; InvalidExample.nonPositiveStrike]
             450%float) = [(-100)%float; 100%float])
  /\ (forall (M : MathLib) (this : GammaCalculator float),
        map totalOI
          (aggregateByStrike (T := float_Transcendental M) this
             [InvalidExample.valid; InvalidExample.zeroVolatility]
             450%float) = [1007%float])
  /\ (forall (M : MathLib) (this : GammaCalculator float),
        map totalOI
          (aggregateByStrike (T := float_Transcendental M) this
             [InvalidExample.valid; InvalidExample.nanVolatility]
             450%float) = [1007%float]).
Proof.
  repeat split; intros M this; vm_compute; reflexivity.
Qed.

(** C5, amended.  [aggregateByStrike] validates nothing and never aborts:
    each step of the fold accumulates its contract, valid or not, into the
    object of the contract's strike (a fresh one when the strike is new), and
    every contract of the batch has a bucket at its strike in the result.
    This holds in binary64 and in real arithmetic. *)
Theorem aggregateByStrike_folds_every_contract
  (num : Type) `(NumberLaws num) `(Transcendental num)
  (this : GammaCalculator num) (spotPrice : num) :
  (forall (strikeMap : StrikeMap num) (contract : Contract num),
     Map_get (aggregateStep this spotPrice strikeMap contract)
       (strike contract)
     = Some (accumulate (calculateGammaExposure this contract spotPrice)
               (match Map_get strikeMap (strike contract) with
                | Some strikeData => strikeData
                | None => freshStrikeData (strike contract)
                end)))
  /\ (forall (contracts : list (Contract num)) (contract : Contract num),
        In contract contracts ->
        exists strikeData,
          In strikeData (aggregateByStrike this contracts spotPrice)
          /\ sameValueZero (sd_strike strikeData) (strike contract) = true).
Proof.
  split.
  - intros. apply aggregateStep_get.
  - intros. apply aggregateByStrike_has_bucket. assumption.
Qed.

(** The contract with open interest -5 has its bucket. *)
Lemma aggregateByStrike_folds_every_contract_witness :
  exists strikeData,
    In strikeData
      (aggregateByStrike (num := R) new_GammaCalculator
         [InvalidExample.validR; InvalidExample.negativeOpenInterestR] 450%R)
    /\ sameValueZero (sd_strike strikeData)
         (strike InvalidExample.negativeOpenInterestR) = true.
Proof.
  apply (proj2 (aggregateByStrike_folds_every_contract R_NumberLaws
                  R_Transcendental new_GammaCalculator 450%R)).
  right. left. reflexivity.
Defined.

(* ------------------------------------------------------------------ *)
(** ** findCallWalls and findPutWalls: the significance threshold *)

Lemma filter_length_mono {A : Type} (p q : A -> bool) (l : list A) :
  (forall x, q x = true -> p x = true) ->
  (List.length (filter q l) <= List.length (filter p l))%nat.
Proof.
  intro Hqp. induction l as [|x l IH]; simpl.
  - lia.
  - destruct (q x) eqn:Hq.
    + rewrite (Hqp x Hq). simpl. lia.
    + destruct (p x); simpl; lia.
Qed.

Section WallThreshold.

Context {num : Type} `{NumberLaws num}.

Lemma findCallWalls_length (this : WallAnalyzer num)
  (gammaExposures : list (StrikeData num)) (currentPrice : num)
  (maxWalls : Z) :
  List.length (findCallWalls this gammaExposures currentPrice maxWalls)
  = List.length
      (Array_slice0
         (filter
            (fun c => leb (callThreshold this gammaExposures currentPrice)
                        (exposure c))
            (callCandidates gammaExposures currentPrice))
         maxWalls).
Proof.
  unfold findCallWalls, callThreshold.
  fold (callCandidates gammaExposures currentPrice).
  destruct (callCandidates gammaExposures currentPrice) as [|c l] eqn:Hc.
  - unfold Array_slice0. simpl.
    destruct (maxWalls <? 0)%Z; rewrite firstn_nil; reflexivity.
  - rewrite Array_mapi_length. reflexivity.
Qed.

Lemma findPutWalls_length (this : WallAnalyzer num)
  (gammaExposures : list (StrikeData num)) (currentPrice : num)
  (maxWalls : Z) :
  List.length (findPutWalls this gammaExposures currentPrice maxWalls)
  = List.length
      (Array_slice0
         (filter
            (fun c => leb (putThreshold this gammaExposures currentPrice)
                        (exposure c))
            (putCandidates gammaExposures currentPrice))
         maxWalls).
Proof.
  unfold findPutWalls, putThreshold.
  fold (putCandidates gammaExposures currentPrice).
  destruct (putCandidates gammaExposures currentPrice) as [|c l] eqn:Hc.
  - unfold Array_slice0. simpl.
    destruct (maxWalls <? 0)%Z; rewrite firstn_nil; reflexivity.
  - rewrite Array_mapi_length. reflexivity.
Qed.

(** Raising the cut-off keeps fewer candidates. *)
Lemma slice_filter_mono (candidates : list (Candidate num))
  (low high : num) (maxWalls : Z) :
  leb low high = true ->
  (List.length
     (Array_slice0 (filter (fun c => leb high (exposure c)) candidates)
        maxWalls)
   <= List.length
        (Array_slice0 (filter (fun c => leb low (exposure c)) candidates)
           maxWalls))%nat.
Proof.
  intro Hle. apply Array_slice0_length_mono, filter_length_mono.
  intros c Hc. exact (leb_trans _ _ _ Hle Hc).
Qed.

Lemma findCallWalls_mono (low high : WallAnalyzer num)
  (gammaExposures : list (StrikeData num)) (currentPrice : num)
  (maxWalls : Z) :
  leb (callThreshold low gammaExposures currentPrice)
    (callThreshold high gammaExposures currentPrice) = true ->
  (List.length (findCallWalls high gammaExposures currentPrice maxWalls)
   <= List.length (findCallWalls low gammaExposures currentPrice maxWalls))%nat.
Proof.
  intro Hle. rewrite !findCallWalls_length. apply slice_filter_mono, Hle.
Qed.

Lemma findPutWalls_mono (low high : WallAnalyzer num)
  (gammaExposures : list (StrikeData num)) (currentPrice : num)
  (maxWalls : Z) :
  leb (putThreshold low gammaExposures currentPrice)
    (putThreshold high gammaExposures currentPrice) = true ->
  (List.length (findPutWalls high gammaExposures currentPrice maxWalls)
   <= List.length (findPutWalls low gammaExposures currentPrice maxWalls))%nat.
Proof.
  intro Hle. rewrite !findPutWalls_length. apply slice_filter_mono, Hle.
Qed.

End WallThreshold.

(** In real arithmetic the thresholds are ordered as the significance
    levels are: the total exposure of the candidates is not negative. *)
Section WallThresholdReal.

Lemma sum_of_nonneg {A : Type} (f : A -> R) (l : list A) :
  Forall (fun x => (0 <= f x)%R) l -> (0 <= sum_of f l)%R.
Proof.
  unfold sum_of. simpl.
  assert (Hgen : forall s, (0 <= s)%R -> Forall (fun x => (0 <= f x)%R) l ->
            (0 <= fold_left (fun sum x => (sum + f x)%R) l s)%R).
  { induction l as [|x l IH]; intros s Hs Hl; simpl.
    - exact Hs.
    - inversion Hl as [|? ? Hx Hl']; subst. apply IH; [lra | assumption]. }
  apply Hgen. lra.
Qed.

Lemma callCandidates_nonneg (gammaExposures : list (StrikeData R))
  (currentPrice : R) :
  Forall (fun c => (0 <= exposure c)%R)
    (callCandidates gammaExposures currentPrice).
Proof.
  unfold callCandidates. apply Array_sort_Forall, Forall_map.
  apply Forall_forall. intros ge _. simpl. apply Rabs_pos.
Qed.

Lemma putCandidates_nonneg (gammaExposures : list (StrikeData R))
  (currentPrice : R) :
  Forall (fun c => (0 <= exposure c)%R)
    (putCandidates gammaExposures currentPrice).
Proof.
  unfold putCandidates. apply Array_sort_Forall, Forall_map.
  apply Forall_forall. intros ge Hge. simpl.
  apply filter_In in Hge. destruct Hge as [_ Hge].
  apply RealFacts.ltb_true_iff in Hge. simpl in Hge. lra.
Qed.

Lemma thresholds_ordered_real (low high : WallAnalyzer R)
  (gammaExposures : list (StrikeData R)) (currentPrice : R) :
  (minSignificanceThreshold low <= minSignificanceThreshold high)%R ->
  leb (callThreshold low gammaExposures currentPrice)
    (callThreshold high gammaExposures currentPrice) = true
  /\ leb (putThreshold low gammaExposures currentPrice)
       (putThreshold high gammaExposures currentPrice) = true.
Proof.
  intro Hle. split; apply RealFacts.leb_true_iff;
    unfold callThreshold, putThreshold; simpl;
    apply Rmult_le_compat_l; try assumption;
    apply sum_of_nonneg;
    [apply callCandidates_nonneg | apply putCandidates_nonneg].
Qed.

End WallThresholdReal.

(** C8, as stated, fails in binary64: for an aggregate whose call exposure
    is [-Infinity], the threshold at significance 0 is [Infinity * 0], NaN,
    which no candidate reaches, and the threshold at significance 1 is
    [Infinity], which the candidate reaches: no wall at 0, one wall at 1. *)
Lemma wall_count_rises_at_infinite_exposure :
  PrimFloat.leb 0 1 = true
  /\ List.length
       (findCallWalls {| minSignificanceThreshold := 0%float |}
          [WallExample.overflowed] 100%float 5%Z) = 0%nat
  /\ List.length
       (findCallWalls {| minSignificanceThreshold := 1%float |}
          [WallExample.overflowed] 100%float 5%Z) = 1%nat.
Proof.
  repeat split.
Qed.

(* ------------------------------------------------------------------ *)
(** ** aggregateByStrike in real arithmetic: the order of the contracts *)

Section AggregateOrderReal.

Variable this : GammaCalculator R.
Variable spotPrice : R.

Local Abbreviation step := (aggregateStep this spotPrice).

Lemma Map_get_modify_other (m : StrikeMap R) (key key' : R)
  (f : StrikeData R -> StrikeData R) :
  key <> key' ->
  Map_get (Map_modify m key f) key' = Map_get m key'.
Proof.
  intro Hne. induction m as [|[k v] m IH]; simpl.
  - reflexivity.
  - destruct (RealNumber.eqb k key) eqn:Hk; simpl.
    + apply RealFacts.eqb_true_iff in Hk. subst k.
      apply RealFacts.eqb_false_iff in Hne. rewrite Hne. reflexivity.
    + rewrite IH. reflexivity.
Qed.

Lemma Map_get_set_new_other (m : StrikeMap R) (key key' : R)
  (v : StrikeData R) :
  key <> key' ->
  Map_get (Map_set_new m key v) key' = Map_get m key'.
Proof.
  intro Hne. unfold Map_set_new. induction m as [|[k w] m IH]; simpl.
  - apply RealFacts.eqb_false_iff in Hne. rewrite Hne. reflexivity.
  - rewrite IH. reflexivity.
Qed.

Lemma aggregateStep_get_other (m : StrikeMap R) (contract : Contract R)
  (key : R) :
  strike contract <> key ->
  Map_get (step m contract) key = Map_get m key.
Proof.
  intro Hne. unfold aggregateStep. simpl exp_strike.
  rewrite Map_get_modify_other by assumption.
  destruct (Map_has m (strike contract)); simpl.
  - reflexivity.
  - apply Map_get_set_new_other, Hne.
Qed.

Lemma aggregateStep_sameEntries (m1 m2 : StrikeMap R) (contract : Contract R) :
  sameEntries m1 m2 -> sameEntries (step m1 contract) (step m2 contract).
Proof.
  intros Hm key. destruct (Req_dec_T (strike contract) key) as [<-|Hne].
  - rewrite !aggregateStep_get, (Hm (strike contract)). reflexivity.
  - rewrite !aggregateStep_get_other by assumption. apply Hm.
Qed.

(** Two contracts are accumulated into an object in either order with the
    same result: the sums are sums of real numbers. *)
Lemma accumulate_comm (e1 e2 : Exposure R) (strikeData : StrikeData R) :
  accumulate e1 (accumulate e2 strikeData)
  = accumulate e2 (accumulate e1 strikeData).
Proof.
  unfold accumulate. simpl.
  destruct (String.eqb (exp_optionType e1) "call"),
    (String.eqb (exp_optionType e2) "call");
    f_equal; ring.
Qed.

Lemma aggregateStep_comm (m : StrikeMap R) (a b : Contract R) :
  sameEntries (step (step m a) b) (step (step m b) a).
Proof.
  intro key.
  destruct (Req_dec_T (strike a) (strike b)) as [Hab|Hab].
  - destruct (Req_dec_T (strike b) key) as [<-|Hne].
    + rewrite aggregateStep_get. rewrite <- Hab at 1 2.
      rewrite !aggregateStep_get. rewrite Hab.
      rewrite !aggregateStep_get. rewrite <- Hab.
      rewrite accumulate_comm. reflexivity.
    + rewrite !aggregateStep_get_other; congruence.
  - destruct (Req_dec_T (strike b) key) as [<-|Hb].
    + rewrite aggregateStep_get.
      rewrite (aggregateStep_get_other (step m b) a Hab).
      rewrite aggregateStep_get.
      rewrite (aggregateStep_get_other m a Hab). reflexivity.
    + destruct (Req_dec_T (strike a) key) as [<-|Ha].
      * rewrite (aggregateStep_get_other (step m a) b Hb).
        rewrite !aggregateStep_get.
        rewrite (aggregateStep_get_other m b Hb). reflexivity.
      * rewrite !aggregateStep_get_other by assumption. reflexivity.
Qed.

Lemma fold_sameEntries (contracts : list (Contract R)) :
  forall m1 m2 : StrikeMap R,
    sameEntries m1 m2 ->
    sameEntries (fold_left step contracts m1) (fold_left step contracts m2).
Proof.
  induction contracts as [|c l IH]; intros m1 m2 Hm; simpl.
  - exact Hm.
  - apply IH, aggregateStep_sameEntries, Hm.
Qed.

Lemma fold_Permutation (l1 l2 : list (Contract R)) :
  Permutation l1 l2 ->
  forall m1 m2 : StrikeMap R,
    sameEntries m1 m2 ->
    sameEntries (fold_left step l1 m1) (fold_left step l2 m2).
Proof.
  induction 1 as [|x l1 l2 Hp IH|x y l|l1 l2 l3 Hp12 IH12 Hp23 IH23];
    intros m1 m2 Hm; simpl.
  - exact Hm.
  - apply IH, aggregateStep_sameEntries, Hm.
  - apply fold_sameEntries. intro key.
    rewrite (aggregateStep_comm m1 y x key).
    apply aggregateStep_sameEntries, aggregateStep_sameEntries, Hm.
  - intro key. rewrite (IH12 m1 m1 (fun _ => eq_refl) key).
    apply IH23, Hm.
Qed.

End AggregateOrderReal.

Section AggregateSortedReal.

Variable this : GammaCalculator R.
Variable spotPrice : R.

Local Abbreviation step := (aggregateStep this spotPrice).

Lemma Map_has_false_not_In (m : StrikeMap R) (key : R) :
  Map_has m key = false -> ~ In key (map fst m).
Proof.
  unfold Map_has. induction m as [|[k v] m IH]; simpl; intro Hm.
  - tauto.
  - apply orb_false_iff in Hm. destruct Hm as [Hk Hm].
    apply RealFacts.eqb_false_iff in Hk. intros [Heq|Hin].
    + contradiction.
    + exact (IH Hm Hin).
Qed.

Lemma aggregateStep_NoDup (m : StrikeMap R) (contract : Contract R) :
  NoDup (map fst m) -> NoDup (map fst (step m contract)).
Proof.
  intro Hm. unfold aggregateStep. simpl exp_strike.
  rewrite Map_modify_keys.
  destruct (Map_has m (strike contract)) eqn:Hhas; simpl.
  - exact Hm.
  - unfold Map_set_new. rewrite map_app. simpl.
    apply NoDup_app.
    + exact Hm.
    + constructor; [simpl; tauto | constructor].
    + intros key Hin [<-|[]].
      exact (Map_has_false_not_In _ _ Hhas Hin).
Qed.

Lemma aggregateFold_NoDup (contracts : list (Contract R)) :
  NoDup (map fst (aggregateFold this contracts spotPrice)).
Proof.
  unfold aggregateFold.
  assert (Hgen : forall m : StrikeMap R, NoDup (map fst m) ->
            NoDup (map fst (fold_left step contracts m))).
  { induction contracts as [|c l IH]; intros m Hm; simpl.
    - exact Hm.
    - apply IH, aggregateStep_NoDup, Hm. }
  apply Hgen. constructor.
Qed.

Lemma keyIsStrike_keys (m : StrikeMap R) :
  Forall keyIsStrike m -> map sd_strike (Map_values m) = map fst m.
Proof.
  unfold Map_values. induction 1 as [|[k v] m Hv Hm IH]; simpl.
  - reflexivity.
  - unfold keyIsStrike in Hv. simpl in Hv. rewrite IH, Hv. reflexivity.
Qed.

Lemma Map_get_In (m : StrikeMap R) (key : R) (v : StrikeData R) :
  Map_get m key = Some v -> In v (Map_values m).
Proof.
  unfold Map_values. induction m as [|[k w] m IH]; simpl.
  - discriminate.
  - destruct (RealNumber.eqb k key).
    + intro Hv. injection Hv as ->. left. reflexivity.
    + intro Hv. right. apply IH, Hv.
Qed.

Lemma In_Map_get (m : StrikeMap R) (v : StrikeData R) :
  Forall keyIsStrike m -> NoDup (map fst m) ->
  In v (Map_values m) -> Map_get m (sd_strike v) = Some v.
Proof.
  unfold Map_values.
  induction 1 as [|[k w] m Hw Hm IH]; simpl; intros Hnd Hin.
  - contradiction.
  - inversion Hnd as [|? ? Hk Hnd']; subst.
    unfold keyIsStrike in Hw. simpl in Hw.
    destruct Hin as [->|Hin].
    + rewrite Hw. change (RealNumber.eqb (sd_strike v) (sd_strike v))
        with (sameValueZero (sd_strike v) (sd_strike v)).
      rewrite sameValueZero_refl. reflexivity.
    + destruct (RealNumber.eqb k (sd_strike v)) eqn:Hkv.
      * exfalso. apply RealFacts.eqb_true_iff in Hkv. apply Hk.
        rewrite Hkv. rewrite <- (keyIsStrike_keys Hm).
        apply in_map, Hin.
      * apply IH; assumption.
Qed.

(** Maps with the same entries hold the same objects. *)
Lemma sameEntries_Permutation (m1 m2 : StrikeMap R) :
  Forall keyIsStrike m1 -> NoDup (map fst m1) ->
  Forall keyIsStrike m2 -> NoDup (map fst m2) ->
  sameEntries m1 m2 ->
  Permutation (Map_values m1) (Map_values m2).
Proof.
  intros Hk1 Hn1 Hk2 Hn2 Hsame.
  apply NoDup_Permutation.
  - apply (NoDup_map_inv sd_strike). rewrite keyIsStrike_keys; assumption.
  - apply (NoDup_map_inv sd_strike). rewrite keyIsStrike_keys; assumption.
  - intro v. split; intro Hin.
    + apply (Map_get_In m2 (sd_strike v)). rewrite <- Hsame.
      apply In_Map_get; assumption.
    + apply (Map_get_In m1 (sd_strike v)). rewrite Hsame.
      apply In_Map_get; assumption.
Qed.

Lemma sort_insert_sorted (x : StrikeData R) (l : list (StrikeData R)) :
  StronglySorted strikeLe l ->
  StronglySorted strikeLe (sort_insert byStrike x l).
Proof.
  induction 1 as [|y l Hl IH Hy]; simpl.
  - constructor; constructor.
  - destruct (RealNumber.ltb 0 (byStrike x y)) eqn:Hxy.
    + apply RealFacts.ltb_true_iff in Hxy. unfold byStrike in Hxy.
      simpl in Hxy.
      constructor; [exact IH|].
      apply (Permutation_Forall
               (Permutation_sym (sort_insert_perm byStrike x l))).
      constructor; [unfold strikeLe; lra | exact Hy].
    + apply RealFacts.ltb_false_iff in Hxy. unfold byStrike in Hxy.
      simpl in Hxy.
      constructor; [constructor; assumption|].
      constructor; [unfold strikeLe; lra|].
      apply Forall_forall. intros z Hz.
      rewrite Forall_forall in Hy. specialize (Hy z Hz).
      unfold strikeLe in *. lra.
Qed.

Lemma Array_sort_sorted (l : list (StrikeData R)) :
  StronglySorted strikeLe (Array_sort byStrike l).
Proof.
  induction l as [|x l IH]; simpl.
  - constructor.
  - apply sort_insert_sorted, IH.
Qed.

Lemma NoDup_map_injective {A B : Type} (f : A -> B) (l : list A) (a b : A) :
  NoDup (map f l) -> In a l -> In b l -> f a = f b -> a = b.
Proof.
  induction l as [|x l IH]; simpl; intros Hnd Ha Hb Hab.
  - contradiction.
  - inversion Hnd as [|? ? Hx Hnd']; subst.
    destruct Ha as [->|Ha], Hb as [->|Hb].
    + reflexivity.
    + exfalso. apply Hx. rewrite Hab. apply in_map, Hb.
    + exfalso. apply Hx. rewrite <- Hab. apply in_map, Ha.
    + apply IH; assumption.
Qed.

(** An array sorted by strike, with no strike twice, is the only sorted
    arrangement of its elements. *)
Lemma sorted_unique (l1 l2 : list (StrikeData R)) :
  StronglySorted strikeLe l1 -> StronglySorted strikeLe l2 ->
  NoDup (map sd_strike l1) -> Permutation l1 l2 -> l1 = l2.
Proof.
  intro Hs1. revert l2.
  induction Hs1 as [|a l1 Hs1 IH Ha]; intros l2 Hs2 Hnd Hp.
  - apply Permutation_nil in Hp. subst. reflexivity.
  - destruct l2 as [|b l2].
    + apply Permutation_sym, Permutation_nil in Hp. discriminate.
    + inversion Hs2 as [|? ? Hs2' Hb]; subst.
      assert (Hab : a = b).
      { assert (Ha2 : In a (b :: l2))
          by (apply (Permutation_in a Hp); left; reflexivity).
        assert (Hb1 : In b (a :: l1))
          by (apply (Permutation_in b (Permutation_sym Hp)); left;
              reflexivity).
        destruct Ha2 as [->|Ha2]; [reflexivity|].
        destruct Hb1 as [->|Hb1]; [reflexivity|].
        rewrite Forall_forall in Ha, Hb.
        specialize (Ha b Hb1). specialize (Hb a Ha2).
        apply (NoDup_map_injective sd_strike (a :: l1)).
        - exact Hnd.
        - left. reflexivity.
        - right. exact Hb1.
        - unfold strikeLe in *. lra. }
      subst b. f_equal. apply IH.
      * exact Hs2'.
      * simpl in Hnd. inversion Hnd. assumption.
      * apply (Permutation_cons_inv Hp).
Qed.

End AggregateSortedReal.

(** C7, as stated, fails in binary64, where addition is not associative:
    the totals of a bucket are rounded sums taken in the order of the input.
    Three calls at one strike with open interest 2^53, 1 and 1 give
    [totalOI = 2^53] in that order ([2^53 + 1] rounds back to [2^53], twice)
    and [totalOI = 2^53 + 2] with the large one last, whatever [Math.exp] and
    [Math.log] return. *)
Lemma aggregateByStrike_depends_on_order :
  Permutation OrderExample.listed OrderExample.shuffled
  /\ (forall (M : MathLib) (this : GammaCalculator float),
        map totalOI
          (aggregateByStrike (T := float_Transcendental M) this
             OrderExample.listed 450%float) = [9007199254740992%float])
  /\ (forall (M : MathLib) (this : GammaCalculator float),
        map totalOI
          (aggregateByStrike (T := float_Transcendental M) this
             OrderExample.shuffled 450%float) = [9007199254740994%float])
  /\ (forall (M : MathLib) (this : GammaCalculator float),
        aggregateByStrike (T := float_Transcendental M) this
          OrderExample.shuffled 450%float
        <> aggregateByStrike (T := float_Transcendental M) this
             OrderExample.listed 450%float).
Proof.
  split; [|split; [|split]].
  - apply (Permutation_app_comm [OrderExample.call 9007199254740992]
             [OrderExample.call 1; OrderExample.call 1]).
  - intros M this. vm_compute. reflexivity.
  - intros M this. vm_compute. reflexivity.
  - intros M this Heq.
    apply (f_equal
             (fun l => match map totalOI l with
                       | [x] => PrimFloat.eqb x 9007199254740992%float
                       | _ => false
                       end)) in Heq.
    vm_compute in Heq. discriminate Heq.
Qed.

(** C7, amended.  In exact (real) arithmetic [aggregateByStrike] is
    order-independent: every permutation of the contract list yields the
    same array of aggregates, the same objects with the same field values in
    the same order.  (In binary64 the totals are sums rounded in the order of
    the input.) *)
Theorem aggregateByStrike_order_independent
  (this : GammaCalculator R) (spotPrice : R)
  (contracts shuffled : list (Contract R)) :
  Permutation contracts shuffled ->
  aggregateByStrike this shuffled spotPrice
  = aggregateByStrike this contracts spotPrice.
Proof.
  intro Hp. unfold aggregateByStrike.
  change (fun a b : StrikeData R => sub (sd_strike a) (sd_strike b))
    with byStrike.
  assert (Hk : forall l, Forall keyIsStrike (aggregateFold this l spotPrice)).
  { intro l. unfold aggregateFold. apply aggregateFold_keyIsStrike.
    constructor. }
  assert (Hvalues :
            Permutation (Map_values (aggregateFold this shuffled spotPrice))
              (Map_values (aggregateFold this contracts spotPrice))).
  { apply sameEntries_Permutation;
      try apply Hk; try apply aggregateFold_NoDup.
    unfold aggregateFold. apply fold_Permutation.
    - apply Permutation_sym, Hp.
    - intro key. reflexivity. }
  apply sorted_unique.
  - apply Array_sort_sorted.
  - apply Array_sort_sorted.
  - apply (Permutation_NoDup
             (Permutation_map sd_strike
                (Permutation_sym (Array_sort_perm byStrike _)))).
    rewrite keyIsStrike_keys by apply Hk. apply aggregateFold_NoDup.
  - apply perm_trans
      with (Map_values (aggregateFold this shuffled spotPrice)).
    + apply Array_sort_perm.
    + apply perm_trans
        with (Map_values (aggregateFold this contracts spotPrice)).
      * exact Hvalues.
      * apply Permutation_sym, Array_sort_perm.
Qed.

(** The call and the put of scenario B, in the two orders. *)
Lemma aggregateByStrike_order_independent_witness :
  aggregateByStrike new_GammaCalculator
    [OrderExample.putR; OrderExample.callR] 100%R
  = aggregateByStrike new_GammaCalculator
      [OrderExample.callR; OrderExample.putR] 100%R.
Proof.
  apply aggregateByStrike_order_independent. apply perm_swap.
Defined.

(* ------------------------------------------------------------------ *)
(** * Further properties of the engine, the parser and the generator *)

(* ------------------------------------------------------------------ *)
(** ** Binary64: the order of the numbers and the sign of a difference *)

Module FloatOrder.

Lemma SFcompare_antisym (x y : spec_float) :
  SFcompare y x = option_map CompOpp (SFcompare x y).
Proof.
  unfold SFcompare.
  destruct x as [sx|sx| |sx mx ex], y as [sy|sy| |sy my ey];
    repeat match goal with s : bool |- _ => destruct s end;
    try reflexivity;
    change (Pos.compare_cont Eq) with Pos.compare;
    rewrite (Z.compare_antisym ex ey);
    destruct (Z.compare ex ey); simpl; try reflexivity;
    rewrite (Pos.compare_antisym mx my);
    destruct (Pos.compare mx my); reflexivity.
Qed.

Lemma ltb_false_leb (x y : float) :
  PrimFloat.ltb x y = false -> PrimFloat.is_nan x = false ->
  PrimFloat.is_nan y = false -> PrimFloat.leb y x = true.
Proof.
  unfold PrimFloat.is_nan.
  rewrite FloatAxioms.ltb_spec, FloatAxioms.leb_spec, !FloatAxioms.eqb_spec.
  unfold SFltb, SFleb, SFeqb. rewrite (SFcompare_antisym (Prim2SF x) (Prim2SF y)).
  destruct (Prim2SF x) as [sx|sx| |sx mx ex] eqn:Hx,
           (Prim2SF y) as [sy|sy| |sy my ey] eqn:Hy;
  try (simpl; discriminate);
  try (simpl; repeat match goal with s : bool |- _ => destruct s end; simpl; congruence).
  intros H _ _.
  assert (Hc : exists c, SFcompare (S754_finite sx mx ex) (S754_finite sy my ey) = Some c).
  { unfold SFcompare.
    repeat match goal with s : bool |- _ => destruct s end; eauto;
      destruct (Z.compare _ _); eauto. }
  destruct Hc as [c Hc]. rewrite Hc in *. destruct c; simpl; congruence.
Qed.

Lemma ltb_true_leb (x y : float) :
  PrimFloat.ltb x y = true -> PrimFloat.leb x y = true.
Proof.
  rewrite FloatAxioms.ltb_spec, FloatAxioms.leb_spec. unfold SFltb, SFleb.
  destruct (SFcompare (Prim2SF x) (Prim2SF y)) as [[]|]; congruence.
Qed.

Lemma ltb_not_nan (x y : float) :
  PrimFloat.ltb x y = true ->
  PrimFloat.is_nan x = false /\ PrimFloat.is_nan y = false.
Proof.
  unfold PrimFloat.is_nan.
  rewrite FloatAxioms.ltb_spec, !FloatAxioms.eqb_spec.
  unfold SFltb, SFeqb, SFcompare.
  destruct (Prim2SF x) as [sx|sx| |sx mx ex],
           (Prim2SF y) as [sy|sy| |sy my ey];
  repeat match goal with s : bool |- _ => destruct s end;
  try discriminate; intros _;
  rewrite ?Z.compare_refl;
  change (Pos.compare_cont Eq) with Pos.compare;
  rewrite ?Pos.compare_refl; split; reflexivity.
Qed.

Lemma iter_xO (d : positive) :
  forall m : positive, Zpos (Pos.iter xO m d) = (Zpos m * 2 ^ Zpos d)%Z.
Proof.
  induction d as [|d IH] using Pos.peano_ind; intro m.
  - simpl. lia.
  - rewrite Pos.iter_succ, Pos2Z.inj_succ, Z.pow_succ_r by lia.
    rewrite Pos2Z.inj_xO, IH. lia.
Qed.

Lemma shl_align_value (m : positive) (e e' : Z) :
  (e' <= e)%Z ->
  Zpos (fst (shl_align m e e')) = (Zpos m * 2 ^ (e - e'))%Z.
Proof.
  intro Hle. unfold shl_align.
  destruct (e' - e)%Z as [|d|d] eqn:Hd; simpl.
  - replace (e - e')%Z with 0%Z by lia. simpl. lia.
  - lia.
  - rewrite iter_xO. replace (e - e')%Z with (Zpos d) by lia. reflexivity.
Qed.

Lemma digits2_pos_bounds (m : positive) :
  (2 ^ (Zpos (digits2_pos m) - 1) <= Zpos m < 2 ^ Zpos (digits2_pos m))%Z.
Proof.
  induction m as [m IH|m IH|]; simpl digits2_pos.
  - rewrite Pos2Z.inj_succ.
    replace (Z.succ (Zpos (digits2_pos m)) - 1)%Z
      with (Z.succ (Zpos (digits2_pos m) - 1)) by lia.
    rewrite !Z.pow_succ_r by lia. lia.
  - rewrite Pos2Z.inj_succ.
    replace (Z.succ (Zpos (digits2_pos m)) - 1)%Z
      with (Z.succ (Zpos (digits2_pos m) - 1)) by lia.
    rewrite !Z.pow_succ_r by lia. lia.
  - simpl. lia.
Qed.

(** In a number with the larger exponent the mantissa has all its digits:
    the number is the larger one. *)
Lemma bounded_exponent_lt (mx my : positive) (ex ey : Z) :
  SpecFloat.bounded prec emax mx ex = true -> SpecFloat.bounded prec emax my ey = true ->
  (ey < ex)%Z ->
  (Zpos my < Zpos mx * 2 ^ (ex - ey))%Z.
Proof.
  unfold SpecFloat.bounded, canonical_mantissa, SpecFloat.fexp.
  intros Hx Hy Hlt.
  apply andb_true_iff in Hx, Hy. destruct Hx as [Hx _], Hy as [Hy _].
  apply Z.eqb_eq in Hx, Hy.
  pose proof (digits2_pos_bounds mx) as [Hmx _].
  pose proof (digits2_pos_bounds my) as [_ Hmy].
  assert (Hdx : Zpos (digits2_pos mx) = prec) by lia.
  assert (Hdy : (Zpos (digits2_pos my) <= prec)%Z) by lia.
  rewrite Hdx in Hmx.
  assert (H1 : (2 ^ Zpos (digits2_pos my) <= 2 ^ prec)%Z)
    by (apply Z.pow_le_mono_r; lia).
  assert (H2 : (2 ^ 1 <= 2 ^ (ex - ey))%Z)
    by (apply Z.pow_le_mono_r; lia).
  change (2 ^ 1)%Z with 2%Z in H2.
  assert (H3 : (2 ^ prec = 2 ^ (prec - 1) * 2)%Z) by reflexivity.
  nia.
Qed.

Lemma SFltb_zero_normalize (m e : Z) :
  (SpecFloat.emin prec emax <= e)%Z ->
  SFltb (S754_zero false) (binary_normalize prec emax m e false)
  = (0 <? m)%Z.
Proof.
  intro He. destruct m as [|p|p]; simpl.
  - reflexivity.
  - pose proof (@FloatFacts.binary_round_nonzero prec emax eq_refl false p e He) as Hnz.
    destruct (binary_round prec emax false p e) as [s|s| |s m' e'];
      simpl in Hnz; try contradiction; subst; reflexivity.
  - pose proof (@FloatFacts.binary_round_nonzero prec emax eq_refl true p e He) as Hnz.
    destruct (binary_round prec emax true p e) as [s|s| |s m' e'];
      simpl in Hnz; try contradiction; subst; reflexivity.
Qed.

Lemma bounded_emin (m : positive) (e : Z) :
  SpecFloat.bounded prec emax m e = true -> (SpecFloat.emin prec emax <= e)%Z.
Proof.
  unfold SpecFloat.bounded, canonical_mantissa. intro Hb.
  apply andb_true_iff in Hb. destruct Hb as [Hc _].
  apply Z.eqb_eq in Hc. rewrite <- Hc. unfold SpecFloat.fexp. lia.
Qed.

(** [x - y > 0] exactly when [y < x]. *)
Lemma SFsub_positive (x y : spec_float) :
  SpecFloat.valid_binary prec emax x = true ->
  SpecFloat.valid_binary prec emax y = true ->
  SFltb (S754_zero false) (SFsub prec emax x y) = SFltb y x.
Proof.
  destruct x as [sx|sx| |sx mx ex], y as [sy|sy| |sy my ey];
    try (repeat match goal with s : bool |- _ => destruct s end; reflexivity).
  simpl SpecFloat.valid_binary. intros Hx Hy.
  unfold SFsub.
  pose proof (bounded_emin _ _ Hx) as Hex.
  pose proof (bounded_emin _ _ Hy) as Hey.
  rewrite SFltb_zero_normalize by lia.
  rewrite !shl_align_value by lia.
  unfold SFltb, SFcompare.
  change (Pos.compare_cont Eq) with Pos.compare.
  destruct (Z.compare_spec ey ex) as [Heq|Hlt|Hgt].
  - subst ey. rewrite Z.min_id, Z.sub_diag. simpl (2 ^ 0)%Z.
    rewrite !Z.mul_1_r.
    destruct (Pos.compare_spec my mx) as [Hm|Hm|Hm];
      destruct sx, sy; unfold cond_Zopp; cbv beta iota;
      apply Z.ltb_lt || apply Z.ltb_ge; lia.
  - pose proof (bounded_exponent_lt _ _ Hx Hy Hlt) as Hb.
    rewrite Z.min_r by lia. rewrite Z.sub_diag. simpl (2 ^ 0)%Z.
    rewrite !Z.mul_1_r.
    destruct sx, sy; unfold cond_Zopp; cbv beta iota;
      apply Z.ltb_lt || apply Z.ltb_ge; lia.
  - pose proof (bounded_exponent_lt _ _ Hy Hx Hgt) as Hb.
    rewrite Z.min_l by lia. rewrite Z.sub_diag. simpl (2 ^ 0)%Z.
    rewrite !Z.mul_1_r.
    destruct sx, sy; unfold cond_Zopp; cbv beta iota;
      apply Z.ltb_lt || apply Z.ltb_ge; lia.
Qed.

Lemma sub_positive (x y : float) :
  PrimFloat.ltb 0 (x - y) = PrimFloat.ltb y x.
Proof.
  rewrite !FloatAxioms.ltb_spec, FloatAxioms.sub_spec.
  apply SFsub_positive; apply Prim2SF_valid.
Qed.

Lemma leb_refl_not_nan (x : float) :
  PrimFloat.leb x x = true <-> PrimFloat.is_nan x = false.
Proof.
  unfold PrimFloat.is_nan.
  rewrite FloatAxioms.leb_spec, FloatAxioms.eqb_spec. unfold SFleb, SFeqb.
  destruct (SFcompare (Prim2SF x) (Prim2SF x)) as [[]|] eqn:Hc; simpl;
    split; try reflexivity; try discriminate; intros _; exfalso;
    unfold SFcompare in Hc;
    destruct (Prim2SF x) as [s|s| |s m e]; try destruct s; try discriminate;
    rewrite Z.compare_refl in Hc;
    change (Pos.compare_cont Eq m m) with (Pos.compare m m) in Hc;
    rewrite Pos.compare_refl in Hc; discriminate.
Qed.

Lemma leb_not_same (x y : float) :
  PrimFloat.leb x y = true -> FloatNumber.sameValueZero x y = false ->
  PrimFloat.ltb x y = true.
Proof.
  unfold FloatNumber.sameValueZero. intros Hle Hsvz.
  apply orb_false_iff in Hsvz. destruct Hsvz as [Heq _]. revert Hle Heq.
  rewrite FloatAxioms.leb_spec, FloatAxioms.eqb_spec, FloatAxioms.ltb_spec.
  unfold SFleb, SFeqb, SFltb.
  destruct (SFcompare (Prim2SF x) (Prim2SF y)) as [[]|]; congruence.
Qed.

Lemma eqb_sym (x y : float) : PrimFloat.eqb x y = PrimFloat.eqb y x.
Proof.
  rewrite !FloatAxioms.eqb_spec. unfold SFeqb.
  rewrite (SFcompare_antisym (Prim2SF y) (Prim2SF x)).
  destruct (SFcompare (Prim2SF y) (Prim2SF x)) as [[]|]; reflexivity.
Qed.

Lemma sameValueZero_float_sym (x y : float) :
  FloatNumber.sameValueZero x y = FloatNumber.sameValueZero y x.
Proof.
  unfold FloatNumber.sameValueZero.
  rewrite (eqb_sym x y), (andb_comm (PrimFloat.is_nan x)). reflexivity.
Qed.

Lemma abs_not_nan (x : float) :
  PrimFloat.is_nan x = false -> PrimFloat.is_nan (PrimFloat.abs x) = false.
Proof.
  unfold PrimFloat.is_nan.
  rewrite !FloatAxioms.eqb_spec, FloatAxioms.abs_spec. unfold SFeqb, SFcompare.
  destruct (Prim2SF x) as [s|s| |s m e]; simpl; trivial;
    destruct s; trivial;
    rewrite Z.compare_refl;
    change (Pos.compare_cont Eq m m) with (Pos.compare m m);
    rewrite Pos.compare_refl; trivial.
Qed.

End FloatOrder.

#[export] Instance float_OrderLaws : OrderLaws float.
Proof.
  split.
  - exact FloatOrder.sub_positive.
  - intro x. simpl. destruct (PrimFloat.ltb x x) eqn:Hx; [|reflexivity].
    pose proof (FloatFacts.ltb_asym Hx) as Hx'. congruence.
  - exact FloatOrder.ltb_true_leb.
  - intros x y Hlt. destruct (FloatOrder.ltb_not_nan Hlt) as [Hx Hy].
    split; apply FloatOrder.leb_refl_not_nan; assumption.
  - intros x y Hx Hy Hlt. apply FloatOrder.ltb_false_leb; try assumption;
      apply FloatOrder.leb_refl_not_nan; assumption.
  - exact FloatFacts.leb_float_trans.
  - exact FloatOrder.leb_not_same.
  - exact FloatOrder.sameValueZero_float_sym.
  - exact FloatFacts.sameValueZero_float_refl.
  - intros x Hx. apply FloatOrder.leb_refl_not_nan, FloatOrder.abs_not_nan.
    apply FloatOrder.leb_refl_not_nan, Hx.
Qed.

#[export] Instance R_OrderLaws : OrderLaws R.
Proof.
  split; simpl.
  - intros x y. unfold RealNumber.ltb.
    destruct (Rlt_dec 0 (x - y)), (Rlt_dec y x); try reflexivity; lra.
  - intro x. apply RealFacts.ltb_false_iff. lra.
  - intros x y Hlt. apply RealFacts.ltb_true_iff in Hlt.
    apply RealFacts.leb_true_iff. lra.
  - intros x y _. split; apply RealFacts.leb_true_iff; lra.
  - intros x y _ _ Hlt. apply RealFacts.ltb_false_iff in Hlt.
    apply RealFacts.leb_true_iff. lra.
  - intros x y z Hxy Hyz. apply RealFacts.leb_true_iff in Hxy, Hyz.
    apply RealFacts.leb_true_iff. lra.
  - intros x y Hle Hne. apply RealFacts.leb_true_iff in Hle.
    apply RealFacts.eqb_false_iff in Hne. apply RealFacts.ltb_true_iff. lra.
  - intros x y. unfold RealNumber.eqb.
    destruct (Req_dec_T x y), (Req_dec_T y x); congruence.
  - intro x. apply RealFacts.eqb_true_iff. reflexivity.
  - intros x _. apply RealFacts.leb_true_iff. lra.
Qed.

(* ------------------------------------------------------------------ *)
(** ** Binary64: what keeps a sign *)

Module FloatSigns.

Lemma not_negative_iff (x : float) :
  PrimFloat.ltb x 0 = false <-> signOrZero false (Prim2SF x).
Proof.
  rewrite FloatAxioms.ltb_spec.
  change (Prim2SF 0%float) with (S754_zero false).
  destruct (Prim2SF x) as [s|s| |s m e]; try destruct s; simpl;
    split; intro Hs; trivial; discriminate.
Qed.

Lemma not_positive_iff (x : float) :
  PrimFloat.ltb 0 x = false <-> signOrZero true (Prim2SF x).
Proof.
  rewrite FloatAxioms.ltb_spec.
  change (Prim2SF 0%float) with (S754_zero false).
  destruct (Prim2SF x) as [s|s| |s m e]; try destruct s; simpl;
    split; intro Hs; trivial; discriminate.
Qed.

Lemma signIs_signOrZero (sx : bool) (f : spec_float) :
  signIs sx f -> signOrZero sx f.
Proof. destruct f; simpl; trivial. Qed.

Lemma SFadd_signOrZero (sx : bool) (x y : spec_float) :
  signOrZero sx x -> signOrZero sx y -> signOrZero sx (SF64add x y).
Proof.
  unfold SF64add, SFadd.
  destruct x as [s1|s1| |s1 m1 e1], y as [s2|s2| |s2 m2 e2]; simpl;
    intros H1 H2; subst; trivial;
    try (destruct s1, s2; simpl; trivial; fail);
    try (destruct sx; simpl; trivial; fail).
  apply signIs_signOrZero.
  destruct sx; unfold cond_Zopp; simpl;
    unfold binary_round;
    match goal with
    | |- context [shl_align ?a ?b ?c] => destruct (shl_align a b c) as [mz ez]
    end;
    apply FloatFacts.binary_round_aux_sign.
Qed.

Lemma add_not_negative (x y : float) :
  PrimFloat.ltb x 0 = false -> PrimFloat.ltb y 0 = false ->
  PrimFloat.ltb (x + y) 0 = false.
Proof.
  rewrite !not_negative_iff, FloatAxioms.add_spec. apply SFadd_signOrZero.
Qed.

Lemma add_not_positive (x y : float) :
  PrimFloat.ltb 0 x = false -> PrimFloat.ltb 0 y = false ->
  PrimFloat.ltb 0 (x + y) = false.
Proof.
  rewrite !not_positive_iff, FloatAxioms.add_spec. apply SFadd_signOrZero.
Qed.

Lemma mul_not_negative (x y : float) :
  PrimFloat.ltb x 0 = false -> PrimFloat.ltb y 0 = false ->
  PrimFloat.ltb (x * y) 0 = false.
Proof.
  rewrite !not_negative_iff, FloatAxioms.mul_spec. unfold SF64mul, SFmul.
  destruct (Prim2SF x) as [s1|s1| |s1 m1 e1],
    (Prim2SF y) as [s2|s2| |s2 m2 e2]; simpl;
    intros H1 H2; subst; trivial.
  apply signIs_signOrZero. apply FloatFacts.binary_round_aux_sign.
Qed.

Lemma opp_not_positive (x : float) :
  PrimFloat.ltb x 0 = false -> PrimFloat.ltb 0 (- x) = false.
Proof.
  rewrite not_negative_iff, not_positive_iff, FloatAxioms.opp_spec.
  destruct (Prim2SF x) as [s|s| |s m e]; simpl; trivial; intros ->;
    reflexivity.
Qed.

Lemma not_leb_zero_signClear (x : float) :
  PrimFloat.leb x 0 = false -> signClear x.
Proof.
  rewrite FloatAxioms.leb_spec. unfold signClear, signIs.
  change (Prim2SF 0%float) with (S754_zero false).
  destruct (Prim2SF x) as [s|s| |s m e]; simpl; trivial;
    destruct s; trivial; discriminate.
Qed.

End FloatSigns.

(* ------------------------------------------------------------------ *)
(** ** Binary64: sums of numbers of one sign *)

Lemma filter_none {A : Type} (p : A -> bool) (l : list A) :
  List.length (filter p l) = 0%nat -> Forall (fun x => p x = false) l.
Proof.
  induction l as [|x l IH]; simpl; intro Hl.
  - constructor.
  - destruct (p x) eqn:Hp; [discriminate|]. constructor; auto.
Qed.

Lemma sum_not_positive {A : Type} (f : A -> float) (l : list A) :
  Forall (fun x => PrimFloat.ltb 0 (f x) = false) l ->
  PrimFloat.ltb 0 (sum_of f l) = false.
Proof.
  unfold sum_of. change (of_Z 0) with 0%float.
  assert (Hgen : forall a, PrimFloat.ltb 0 a = false ->
            Forall (fun x => PrimFloat.ltb 0 (f x) = false) l ->
            PrimFloat.ltb 0 (fold_left (fun sum x => add sum (f x)) l a)
            = false).
  { induction l as [|x l IH]; intros a Ha Hl; simpl.
    - exact Ha.
    - inversion Hl as [|? ? Hx Hl']; subst.
      apply IH; [|exact Hl']. apply FloatSigns.add_not_positive; assumption. }
  apply Hgen. reflexivity.
Qed.

Lemma sum_not_negative {A : Type} (f : A -> float) (l : list A) :
  Forall (fun x => PrimFloat.ltb (f x) 0 = false) l ->
  PrimFloat.ltb (sum_of f l) 0 = false.
Proof.
  unfold sum_of. change (of_Z 0) with 0%float.
  assert (Hgen : forall a, PrimFloat.ltb a 0 = false ->
            Forall (fun x => PrimFloat.ltb (f x) 0 = false) l ->
            PrimFloat.ltb (fold_left (fun sum x => add sum (f x)) l a) 0
            = false).
  { induction l as [|x l IH]; intros a Ha Hl; simpl.
    - exact Ha.
    - inversion Hl as [|? ? Hx Hl']; subst.
      apply IH; [|exact Hl']. apply FloatSigns.add_not_negative; assumption. }
  apply Hgen. reflexivity.
Qed.

(* ------------------------------------------------------------------ *)
(** ** Binary64: negation and the order of the factors *)

Module FloatSymmetry.

Lemma opp_involutive (x : float) : (- - x)%float = x.
Proof.
  apply Prim2SF_inj. rewrite !FloatAxioms.opp_spec.
  destruct (Prim2SF x) as [s|s| |s m e]; simpl; try rewrite negb_involutive;
    reflexivity.
Qed.

Lemma mul_comm (x y : float) : (x * y)%float = (y * x)%float.
Proof.
  apply Prim2SF_inj. rewrite !FloatAxioms.mul_spec. unfold SF64mul, SFmul.
  destruct (Prim2SF x) as [sx|sx| |sx mx ex],
    (Prim2SF y) as [sy|sy| |sy my ey]; try reflexivity;
    try (rewrite (xorb_comm sx sy); reflexivity).
  rewrite (xorb_comm sx sy), (Pos.mul_comm mx my), (Z.add_comm ex ey).
  reflexivity.
Qed.

Lemma abs_opp (x : float) : PrimFloat.abs (- x) = PrimFloat.abs x.
Proof.
  apply Prim2SF_inj. rewrite !FloatAxioms.abs_spec, FloatAxioms.opp_spec.
  destruct (Prim2SF x) as [s|s| |s m e]; reflexivity.
Qed.

Lemma opp_positive (x : float) :
  PrimFloat.ltb 0 x = true -> PrimFloat.ltb 0 (- x) = false.
Proof.
  rewrite !FloatAxioms.ltb_spec, FloatAxioms.opp_spec.
  change (Prim2SF 0%float) with (S754_zero false).
  destruct (Prim2SF x) as [s|s| |s m e]; try destruct s; simpl;
    try reflexivity; discriminate.
Qed.

End FloatSymmetry.

(* ------------------------------------------------------------------ *)
(** ** Binary64: rounding to nearest, ties to even *)

Module FloatRounding.

Local Open Scope Z_scope.

Ltac bool_facts :=
  repeat match goal with
  | H : true = true <-> _ |- _ => apply proj1 in H; specialize (H eq_refl)
  | H : false = true <-> ?A |- _ =>
      let H' := fresh H in
      assert (H' : ~ A) by (intro H'; apply (proj2 H) in H'; discriminate H');
      clear H
  end.

Lemma shr_1_located (mrs : shr_record) (value scale : Z) :
  0 < scale -> located mrs value scale -> located (shr_1 mrs) value (2 * scale).
Proof.
  unfold located. intros Hs (Hm & rem & Hv & Hrem & Hr & Hss).
  destruct mrs as [m r s]. cbn [shr_m shr_r shr_s] in Hm, Hv, Hr, Hss.
  assert (Hnz : orb r s = true <-> rem <> 0).
  { destruct r, s; cbn [orb]; bool_facts; split; intro; try congruence;
      try reflexivity; try lia; try (exfalso; lia). }
  destruct m as [|[m|m|]|m]; try lia; simpl shr_1; cbv beta iota;
    simpl shr_m; simpl shr_r; simpl shr_s; (split; [lia|]).
  - exists rem. rewrite Hnz.
    split; [lia|split; [lia|split; split; intro; try congruence; try lia; try (exfalso; lia)]].
  - exists (scale + rem). rewrite Hnz.
    split; [lia|split; [lia|split; split; intro; try reflexivity; try lia; try (exfalso; lia)]].
  - exists rem. rewrite Hnz.
    split; [lia|split; [lia|split; split; intro; try congruence; try lia; try (exfalso; lia)]].
  - exists (scale + rem). rewrite Hnz.
    split; [lia|split; [lia|split; split; intro; try reflexivity; try lia; try (exfalso; lia)]].
Qed.

Lemma iter_shr_1_located (n : positive) :
  forall (mrs : shr_record) (value scale : Z),
    0 < scale -> located mrs value scale ->
    located (SpecFloat.iter_pos shr_1 n mrs) value (scale * 2 ^ Zpos n).
Proof.
  induction n as [n IH|n IH|]; intros mrs value scale Hs Hl;
    cbn [SpecFloat.iter_pos].
  - replace (scale * 2 ^ Zpos n~1)
      with (2 * scale * 2 ^ Zpos n * 2 ^ Zpos n).
    + assert (Hp : 0 < 2 ^ Zpos n) by (apply Z.pow_pos_nonneg; lia).
      apply IH; [nia|]. apply IH; [lia|]. apply shr_1_located; assumption.
    + rewrite (Pos2Z.inj_xI n), Z.pow_add_r, Z.pow_mul_r by lia.
      change (2 ^ 2) with 4. rewrite Z.pow_1_r.
      replace (4 ^ Zpos n) with (2 ^ Zpos n * 2 ^ Zpos n).
      * ring.
      * rewrite <- Z.pow_mul_l. reflexivity.
  - replace (scale * 2 ^ Zpos n~0) with (scale * 2 ^ Zpos n * 2 ^ Zpos n).
    + assert (Hp : 0 < 2 ^ Zpos n) by (apply Z.pow_pos_nonneg; lia).
      apply IH; [nia|]. apply IH; assumption.
    + rewrite (Pos2Z.inj_xO n), Z.pow_mul_r by lia.
      change (2 ^ 2) with 4.
      replace (4 ^ Zpos n) with (2 ^ Zpos n * 2 ^ Zpos n).
      * ring.
      * rewrite <- Z.pow_mul_l. reflexivity.
  - replace (scale * 2 ^ 1) with (2 * scale) by (rewrite Z.pow_1_r; ring).
    apply shr_1_located; assumption.
Qed.

Lemma located_nearest (mrs : shr_record) (value scale : Z) :
  0 < scale -> located mrs value scale ->
  nearestEven value scale
    (round_nearest_even (shr_m mrs) (loc_of_shr_record mrs)).
Proof.
  unfold located, nearestEven. intros Hs (Hm & rem & Hv & Hrem & Hr & Hss).
  destruct mrs as [m r s]. cbn [shr_m shr_r shr_s] in Hm, Hv, Hr, Hss.
  cbn [shr_m]. remember (m * scale) as x eqn:Hx.
  destruct r, s; cbn [loc_of_shr_record round_nearest_even]; bool_facts.
  - replace ((2 * (m + 1) - 1) * scale) with (2 * x + scale) by (subst x; ring).
    replace ((2 * (m + 1) + 1) * scale) with (2 * x + 3 * scale)
      by (subst x; ring).
    repeat split; intros; lia.
  - destruct (Z.even m) eqn:He; cbv iota.
    + replace ((2 * m - 1) * scale) with (2 * x - scale) by (subst x; ring).
      replace ((2 * m + 1) * scale) with (2 * x + scale) by (subst x; ring).
      repeat split; intros; try assumption; lia.
    + replace ((2 * (m + 1) - 1) * scale) with (2 * x + scale)
        by (subst x; ring).
      replace ((2 * (m + 1) + 1) * scale) with (2 * x + 3 * scale)
        by (subst x; ring).
      assert (Hev : Z.even (m + 1) = true).
      { rewrite Z.even_add, He. reflexivity. }
      repeat split; intros; try assumption; lia.
  - replace ((2 * m - 1) * scale) with (2 * x - scale) by (subst x; ring).
    replace ((2 * m + 1) * scale) with (2 * x + scale) by (subst x; ring).
    repeat split; intros; lia.
  - replace ((2 * m - 1) * scale) with (2 * x - scale) by (subst x; ring).
    replace ((2 * m + 1) * scale) with (2 * x + scale) by (subst x; ring).
    repeat split; intros; lia.
Qed.

Lemma round_nearest_even_nonneg (m : Z) (l : location) :
  0 <= m -> 0 <= round_nearest_even m l.
Proof.
  intro Hm. destruct l as [|[]]; cbn [round_nearest_even]; try lia.
  destruct (Z.even m); lia.
Qed.

Lemma nearest_exact (k scale : Z) : 0 < scale -> nearestEven (k * scale) scale k.
Proof.
  intro Hs. unfold nearestEven. remember (k * scale) as x eqn:Hx.
  replace ((2 * k - 1) * scale) with (2 * x - scale) by (subst x; ring).
  replace ((2 * k + 1) * scale) with (2 * x + scale) by (subst x; ring).
  repeat split; intros; lia.
Qed.

(** Rounding to nearest, ties to even, is monotone. *)
Lemma nearest_monotone (v1 s1 n1 v2 s2 n2 : Z) :
  0 < s1 -> 0 < s2 -> nearestEven v1 s1 n1 -> nearestEven v2 s2 n2 ->
  v1 * s2 <= v2 * s1 -> n1 <= n2.
Proof.
  intros Hs1 Hs2 ([Hl1 _] & Ht1 & _) ([_ Hu2] & _ & Ht2) Hle.
  destruct (Z_le_gt_dec n1 n2) as [|Hgt]; [assumption|exfalso].
  assert (Hq : 0 < s1 * s2) by nia.
  assert (H1 : (2 * n1 - 1) * (s1 * s2) <= 2 * (v1 * s2)).
  { replace ((2 * n1 - 1) * (s1 * s2)) with ((2 * n1 - 1) * s1 * s2) by ring.
    replace (2 * (v1 * s2)) with (2 * v1 * s2) by ring.
    apply Z.mul_le_mono_nonneg_r; lia. }
  assert (H2 : 2 * (v2 * s1) <= (2 * n2 + 1) * (s1 * s2)).
  { replace ((2 * n2 + 1) * (s1 * s2)) with ((2 * n2 + 1) * s2 * s1) by ring.
    replace (2 * (v2 * s1)) with (2 * v2 * s1) by ring.
    apply Z.mul_le_mono_nonneg_r; lia. }
  assert (H3 : (2 * n1 - 1) * (s1 * s2) <= (2 * n2 + 1) * (s1 * s2)) by lia.
  apply Z.mul_le_mono_pos_r in H3; [|assumption].
  assert (Hn : n1 = n2 + 1) by lia. subst n1.
  assert (He1 : 2 * v1 = (2 * (n2 + 1) - 1) * s1).
  { apply Z.mul_reg_r with s2; [lia|].
    replace ((2 * (n2 + 1) - 1) * s1 * s2)
      with ((2 * (n2 + 1) - 1) * (s1 * s2)) by ring.
    replace ((2 * (n2 + 1) - 1) * (s1 * s2))
      with ((2 * n2 + 1) * (s1 * s2)) in * by ring.
    lia. }
  assert (He2 : 2 * v2 = (2 * n2 + 1) * s2).
  { apply Z.mul_reg_r with s1; [lia|].
    replace ((2 * n2 + 1) * s2 * s1) with ((2 * n2 + 1) * (s1 * s2)) by ring.
    replace ((2 * (n2 + 1) - 1) * (s1 * s2))
      with ((2 * n2 + 1) * (s1 * s2)) in * by ring.
    lia. }
  specialize (Ht1 He1). specialize (Ht2 He2).
  rewrite Z.even_add, Ht2 in Ht1. discriminate Ht1.
Qed.

Lemma prec_value : prec = 53.
Proof. reflexivity. Qed.

Lemma emin_value : SpecFloat.emin prec emax = -1074.
Proof. reflexivity. Qed.

Lemma pow2_pos (k : Z) : 0 <= k -> 0 < 2 ^ k.
Proof. intro Hk. apply Z.pow_pos_nonneg; lia. Qed.

Lemma digits_le_prec (n : positive) :
  Zpos n < 2 ^ prec -> Zpos (digits2_pos n) <= prec.
Proof.
  intro Hlt. pose proof (FloatOrder.digits2_pos_bounds n) as [Hlow _].
  destruct (Z_le_gt_dec (Zpos (digits2_pos n)) prec) as [|Hgt];
    [assumption|exfalso].
  assert (Hp : 2 ^ prec <= 2 ^ (Zpos (digits2_pos n) - 1))
    by (apply Z.pow_le_mono_r; lia).
  lia.
Qed.

(** The second shift of [binary_round_aux]. *)
Lemma renormalize (sx : bool) (n t : Z) :
  SpecFloat.emin prec emax <= t -> 0 <= n <= 2 ^ prec ->
  (let '(mrs, e) := shr_fexp prec emax n t loc_Exact in
   match shr_m mrs with
   | Z0 => S754_zero sx
   | Zpos m =>
       if e <=? emax - prec then S754_finite sx m e else S754_infinity sx
   | Zneg _ => S754_nan
   end) = finish sx n t.
Proof.
  intros Ht Hn. unfold shr_fexp, finish.
  destruct n as [|n|n]; [| |lia].
  - cbn [Zdigits2]. unfold SpecFloat.fexp, shr.
    destruct (Z.max (0 + t - prec) (SpecFloat.emin prec emax) - t) eqn:Hd;
      try reflexivity.
    exfalso. pose proof prec_value. lia.
  - destruct (Z.eqb_spec (Zpos n) (2 ^ prec)) as [Heq|Hne].
    + injection Heq as ->. cbn [Zdigits2].
      change (Zpos (digits2_pos 9007199254740992)) with 54.
      unfold SpecFloat.fexp, shr.
      replace (Z.max (54 + t - prec) (SpecFloat.emin prec emax) - t) with 1
        by (pose proof prec_value; lia).
      reflexivity.
    + cbn [Zdigits2]. assert (Hlt : Zpos n < 2 ^ prec) by lia.
      apply digits_le_prec in Hlt. unfold SpecFloat.fexp, shr.
      destruct (Z.max (Zpos (digits2_pos n) + t - prec)
                  (SpecFloat.emin prec emax) - t) eqn:Hd; try reflexivity.
      exfalso. lia.
Qed.

Lemma binary_round_aux_spec (sx : bool) (m : positive) (e : Z) :
  e <= targetExponent m e ->
  exists n,
    nearestEven (Zpos m) (2 ^ (targetExponent m e - e)) n
    /\ 0 <= n <= 2 ^ prec
    /\ binary_round_aux prec emax sx (Zpos m) e loc_Exact
       = finish sx n (targetExponent m e).
Proof.
  intro Hpre. set (t := targetExponent m e) in *.
  assert (Ht : SpecFloat.emin prec emax <= t)
    by (unfold t, targetExponent, SpecFloat.fexp; lia).
  assert (Hloc : exists mrs,
            shr_fexp prec emax (Zpos m) e loc_Exact = (mrs, t)
            /\ located mrs (Zpos m) (2 ^ (t - e))).
  { unfold shr_fexp. cbn [Zdigits2 shr_record_of_loc].
    fold (targetExponent m e). fold t. unfold shr.
    assert (H0 : located {| shr_m := Zpos m; shr_r := false; shr_s := false |}
                   (Zpos m) 1).
    { unfold located. cbn [shr_m shr_r shr_s]. split; [lia|].
      exists 0. repeat split; intros; try discriminate; lia. }
    destruct (t - e) as [|k|k] eqn:Hk; [| |lia].
    - eexists. split; [f_equal; lia|]. exact H0.
    - eexists. split; [f_equal; lia|].
      replace (2 ^ Zpos k) with (1 * 2 ^ Zpos k) by ring.
      apply iter_shr_1_located; [lia|exact H0]. }
  destruct Hloc as (mrs & Hshr & Hloc).
  assert (Hs : 0 < 2 ^ (t - e)) by (apply pow2_pos; lia).
  exists (round_nearest_even (shr_m mrs) (loc_of_shr_record mrs)).
  pose proof (located_nearest Hs Hloc) as Hnear.
  assert (Hn0 : 0 <= round_nearest_even (shr_m mrs) (loc_of_shr_record mrs))
    by (apply round_nearest_even_nonneg, Hloc).
  assert (Hn1 : round_nearest_even (shr_m mrs) (loc_of_shr_record mrs)
                <= 2 ^ prec).
  { apply (nearest_monotone Hs Hs Hnear (nearest_exact (2 ^ prec) Hs)).
    apply Z.mul_le_mono_nonneg_r; [lia|].
    pose proof (FloatOrder.digits2_pos_bounds m) as [_ Hup].
    rewrite <- Z.pow_add_r by (pose proof prec_value; lia).
    assert (Hd : Zpos (digits2_pos m) <= prec + (t - e)).
    { unfold t, targetExponent, SpecFloat.fexp. lia. }
    assert (Hp : 2 ^ Zpos (digits2_pos m) <= 2 ^ (prec + (t - e)))
      by (apply Z.pow_le_mono_r; lia).
    lia. }
  split; [exact Hnear|]. split; [lia|].
  unfold binary_round_aux. rewrite Hshr.
  apply renormalize; [exact Ht|lia].
Qed.

Lemma SFleb_finite (m1 m2 : positive) (e1 e2 : Z) :
  e1 < e2 \/ (e1 = e2 /\ Zpos m1 <= Zpos m2) ->
  SFleb (S754_finite false m1 e1) (S754_finite false m2 e2) = true.
Proof.
  intro H. unfold SFleb, SFcompare.
  destruct (Z.compare_spec e1 e2) as [He|He|He]; try reflexivity; try lia.
  change (Pos.compare_cont Eq m1 m2) with (Pos.compare m1 m2).
  destruct (Pos.compare_spec m1 m2) as [Hm|Hm|Hm]; try reflexivity. lia.
Qed.

Lemma half_value :
  Zpos (Z.to_pos (2 ^ (prec - 1))) = 2 ^ (prec - 1)
  /\ 2 ^ prec = 2 * 2 ^ (prec - 1) /\ 0 < 2 ^ (prec - 1).
Proof. repeat split. Qed.

(** Of two rounded mantissas, the one at the lower exponent, or the lower
    one at the same exponent, finishes as the lower number. *)
Lemma finish_leb (n1 n2 e1 e2 : Z) :
  0 <= n1 <= 2 ^ prec -> 0 <= n2 <= 2 ^ prec ->
  (e1 < e2 /\ 2 ^ (prec - 1) <= n2) \/ (e1 = e2 /\ n1 <= n2) ->
  SFleb (finish false n1 e1) (finish false n2 e2) = true.
Proof.
  intros Hn1 Hn2 Hle. destruct half_value as (Hh & Hp & Hh0).
  unfold finish.
  destruct n1 as [|p1|p1], n2 as [|p2|p2]; try lia.
  - reflexivity.
  - destruct (Z.eqb_spec (Zpos p2) (2 ^ prec)) as [E2|E2];
      [destruct (Z.leb_spec (e2 + 1) (emax - prec))
      |destruct (Z.leb_spec e2 (emax - prec))]; reflexivity.
  - destruct (Z.eqb_spec (Zpos p1) (2 ^ prec)) as [E1|E1],
      (Z.eqb_spec (Zpos p2) (2 ^ prec)) as [E2|E2].
    + destruct (Z.leb_spec (e1 + 1) (emax - prec)),
        (Z.leb_spec (e2 + 1) (emax - prec)); try reflexivity; try lia.
      apply SFleb_finite. lia.
    + destruct (Z.leb_spec (e1 + 1) (emax - prec)),
        (Z.leb_spec e2 (emax - prec)); try reflexivity; try lia.
      apply SFleb_finite. lia.
    + destruct (Z.leb_spec e1 (emax - prec)),
        (Z.leb_spec (e2 + 1) (emax - prec)); try reflexivity; try lia.
      apply SFleb_finite. lia.
    + destruct (Z.leb_spec e1 (emax - prec)),
        (Z.leb_spec e2 (emax - prec)); try reflexivity; try lia.
      apply SFleb_finite. lia.
Qed.

(** With more digits before the point a number is larger. *)
Lemma magnitude_le (m1 m2 : positive) (e1 e2 c : Z) :
  c <= e1 -> c <= e2 ->
  Zpos m1 * 2 ^ (e1 - c) <= Zpos m2 * 2 ^ (e2 - c) ->
  Zpos (digits2_pos m1) + e1 <= Zpos (digits2_pos m2) + e2.
Proof.
  intros Hc1 Hc2 Hle.
  pose proof (FloatOrder.digits2_pos_bounds m1) as [Hl1 _].
  pose proof (FloatOrder.digits2_pos_bounds m2) as [_ Hu2].
  destruct (Z_le_gt_dec (Zpos (digits2_pos m1) + e1)
              (Zpos (digits2_pos m2) + e2)) as [|Hgt]; [assumption|exfalso].
  assert (H1 : 2 ^ (Zpos (digits2_pos m1) - 1) * 2 ^ (e1 - c)
               <= Zpos m1 * 2 ^ (e1 - c)).
  { apply Z.mul_le_mono_nonneg_r; [|assumption].
    apply Z.lt_le_incl, pow2_pos. lia. }
  assert (H2 : Zpos m2 * 2 ^ (e2 - c)
               < 2 ^ Zpos (digits2_pos m2) * 2 ^ (e2 - c)).
  { apply Z.mul_lt_mono_pos_r; [|assumption]. apply pow2_pos. lia. }
  rewrite <- Z.pow_add_r in H1, H2 by lia.
  assert (H3 : 2 ^ (Zpos (digits2_pos m2) + (e2 - c))
               <= 2 ^ (Zpos (digits2_pos m1) - 1 + (e1 - c)))
    by (apply Z.pow_le_mono_r; lia).
  lia.
Qed.

(** Rounding is monotone: of two positive numbers given by mantissa and
    exponent, none coarser than it is rounded at, the lower one rounds to
    the lower number. *)
Lemma binary_round_aux_monotone (m1 m2 : positive) (e1 e2 c : Z) :
  e1 <= targetExponent m1 e1 -> e2 <= targetExponent m2 e2 ->
  c <= e1 -> c <= e2 ->
  Zpos m1 * 2 ^ (e1 - c) <= Zpos m2 * 2 ^ (e2 - c) ->
  SFleb (binary_round_aux prec emax false (Zpos m1) e1 loc_Exact)
    (binary_round_aux prec emax false (Zpos m2) e2 loc_Exact) = true.
Proof.
  intros Hp1 Hp2 Hc1 Hc2 Hle.
  destruct (binary_round_aux_spec false m1 Hp1) as (n1 & Hn1 & Hb1 & ->).
  destruct (binary_round_aux_spec false m2 Hp2) as (n2 & Hn2 & Hb2 & ->).
  pose proof (magnitude_le m1 m2 Hc1 Hc2 Hle) as Hmag.
  set (t1 := targetExponent m1 e1) in *.
  set (t2 := targetExponent m2 e2) in *.
  assert (Ht : t1 <= t2).
  { unfold t1, t2, targetExponent, SpecFloat.fexp. lia. }
  assert (Hs1 : 0 < 2 ^ (t1 - e1)) by (apply pow2_pos; lia).
  assert (Hs2 : 0 < 2 ^ (t2 - e2)) by (apply pow2_pos; lia).
  apply finish_leb; try assumption.
  destruct (Z.eq_dec t1 t2) as [Heq|Hne].
  - right. split; [assumption|].
    apply (nearest_monotone Hs1 Hs2 Hn1 Hn2).
    rewrite <- Heq.
    apply Z.mul_le_mono_pos_r with (2 ^ ((e1 - c) + (e2 - c)));
      [apply pow2_pos; lia|].
    rewrite <- !Z.mul_assoc, <- !Z.pow_add_r by lia.
    replace (t1 - e2 + (e1 - c + (e2 - c))) with ((e1 - c) + (t1 - c)) by lia.
    replace (t1 - e1 + (e1 - c + (e2 - c))) with ((e2 - c) + (t1 - c)) by lia.
    rewrite !Z.pow_add_r, !Z.mul_assoc by lia.
    apply Z.mul_le_mono_nonneg_r; [|assumption].
    apply Z.lt_le_incl, pow2_pos. lia.
  - left. split; [lia|].
    assert (Hd2 : Zpos (digits2_pos m2) = prec + (t2 - e2)).
    { unfold t1, t2, targetExponent, SpecFloat.fexp in *. lia. }
    apply (nearest_monotone Hs2 Hs2 (nearest_exact (2 ^ (prec - 1)) Hs2) Hn2).
    apply Z.mul_le_mono_nonneg_r; [lia|].
    pose proof (FloatOrder.digits2_pos_bounds m2) as [Hlow _].
    rewrite Hd2 in Hlow.
    replace (prec + (t2 - e2) - 1) with ((prec - 1) + (t2 - e2)) in Hlow by lia.
    rewrite Z.pow_add_r in Hlow by (pose proof prec_value; lia).
    exact Hlow.
Qed.

End FloatRounding.

(* ------------------------------------------------------------------ *)
(** ** Binary64: multiplication keeps the order *)

Module FloatMonotone.

Import FloatRounding.

Local Open Scope Z_scope.

Lemma bounded_targetExponent (m : positive) (e : Z) :
  SpecFloat.bounded prec emax m e = true -> targetExponent m e = e.
Proof.
  unfold SpecFloat.bounded, canonical_mantissa, targetExponent. intro Hb.
  apply andb_true_iff in Hb. destruct Hb as [Hc _].
  apply Z.eqb_eq in Hc. exact Hc.
Qed.

Lemma bounded_exponent_le (m : positive) (e : Z) :
  SpecFloat.bounded prec emax m e = true -> e <= emax - prec.
Proof.
  unfold SpecFloat.bounded. intro Hb.
  apply andb_true_iff in Hb. destruct Hb as [_ He].
  apply Z.leb_le in He. exact He.
Qed.

(** The product of two mantissas has the digits of both, but one. *)
Lemma digits_mul (mx my : positive) :
  Zpos (digits2_pos mx) + Zpos (digits2_pos my) - 1
  <= Zpos (digits2_pos (mx * my)).
Proof.
  pose proof (FloatOrder.digits2_pos_bounds mx) as [Hx _].
  pose proof (FloatOrder.digits2_pos_bounds my) as [Hy _].
  pose proof (FloatOrder.digits2_pos_bounds (mx * my)) as [_ Hxy].
  rewrite Pos2Z.inj_mul in Hxy.
  assert (H0x : 0 < 2 ^ (Zpos (digits2_pos mx) - 1)) by (apply pow2_pos; lia).
  assert (H0y : 0 < 2 ^ (Zpos (digits2_pos my) - 1)) by (apply pow2_pos; lia).
  assert (Hp : 2 ^ (Zpos (digits2_pos mx) - 1 + (Zpos (digits2_pos my) - 1))
               < 2 ^ Zpos (digits2_pos (mx * my))).
  { rewrite Z.pow_add_r by lia. nia. }
  apply Z.pow_lt_mono_r_iff in Hp; lia.
Qed.

(** The product of two numbers is never coarser than it is rounded at. *)
Lemma product_targetExponent (mx my : positive) (ex ey : Z) :
  SpecFloat.bounded prec emax mx ex = true ->
  SpecFloat.bounded prec emax my ey = true ->
  ex + ey <= targetExponent (mx * my) (ex + ey).
Proof.
  intros Hx Hy.
  pose proof (bounded_targetExponent _ _ Hx) as Hcx.
  pose proof (bounded_targetExponent _ _ Hy) as Hcy.
  pose proof (digits_mul mx my) as Hd.
  pose proof prec_value. pose proof emin_value.
  unfold targetExponent, SpecFloat.fexp in *. lia.
Qed.

(** The order of two numbers above zero is the order of their values. *)
Lemma SFleb_value (m1 m2 : positive) (e1 e2 c : Z) :
  SpecFloat.bounded prec emax m1 e1 = true ->
  SpecFloat.bounded prec emax m2 e2 = true ->
  c <= e1 -> c <= e2 ->
  SFleb (S754_finite false m1 e1) (S754_finite false m2 e2) = true ->
  Zpos m1 * 2 ^ (e1 - c) <= Zpos m2 * 2 ^ (e2 - c).
Proof.
  intros H1 H2 Hc1 Hc2. unfold SFleb, SFcompare.
  destruct (Z.compare_spec e1 e2) as [He|He|He]; [| |discriminate].
  - subst e2. change (Pos.compare_cont Eq m1 m2) with (Pos.compare m1 m2).
    destruct (Pos.compare_spec m1 m2) as [Hm|Hm|Hm]; try discriminate;
      intros _; apply Z.mul_le_mono_nonneg_r;
      try (apply Z.lt_le_incl, pow2_pos; lia); lia.
  - intros _. pose proof (FloatOrder.bounded_exponent_lt _ _ H2 H1 He) as Hlt.
    replace (e2 - c) with ((e2 - e1) + (e1 - c)) by lia.
    rewrite Z.pow_add_r, Z.mul_assoc by lia.
    apply Z.mul_le_mono_nonneg_r; [|lia].
    apply Z.lt_le_incl, pow2_pos. lia.
Qed.

Lemma SFmul_monotone (mx my1 my2 : positive) (ex ey1 ey2 : Z) :
  SpecFloat.bounded prec emax mx ex = true ->
  SpecFloat.bounded prec emax my1 ey1 = true ->
  SpecFloat.bounded prec emax my2 ey2 = true ->
  SFleb (S754_finite false my1 ey1) (S754_finite false my2 ey2) = true ->
  SFleb
    (binary_round_aux prec emax false (Zpos (mx * my1)) (ex + ey1) loc_Exact)
    (binary_round_aux prec emax false (Zpos (mx * my2)) (ex + ey2) loc_Exact)
  = true.
Proof.
  intros Hx H1 H2 Hle.
  apply binary_round_aux_monotone with (c := ex + Z.min ey1 ey2);
    try (apply product_targetExponent; assumption); try lia.
  assert (Hv : Zpos my1 * 2 ^ (ey1 - Z.min ey1 ey2)
               <= Zpos my2 * 2 ^ (ey2 - Z.min ey1 ey2))
    by (apply SFleb_value; try assumption; lia).
  rewrite !Pos2Z.inj_mul.
  replace (ex + ey1 - (ex + Z.min ey1 ey2)) with (ey1 - Z.min ey1 ey2) by lia.
  replace (ex + ey2 - (ex + Z.min ey1 ey2)) with (ey2 - Z.min ey1 ey2) by lia.
  rewrite <- !Z.mul_assoc. apply Z.mul_le_mono_nonneg_l; lia.
Qed.

(** The sign of a rounded number is the sign it is given. *)
Lemma binary_round_aux_opp (m e : Z) (l : location) :
  binary_round_aux prec emax true m e l
  = SFopp (binary_round_aux prec emax false m e l).
Proof.
  unfold binary_round_aux.
  destruct (shr_fexp prec emax m e l) as [mrs' e'].
  destruct (shr_fexp prec emax _ e' loc_Exact) as [mrs'' e''].
  destruct (shr_m mrs''); [reflexivity| |reflexivity].
  destruct (e'' <=? emax - prec); reflexivity.
Qed.

Lemma SFcompare_opp (x y : spec_float) :
  SFcompare (SFopp x) (SFopp y) = SFcompare y x.
Proof.
  destruct x as [sx|sx| |sx mx ex], y as [sy|sy| |sy my ey];
    try destruct sx; try destruct sy; try reflexivity; cbn [SFopp negb];
    unfold SFcompare;
    change (Pos.compare_cont Eq) with Pos.compare;
    rewrite (Z.compare_antisym ex ey), (Pos.compare_antisym mx my);
    destruct (Z.compare ex ey); cbn [CompOpp]; try reflexivity;
    destruct (Pos.compare mx my); reflexivity.
Qed.

Lemma SFleb_opp (x y : spec_float) :
  SFleb (SFopp x) (SFopp y) = SFleb y x.
Proof. unfold SFleb. rewrite SFcompare_opp. reflexivity. Qed.

Lemma finish_numberOfSign (sx : bool) (n e : Z) :
  0 <= n -> numberOfSign sx (finish sx n e).
Proof.
  intro Hn. unfold finish, numberOfSign.
  destruct n as [|n|n]; [| |lia].
  - split; [exact I|discriminate].
  - destruct (Z.pos n =? 2 ^ prec);
      [destruct (e + 1 <=? emax - prec)|destruct (e <=? emax - prec)];
      (split; [reflexivity|discriminate]).
Qed.

Lemma SFmul_numberOfSign (sx sy : bool) (mx my : positive) (ex ey : Z) :
  SpecFloat.bounded prec emax mx ex = true ->
  SpecFloat.bounded prec emax my ey = true ->
  numberOfSign (xorb sx sy)
    (SFmul prec emax (S754_finite sx mx ex) (S754_finite sy my ey)).
Proof.
  intros Hx Hy. cbn [SFmul].
  pose proof (@product_targetExponent mx my ex ey Hx Hy) as Hp.
  destruct (binary_round_aux_spec (xorb sx sy) (mx * my) Hp)
    as (n & _ & Hn & ->).
  apply finish_numberOfSign. lia.
Qed.

(** A number that is not above zero is not above one that is not below. *)
Lemma SFleb_signs (x y : spec_float) :
  numberOfSign true x -> numberOfSign false y -> SFleb x y = true.
Proof.
  unfold numberOfSign, signOrZero.
  destruct x as [sx|sx| |sx mx ex], y as [sy|sy| |sy my ey];
    intros [Hx Hx'] [Hy Hy']; try congruence; subst; reflexivity.
Qed.

Lemma SFleb_infinity_r (x : spec_float) :
  x <> S754_nan -> SFleb x (S754_infinity false) = true.
Proof.
  destruct x as [s|s| |s m e]; try destruct s; intro H; try reflexivity;
    congruence.
Qed.

Lemma SFleb_infinity_l (x : spec_float) :
  x <> S754_nan -> SFleb (S754_infinity true) x = true.
Proof.
  destruct x as [s|s| |s m e]; try destruct s; intro H; try reflexivity;
    congruence.
Qed.

(** Multiplying by a number that is not below zero keeps the order, unless
    a product is NaN. *)
Lemma SFmul_leb_mono (a t1 t2 : spec_float) :
  SpecFloat.valid_binary prec emax a = true ->
  SpecFloat.valid_binary prec emax t1 = true ->
  SpecFloat.valid_binary prec emax t2 = true ->
  SFltb a (S754_zero false) = false ->
  SFleb t1 t2 = true ->
  SFmul prec emax a t1 <> S754_nan -> SFmul prec emax a t2 <> S754_nan ->
  SFleb (SFmul prec emax a t1) (SFmul prec emax a t2) = true.
Proof.
  intros Va V1 V2 Ha Hle N1 N2.
  destruct a as [sa|sa| |sa ma ea]; [| | |];
    try (destruct sa; try discriminate Ha).
  - destruct t1 as [s1|s1| |s1 m1 e1], t2 as [s2|s2| |s2 m2 e2];
      cbn [SFmul] in *; try congruence; reflexivity.
  - destruct t1 as [s1|s1| |s1 m1 e1], t2 as [s2|s2| |s2 m2 e2];
      cbn [SFmul] in *; try congruence; reflexivity.
  - destruct t1 as [s1|s1| |s1 m1 e1], t2 as [s2|s2| |s2 m2 e2];
      cbn [SFmul] in *; try congruence;
      destruct s1, s2; try discriminate Hle; reflexivity.
  - exfalso. apply N1. destruct t1; reflexivity.
  - cbn [SpecFloat.valid_binary] in Va.
    destruct t1 as [s1|s1| |s1 m1 e1], t2 as [s2|s2| |s2 m2 e2];
      try discriminate Hle; cbn [SpecFloat.valid_binary] in V1, V2;
      try (pose proof (@SFmul_numberOfSign false s1 ma m1 ea e1 Va V1) as Hr1);
      try (pose proof (@SFmul_numberOfSign false s2 ma m2 ea e2 Va V2) as Hr2);
      cbn [xorb] in *.
    + reflexivity.
    + destruct s2; [discriminate Hle|]. reflexivity.
    + destruct s2; [discriminate Hle|].
      apply SFleb_signs; [split; [exact I|discriminate]|exact Hr2].
    + destruct s1; [|discriminate Hle]. reflexivity.
    + destruct s1, s2; try discriminate Hle; reflexivity.
    + destruct s1; [|discriminate Hle].
      apply SFleb_infinity_l, Hr2.
    + destruct s1; [|discriminate Hle].
      apply SFleb_signs; [exact Hr1|split; [exact I|discriminate]].
    + destruct s2; [discriminate Hle|].
      apply SFleb_infinity_r, Hr1.
    + destruct s1, s2.
      * cbn [SFmul xorb]. rewrite !binary_round_aux_opp, SFleb_opp.
        apply SFmul_monotone; try assumption.
        change (S754_finite true m1 e1) with (SFopp (S754_finite false m1 e1))
          in Hle.
        change (S754_finite true m2 e2) with (SFopp (S754_finite false m2 e2))
          in Hle.
        rewrite SFleb_opp in Hle. exact Hle.
      * apply SFleb_signs; assumption.
      * discriminate Hle.
      * cbn [SFmul xorb]. apply SFmul_monotone; assumption.
Qed.

(** In binary64, [a * t1 <= a * t2] for [t1 <= t2] and [a] not below zero,
    unless a product is NaN. *)
Lemma mul_leb_mono (a t1 t2 : float) :
  PrimFloat.ltb a 0 = false -> PrimFloat.leb t1 t2 = true ->
  PrimFloat.is_nan (a * t1) = false -> PrimFloat.is_nan (a * t2) = false ->
  PrimFloat.leb (a * t1) (a * t2) = true.
Proof.
  unfold PrimFloat.is_nan.
  rewrite FloatAxioms.ltb_spec, !FloatAxioms.leb_spec, !FloatAxioms.eqb_spec,
    !FloatAxioms.mul_spec.
  change (Prim2SF 0%float) with (S754_zero false).
  intros Ha Hle N1 N2.
  apply SFmul_leb_mono; try apply Prim2SF_valid; try assumption.
  - intro Hn. unfold SF64mul in N1. rewrite Hn in N1. discriminate N1.
  - intro Hn. unfold SF64mul in N2. rewrite Hn in N2. discriminate N2.
Qed.

End FloatMonotone.

(* ------------------------------------------------------------------ *)
(** ** Binary64: a product against a bound *)

Module FloatCompare.

Lemma leb_not_ltb (x y : float) :
  PrimFloat.leb x y = true -> PrimFloat.ltb y x = false.
Proof.
  rewrite FloatAxioms.leb_spec, FloatAxioms.ltb_spec. unfold SFleb, SFltb.
  rewrite (FloatOrder.SFcompare_antisym (Prim2SF x) (Prim2SF y)).
  destruct (SFcompare (Prim2SF x) (Prim2SF y)) as [[]|]; simpl; congruence.
Qed.

Lemma leb_not_nan (x y : float) :
  PrimFloat.leb x y = true ->
  PrimFloat.is_nan x = false /\ PrimFloat.is_nan y = false.
Proof.
  intro Hle. split; apply FloatOrder.leb_refl_not_nan.
  - destruct (PrimFloat.leb x x) eqn:Hx; [reflexivity|exfalso].
    revert Hle Hx. rewrite !FloatAxioms.leb_spec. unfold SFleb, SFcompare.
    destruct (Prim2SF x) as [sx|sx| |sx mx ex],
      (Prim2SF y) as [sy|sy| |sy my ey];
      try destruct sx; try discriminate; intros _;
      rewrite ?Z.compare_refl;
      change (Pos.compare_cont Eq) with Pos.compare;
      rewrite ?Pos.compare_refl; discriminate.
  - destruct (PrimFloat.leb y y) eqn:Hy; [reflexivity|exfalso].
    revert Hle Hy. rewrite !FloatAxioms.leb_spec. unfold SFleb, SFcompare.
    destruct (Prim2SF x) as [sx|sx| |sx mx ex],
      (Prim2SF y) as [sy|sy| |sy my ey];
      try destruct sx; try destruct sy; try discriminate; intros _;
      rewrite ?Z.compare_refl;
      change (Pos.compare_cont Eq) with Pos.compare;
      rewrite ?Pos.compare_refl; discriminate.
Qed.

Lemma ltb_leb_trans (x y z : float) :
  PrimFloat.ltb x y = true -> PrimFloat.leb y z = true ->
  PrimFloat.ltb x z = true.
Proof.
  intros Hxy Hyz.
  destruct (PrimFloat.ltb x z) eqn:Hxz; [reflexivity|exfalso].
  destruct (FloatOrder.ltb_not_nan Hxy) as [Hx _].
  destruct (leb_not_nan Hyz) as [_ Hz].
  pose proof (@FloatOrder.ltb_false_leb x z Hxz Hx Hz) as Hzx.
  pose proof (@FloatFacts.leb_float_trans y z x Hyz Hzx) as Hyx.
  apply leb_not_ltb in Hyx. congruence.
Qed.

(** A number above [m * 2^e] is at least [(m + 1) * 2^e]. *)
Lemma ltb_next (a b x : float) (m : positive) (e : Z) :
  Prim2SF a = S754_finite false m e ->
  Prim2SF b = S754_finite false (Pos.succ m) e ->
  PrimFloat.ltb a x = true -> PrimFloat.leb b x = true.
Proof.
  rewrite FloatAxioms.ltb_spec, FloatAxioms.leb_spec. intros -> ->.
  unfold SFltb, SFleb, SFcompare.
  destruct (Prim2SF x) as [sx|sx| |sx mx ex]; try destruct sx;
    try discriminate; try reflexivity.
  destruct (Z.compare e ex); try discriminate; try reflexivity.
  change (Pos.compare_cont Eq) with Pos.compare.
  destruct (Pos.compare_spec m mx) as [Hm|Hm|Hm]; try discriminate.
  intros _. destruct (Pos.compare_spec (Pos.succ m) mx); try reflexivity. lia.
Qed.

Lemma mul_not_nan_r (c x : float) :
  PrimFloat.is_nan (c * x) = false -> PrimFloat.is_nan x = false.
Proof.
  unfold PrimFloat.is_nan.
  rewrite !FloatAxioms.eqb_spec, FloatAxioms.mul_spec.
  unfold SF64mul.
  destruct (Prim2SF x) as [sx|sx| |sx mx ex]; try reflexivity;
    try (intros _; unfold SFeqb, SFcompare; destruct sx;
         rewrite ?Z.compare_refl;
         change (Pos.compare_cont Eq) with Pos.compare;
         rewrite ?Pos.compare_refl; reflexivity).
  destruct (Prim2SF c); intro H; discriminate H.
Qed.

(** The product of a number above zero and a number above a number above
    zero is a number. *)
Lemma mul_above_not_nan (c low x : float) (m : positive) (e : Z) :
  PrimFloat.ltb 0 c = true ->
  Prim2SF low = S754_finite false m e ->
  PrimFloat.ltb low x = true ->
  PrimFloat.is_nan (c * x) = false.
Proof.
  unfold PrimFloat.is_nan.
  rewrite !FloatAxioms.ltb_spec, FloatAxioms.eqb_spec, FloatAxioms.mul_spec.
  change (Prim2SF 0%float) with (S754_zero false). intros Hc -> Hx.
  pose proof (Prim2SF_valid c) as Vc. pose proof (Prim2SF_valid x) as Vx.
  unfold SF64mul.
  destruct (Prim2SF c) as [sc|sc| |sc mc ec]; try destruct sc;
    try discriminate Hc;
    destruct (Prim2SF x) as [sx|sx| |sx mx ex]; try destruct sx;
    try discriminate Hx; try reflexivity.
  destruct (@FloatMonotone.SFmul_numberOfSign false false mc mx ec ex Vc Vx)
    as [Hs Hn].
  destruct (SFmul prec emax (S754_finite false mc ec)
              (S754_finite false mx ex)) as [s|s| |s m' e'];
    try congruence; unfold SFeqb, SFcompare; try destruct s;
    rewrite ?Z.compare_refl;
    change (Pos.compare_cont Eq) with Pos.compare;
    rewrite ?Pos.compare_refl; reflexivity.
Qed.

(** The product with a number [c] above zero is above a bound exactly when
    the other factor is above [low], for [low] and the number [next] after
    it such that [low * c] does not exceed the bound and [next * c] does. *)
Lemma mul_above_iff (c bound low next x : float) (m : positive) (e : Z) :
  PrimFloat.ltb 0 c = true ->
  Prim2SF low = S754_finite false m e ->
  Prim2SF next = S754_finite false (Pos.succ m) e ->
  PrimFloat.leb (low * c) bound = true ->
  PrimFloat.ltb bound (next * c) = true ->
  PrimFloat.ltb bound (x * c) = PrimFloat.ltb low x.
Proof.
  intros Hc Hlow Hnext Hb Hn.
  pose proof (FloatFacts.ltb_asym Hc) as Hc0.
  rewrite (FloatSymmetry.mul_comm x c).
  rewrite (FloatSymmetry.mul_comm low c) in Hb.
  rewrite (FloatSymmetry.mul_comm next c) in Hn.
  destruct (PrimFloat.ltb low x) eqn:Hx.
  - pose proof (@ltb_next low next x m e Hlow Hnext Hx) as Hle.
    apply ltb_leb_trans with (c * next)%float; [exact Hn|].
    apply FloatMonotone.mul_leb_mono; try assumption.
    + destruct (FloatOrder.ltb_not_nan Hn) as [_ H]. exact H.
    + exact (@mul_above_not_nan c low x m e Hc Hlow Hx).
  - destruct (PrimFloat.ltb bound (c * x)) eqn:Hbx; [exfalso|reflexivity].
    destruct (FloatOrder.ltb_not_nan Hbx) as [_ Hcx].
    pose proof (@mul_not_nan_r c x Hcx) as Hxn.
    assert (Hln : PrimFloat.is_nan low = false).
    { unfold PrimFloat.is_nan. rewrite FloatAxioms.eqb_spec, Hlow.
      unfold SFeqb, SFcompare. rewrite Z.compare_refl.
      change (Pos.compare_cont Eq) with Pos.compare.
      rewrite Pos.compare_refl. reflexivity. }
    pose proof (@FloatOrder.ltb_false_leb low x Hx Hln Hxn) as Hle.
    destruct (leb_not_nan Hb) as [Hcl _].
    pose proof (@FloatMonotone.mul_leb_mono c x low Hc0 Hle Hcx Hcl) as Hm.
    pose proof (@FloatFacts.leb_float_trans _ _ _ Hm Hb) as Hxb.
    apply leb_not_ltb in Hxb. congruence.
Qed.

End FloatCompare.

(* ------------------------------------------------------------------ *)
(** ** Binary64: addition and subtraction keep the order *)

Module FloatSums.

Import FloatRounding FloatMonotone.

Local Open Scope Z_scope.

Lemma digits_iter_xO (d : positive) :
  forall m : positive,
    Zpos (digits2_pos (Pos.iter xO m d)) = Zpos (digits2_pos m) + Zpos d.
Proof.
  induction d as [|d IH] using Pos.peano_ind; intro m.
  - cbn [Pos.iter digits2_pos]. lia.
  - rewrite Pos.iter_succ. cbn [digits2_pos]. rewrite Pos2Z.inj_succ, IH. lia.
Qed.

Lemma shl_align_spec (m : positive) (e e' : Z) :
  snd (shl_align m e e') = Z.min e e'
  /\ Zpos (fst (shl_align m e e')) = Zpos m * 2 ^ (e - Z.min e e')
  /\ Zpos (digits2_pos (fst (shl_align m e e')))
     = Zpos (digits2_pos m) + (e - Z.min e e').
Proof.
  unfold shl_align. destruct (e' - e) as [|d|d] eqn:Hd; cbn [fst snd].
  - replace (Z.min e e') with e by lia. rewrite Z.sub_diag. cbn. lia.
  - replace (Z.min e e') with e by lia. rewrite Z.sub_diag. cbn. lia.
  - replace (Z.min e e') with e' by lia.
    replace (e - e') with (Zpos d) by lia.
    rewrite FloatOrder.iter_xO, digits_iter_xO. lia.
Qed.

(** [binary_round] aligns the mantissa so that it is not coarser than it is
    rounded at, and keeps the value. *)
Lemma binary_round_aligned (sx : bool) (m : positive) (e : Z) :
  exists (mz : positive) (ez : Z),
    binary_round prec emax sx m e
    = binary_round_aux prec emax sx (Zpos mz) ez loc_Exact
    /\ ez <= targetExponent mz ez
    /\ Z.min e (SpecFloat.emin prec emax) <= ez <= e
    /\ Zpos mz = Zpos m * 2 ^ (e - ez).
Proof.
  unfold binary_round.
  pose proof (shl_align_spec m e
                (SpecFloat.fexp prec emax (Zpos (digits2_pos m) + e)))
    as (He & Hm & Hd).
  destruct (shl_align m e
              (SpecFloat.fexp prec emax (Zpos (digits2_pos m) + e)))
    as [mz ez]. cbn [fst snd] in *.
  exists mz, ez. split; [reflexivity|].
  unfold targetExponent. rewrite Hd, He, Hm. unfold SpecFloat.fexp.
  repeat split; try lia.
Qed.

Lemma binary_round_opp (m : positive) (e : Z) :
  binary_round prec emax true m e = SFopp (binary_round prec emax false m e).
Proof.
  unfold binary_round.
  destruct (shl_align m e _) as [mz ez]. apply binary_round_aux_opp.
Qed.

Lemma binary_round_numberOfSign (sx : bool) (m : positive) (e : Z) :
  numberOfSign sx (binary_round prec emax sx m e).
Proof.
  destruct (binary_round_aligned sx m e) as (mz & ez & -> & Hp & _).
  destruct (binary_round_aux_spec sx mz Hp) as (n & _ & Hn & ->).
  apply finish_numberOfSign. lia.
Qed.

Lemma binary_round_monotone (m1 m2 : positive) (e1 e2 c : Z) :
  c <= e1 -> c <= e2 -> c <= SpecFloat.emin prec emax ->
  Zpos m1 * 2 ^ (e1 - c) <= Zpos m2 * 2 ^ (e2 - c) ->
  SFleb (binary_round prec emax false m1 e1)
    (binary_round prec emax false m2 e2) = true.
Proof.
  intros Hc1 Hc2 Hc Hle.
  destruct (binary_round_aligned false m1 e1) as (z1 & f1 & -> & Hp1 & Hf1 & Hz1).
  destruct (binary_round_aligned false m2 e2) as (z2 & f2 & -> & Hp2 & Hf2 & Hz2).
  apply binary_round_aux_monotone with (c := c); try assumption; try lia.
  rewrite Hz1, Hz2, <- !Z.mul_assoc, <- !Z.pow_add_r by lia.
  replace (e1 - f1 + (f1 - c)) with (e1 - c) by lia.
  replace (e2 - f2 + (f2 - c)) with (e2 - c) by lia.
  exact Hle.
Qed.

(** Rounding is monotone on numbers of either sign. *)
Lemma binary_normalize_monotone (z1 z2 e1 e2 c : Z) (s1 s2 : bool) :
  c <= e1 -> c <= e2 -> c <= SpecFloat.emin prec emax ->
  z1 * 2 ^ (e1 - c) <= z2 * 2 ^ (e2 - c) ->
  SFleb (binary_normalize prec emax z1 e1 s1)
    (binary_normalize prec emax z2 e2 s2) = true.
Proof.
  intros Hc1 Hc2 Hc Hle.
  assert (Hq1 : 0 < 2 ^ (e1 - c)) by (apply pow2_pos; lia).
  assert (Hq2 : 0 < 2 ^ (e2 - c)) by (apply pow2_pos; lia).
  unfold binary_normalize.
  destruct z1 as [|p1|p1], z2 as [|p2|p2]; try nia.
  - reflexivity.
  - apply SFleb_signs; [split; [exact I|discriminate]|].
    apply binary_round_numberOfSign.
  - apply binary_round_monotone with (c := c); assumption.
  - apply SFleb_signs; [|split; [exact I|discriminate]].
    apply binary_round_numberOfSign.
  - apply SFleb_signs; apply binary_round_numberOfSign.
  - rewrite !binary_round_opp, SFleb_opp.
    apply binary_round_monotone with (c := c); try assumption.
    rewrite <- !Pos2Z.opp_pos in Hle. lia.
Qed.

(** Rounding a number of binary64 gives the number. *)
Lemma binary_round_finite (sx : bool) (m : positive) (e : Z) :
  SpecFloat.bounded prec emax m e = true ->
  binary_round prec emax sx m e = S754_finite sx m e.
Proof.
  intro Hb. pose proof (bounded_targetExponent _ _ Hb) as Ht.
  pose proof (bounded_exponent_le _ _ Hb) as He.
  unfold binary_round. fold (targetExponent m e). rewrite Ht.
  unfold shl_align. rewrite Z.sub_diag.
  assert (Hp : e <= targetExponent m e) by lia.
  destruct (binary_round_aux_spec sx m Hp) as (n & Hn & _ & ->).
  rewrite Ht, Z.sub_diag in Hn. change (2 ^ 0) with 1 in Hn.
  assert (Hnm : n = Zpos m) by (unfold nearestEven in Hn; lia). subst n.
  rewrite Ht. unfold finish.
  assert (Hd : Zpos (digits2_pos m) <= prec).
  { unfold targetExponent, SpecFloat.fexp in Ht. lia. }
  pose proof (FloatOrder.digits2_pos_bounds m) as [_ Hup].
  assert (Hpw : 2 ^ Zpos (digits2_pos m) <= 2 ^ prec)
    by (apply Z.pow_le_mono_r; lia).
  destruct (Z.eqb_spec (Zpos m) (2 ^ prec)) as [Heq|_]; [lia|].
  destruct (Z.leb_spec e (emax - prec)); [reflexivity|lia].
Qed.

Lemma binary_normalize_finite (sx s : bool) (m : positive) (e : Z) :
  SpecFloat.bounded prec emax m e = true ->
  binary_normalize prec emax (cond_Zopp sx (Zpos m)) e s = S754_finite sx m e.
Proof.
  intro Hb. destruct sx; cbn [cond_Zopp Z.opp binary_normalize];
    apply binary_round_finite, Hb.
Qed.

Lemma exponentOf_emin (f : spec_float) :
  SpecFloat.valid_binary prec emax f = true ->
  SpecFloat.emin prec emax <= exponentOf f.
Proof.
  destruct f as [s|s| |s m e]; cbn [exponentOf SpecFloat.valid_binary];
    try lia.
  apply FloatOrder.bounded_emin.
Qed.

(** The order of two numbers is the order of their values. *)
Lemma SFleb_scaledValue (y1 y2 : spec_float) (c : Z) :
  SpecFloat.valid_binary prec emax y1 = true ->
  SpecFloat.valid_binary prec emax y2 = true ->
  isFinite y1 = true -> isFinite y2 = true ->
  c <= SpecFloat.emin prec emax ->
  SFleb y1 y2 = true -> scaledValue y1 c <= scaledValue y2 c.
Proof.
  intros V1 V2 F1 F2 Hc Hle.
  pose proof (exponentOf_emin y1 V1) as He1.
  pose proof (exponentOf_emin y2 V2) as He2.
  assert (Hq1 : 0 < 2 ^ (exponentOf y1 - c)) by (apply pow2_pos; lia).
  assert (Hq2 : 0 < 2 ^ (exponentOf y2 - c)) by (apply pow2_pos; lia).
  unfold scaledValue.
  destruct y1 as [s1|s1| |s1 m1 e1], y2 as [s2|s2| |s2 m2 e2];
    try discriminate; cbn [signedMantissa exponentOf] in *;
    try destruct s1; try destruct s2; try discriminate Hle;
    cbn [cond_Zopp] in *; try nia.
  - change (S754_finite true m1 e1) with (SFopp (S754_finite false m1 e1))
      in Hle.
    change (S754_finite true m2 e2) with (SFopp (S754_finite false m2 e2))
      in Hle.
    rewrite SFleb_opp in Hle.
    pose proof (@SFleb_value m2 m1 e2 e1 c V2 V1 ltac:(lia) ltac:(lia) Hle).
    lia.
  - exact (@SFleb_value m1 m2 e1 e2 c V1 V2 ltac:(lia) ltac:(lia) Hle).
Qed.

(** The sum of two numbers is their exact sum, rounded. *)
Lemma SFadd_exact (x y : spec_float) :
  SpecFloat.valid_binary prec emax x = true ->
  SpecFloat.valid_binary prec emax y = true ->
  isFinite x = true -> isFinite y = true ->
  exists (z e : Z) (s : bool),
    SpecFloat.emin prec emax <= e
    /\ SFadd prec emax x y = binary_normalize prec emax z e s
    /\ forall c, c <= SpecFloat.emin prec emax ->
         z * 2 ^ (e - c) = scaledValue x c + scaledValue y c.
Proof.
  intros Vx Vy Fx Fy.
  pose proof (exponentOf_emin x Vx) as Hex.
  pose proof (exponentOf_emin y Vy) as Hey.
  destruct x as [sx|sx| |sx mx ex], y as [sy|sy| |sy my ey];
    try discriminate; cbn [SpecFloat.valid_binary exponentOf] in *.
  - exists 0, (SpecFloat.emin prec emax).
    destruct sx, sy; eexists; (split; [lia|split; [reflexivity|]]);
      intros; unfold scaledValue; cbn [signedMantissa]; lia.
  - exists (cond_Zopp sy (Zpos my)), ey, false.
    split; [assumption|]. split.
    + rewrite binary_normalize_finite by assumption. reflexivity.
    + intros. unfold scaledValue. cbn [signedMantissa exponentOf]. lia.
  - exists (cond_Zopp sx (Zpos mx)), ex, false.
    split; [assumption|]. split.
    + rewrite binary_normalize_finite by assumption. reflexivity.
    + intros. unfold scaledValue. cbn [signedMantissa exponentOf]. lia.
  - eexists _, (Z.min ex ey), false. split; [lia|].
    split; [reflexivity|]. intros c Hc.
    destruct (shl_align_spec mx ex (Z.min ex ey)) as (_ & Hmx & _).
    destruct (shl_align_spec my ey (Z.min ex ey)) as (_ & Hmy & _).
    replace (Z.min ex (Z.min ex ey)) with (Z.min ex ey) in Hmx by lia.
    replace (Z.min ey (Z.min ex ey)) with (Z.min ex ey) in Hmy by lia.
    unfold scaledValue. cbn [signedMantissa exponentOf].
    replace (ex - c) with ((ex - Z.min ex ey) + (Z.min ex ey - c)) by lia.
    replace (ey - c) with ((ey - Z.min ex ey) + (Z.min ex ey - c)) by lia.
    rewrite !Z.pow_add_r by lia.
    destruct sx, sy; cbn [cond_Zopp]; rewrite <- ?Pos2Z.opp_pos, Hmx, Hmy;
      ring.
Qed.

Lemma SFadd_finite_mono (x y1 y2 : spec_float) :
  SpecFloat.valid_binary prec emax x = true ->
  SpecFloat.valid_binary prec emax y1 = true ->
  SpecFloat.valid_binary prec emax y2 = true ->
  isFinite x = true -> isFinite y1 = true -> isFinite y2 = true ->
  SFleb y1 y2 = true ->
  SFleb (SFadd prec emax x y1) (SFadd prec emax x y2) = true.
Proof.
  intros Vx V1 V2 Fx F1 F2 Hle.
  destruct (SFadd_exact x y1 Vx V1 Fx F1) as (z1 & e1 & s1 & He1 & -> & Hz1).
  destruct (SFadd_exact x y2 Vx V2 Fx F2) as (z2 & e2 & s2 & He2 & -> & Hz2).
  apply binary_normalize_monotone with (c := SpecFloat.emin prec emax);
    try lia.
  rewrite Hz1, Hz2 by lia.
  pose proof (@SFleb_scaledValue y1 y2 (SpecFloat.emin prec emax) V1 V2 F1 F2
                ltac:(lia) Hle).
  lia.
Qed.

(** Adding to one number keeps the order, unless a sum is NaN. *)
Lemma SFadd_leb_mono_r (x y1 y2 : spec_float) :
  SpecFloat.valid_binary prec emax x = true ->
  SpecFloat.valid_binary prec emax y1 = true ->
  SpecFloat.valid_binary prec emax y2 = true ->
  SFleb y1 y2 = true ->
  SFadd prec emax x y1 <> S754_nan -> SFadd prec emax x y2 <> S754_nan ->
  SFleb (SFadd prec emax x y1) (SFadd prec emax x y2) = true.
Proof.
  intros Vx V1 V2 Hle N1 N2.
  destruct (isFinite x) eqn:Fx, (isFinite y1) eqn:F1, (isFinite y2) eqn:F2.
  - apply SFadd_finite_mono; assumption.
  - destruct y2 as [s2|s2| |s2 m2 e2]; try discriminate F2.
    + destruct s2.
      * destruct y1 as [s1|s1| |s1 m1 e1]; try discriminate F1;
          try destruct s1; discriminate Hle.
      * replace (SFadd prec emax x (S754_infinity false))
          with (S754_infinity false)
          by (destruct x as [sx|sx| |sx mx ex]; try discriminate Fx;
              reflexivity).
        apply SFleb_infinity_r, N1.
    + destruct y1; discriminate Hle.
  - destruct y1 as [s1|s1| |s1 m1 e1]; try discriminate F1.
    + destruct s1.
      * replace (SFadd prec emax x (S754_infinity true))
          with (S754_infinity true)
          by (destruct x as [sx|sx| |sx mx ex]; try discriminate Fx;
              reflexivity).
        apply SFleb_infinity_l, N2.
      * destruct y2 as [s2|s2| |s2 m2 e2]; try discriminate F2;
          try destruct s2; discriminate Hle.
    + discriminate Hle.
  - destruct y1 as [s1|s1| |s1 m1 e1]; try discriminate F1;
      [|discriminate Hle].
    destruct y2 as [s2|s2| |s2 m2 e2]; try discriminate F2;
      [|destruct s1; discriminate Hle].
    destruct s1, s2; try discriminate Hle;
      destruct x as [sx|sx| |sx mx ex]; try discriminate Fx; reflexivity.
  - destruct x as [sx|sx| |sx mx ex]; try discriminate Fx;
      [|exfalso; apply N1; reflexivity].
    destruct y1 as [s1|s1| |s1 m1 e1]; try discriminate F1;
      destruct y2 as [s2|s2| |s2 m2 e2]; try discriminate F2;
      destruct sx; reflexivity.
  - destruct x as [sx|sx| |sx mx ex]; try discriminate Fx;
      [|exfalso; apply N1; reflexivity].
    destruct y2 as [s2|s2| |s2 m2 e2]; try discriminate F2;
      [|destruct y1; discriminate Hle].
    destruct y1 as [s1|s1| |s1 m1 e1]; try discriminate F1;
      destruct sx, s2; cbn [SFadd] in *; try congruence; reflexivity.
  - destruct x as [sx|sx| |sx mx ex]; try discriminate Fx;
      [|exfalso; apply N1; reflexivity].
    destruct y1 as [s1|s1| |s1 m1 e1]; try discriminate F1;
      [|discriminate Hle].
    destruct y2 as [s2|s2| |s2 m2 e2]; try discriminate F2;
      destruct sx, s1; cbn [SFadd] in *; try congruence; reflexivity.
  - destruct x as [sx|sx| |sx mx ex]; try discriminate Fx;
      [|exfalso; apply N1; reflexivity].
    destruct y1 as [s1|s1| |s1 m1 e1]; try discriminate F1;
      [|discriminate Hle].
    destruct y2 as [s2|s2| |s2 m2 e2]; try discriminate F2;
      [|destruct s1; discriminate Hle].
    destruct sx, s1, s2; cbn [SFadd] in *; try congruence; reflexivity.
Qed.

Lemma SFsub_SFadd (x y : spec_float) :
  SFsub prec emax x y = SFadd prec emax x (SFopp y).
Proof.
  destruct x as [sx|sx| |sx mx ex], y as [sy|sy| |sy my ey];
    try destruct sx; try destruct sy; try reflexivity;
    cbn [SFsub SFadd SFopp negb cond_Zopp]; f_equal; lia.
Qed.

Lemma SFopp_valid (y : spec_float) :
  SpecFloat.valid_binary prec emax (SFopp y)
  = SpecFloat.valid_binary prec emax y.
Proof. destruct y; reflexivity. Qed.

Lemma is_nan_spec (x : float) :
  PrimFloat.is_nan x = false <-> Prim2SF x <> S754_nan.
Proof.
  unfold PrimFloat.is_nan. rewrite FloatAxioms.eqb_spec.
  unfold SFeqb, SFcompare.
  destruct (Prim2SF x) as [s|s| |s m e]; try destruct s;
    rewrite ?Z.compare_refl;
    change (Pos.compare_cont Eq) with Pos.compare;
    rewrite ?Pos.compare_refl; simpl;
    split; intro H; try reflexivity; try discriminate; congruence.
Qed.

(** In binary64, [x + y1 <= x + y2] for [y1 <= y2], unless a sum is NaN. *)
Lemma add_leb_mono_r (x y1 y2 : float) :
  PrimFloat.leb y1 y2 = true ->
  PrimFloat.is_nan (x + y1) = false -> PrimFloat.is_nan (x + y2) = false ->
  PrimFloat.leb (x + y1) (x + y2) = true.
Proof.
  rewrite !is_nan_spec, !FloatAxioms.leb_spec, !FloatAxioms.add_spec.
  intros Hle N1 N2.
  apply SFadd_leb_mono_r; try apply Prim2SF_valid; assumption.
Qed.

(** In binary64, [x - y2 <= x - y1] for [y1 <= y2], unless a difference is
    NaN. *)
Lemma sub_leb_mono_r (x y1 y2 : float) :
  PrimFloat.leb y1 y2 = true ->
  PrimFloat.is_nan (x - y1) = false -> PrimFloat.is_nan (x - y2) = false ->
  PrimFloat.leb (x - y2) (x - y1) = true.
Proof.
  rewrite !is_nan_spec, !FloatAxioms.leb_spec, !FloatAxioms.sub_spec.
  unfold SF64sub. rewrite !SFsub_SFadd. intros Hle N1 N2.
  apply SFadd_leb_mono_r; rewrite ?SFopp_valid; try apply Prim2SF_valid;
    try assumption.
  rewrite SFleb_opp. exact Hle.
Qed.

End FloatSums.

(* ------------------------------------------------------------------ *)
(** ** Binary64: numbers that stay numbers *)

Module FloatRanges.

Import FloatRounding FloatMonotone FloatSums.

Local Open Scope Z_scope.

Lemma binary_round_aux_finite (sx : bool) (m : positive) (e : Z) :
  SpecFloat.bounded prec emax m e = true ->
  binary_round_aux prec emax sx (Zpos m) e loc_Exact = S754_finite sx m e.
Proof.
  intro Hb. rewrite <- (binary_round_finite sx _ _ Hb).
  unfold binary_round. fold (targetExponent m e).
  rewrite (bounded_targetExponent _ _ Hb).
  unfold shl_align. rewrite Z.sub_diag. reflexivity.
Qed.

Lemma binary_normalize_not_nan (z e : Z) (s : bool) :
  binary_normalize prec emax z e s <> S754_nan.
Proof.
  destruct z as [|p|p]; cbn [binary_normalize]; [discriminate| |];
    apply binary_round_numberOfSign.
Qed.

(** Twice a number that is not below zero is not below the number. *)
Lemma mul_two_ge (x : float) :
  PrimFloat.ltb x 0 = false -> PrimFloat.is_nan x = false ->
  PrimFloat.leb x (x * 2) = true.
Proof.
  rewrite is_nan_spec, FloatAxioms.ltb_spec, FloatAxioms.leb_spec,
    FloatAxioms.mul_spec.
  change (Prim2SF 0%float) with (S754_zero false).
  change (Prim2SF 2%float) with (S754_finite false 4503599627370496 (-51)).
  pose proof (Prim2SF_valid x) as Vx. unfold SF64mul.
  destruct (Prim2SF x) as [s|s| |s m e]; try destruct s;
    try discriminate; try congruence; try reflexivity.
  intros _ _. cbn [SpecFloat.valid_binary] in Vx. cbn [SFmul xorb].
  rewrite <- (binary_round_aux_finite false _ _ Vx) at 1.
  apply binary_round_aux_monotone with (c := e + -51).
  - rewrite (bounded_targetExponent _ _ Vx). lia.
  - apply product_targetExponent; [exact Vx|reflexivity].
  - lia.
  - lia.
  - rewrite Pos2Z.inj_mul, Z.sub_diag.
    replace (e - (e + -51)) with 51 by lia.
    change (2 ^ 0) with 1. change (2 ^ 51) with 2251799813685248. lia.
Qed.

Lemma sqrt_not_negative (z : float) :
  PrimFloat.ltb (PrimFloat.sqrt z) 0 = false.
Proof.
  rewrite FloatSigns.not_negative_iff, FloatAxioms.sqrt_spec.
  unfold SF64sqrt, SFsqrt.
  destruct (Prim2SF z) as [s|s| |s m e]; try destruct s; try exact I;
    try reflexivity.
  destruct (SFsqrt_core_binary prec emax (Zpos m) e) as [[mz ez] lz].
  apply FloatSigns.signIs_signOrZero, FloatFacts.binary_round_aux_sign.
Qed.

Lemma sub_not_nan_inv (x y : float) :
  PrimFloat.is_nan (x - y) = false ->
  PrimFloat.is_nan x = false /\ PrimFloat.is_nan y = false.
Proof.
  rewrite !is_nan_spec, FloatAxioms.sub_spec. unfold SF64sub.
  destruct (Prim2SF x) as [sx|sx| |sx mx ex],
    (Prim2SF y) as [sy|sy| |sy my ey]; cbn [SFsub]; intro H;
    split; congruence.
Qed.

Lemma mul_not_nan_l (x c : float) :
  PrimFloat.is_nan (x * c) = false -> PrimFloat.is_nan x = false.
Proof.
  rewrite (FloatSymmetry.mul_comm x c). apply FloatCompare.mul_not_nan_r.
Qed.

(** A sum of two numbers that are not below zero is a number. *)
Lemma add_not_nan (x y : float) :
  PrimFloat.ltb x 0 = false -> PrimFloat.ltb y 0 = false ->
  PrimFloat.is_nan x = false -> PrimFloat.is_nan y = false ->
  PrimFloat.is_nan (x + y) = false.
Proof.
  rewrite !is_nan_spec, !FloatAxioms.ltb_spec, FloatAxioms.add_spec.
  change (Prim2SF 0%float) with (S754_zero false). unfold SF64add.
  destruct (Prim2SF x) as [sx|sx| |sx mx ex],
    (Prim2SF y) as [sy|sy| |sy my ey]; try destruct sx; try destruct sy;
    try discriminate; try congruence; intros _ _ _ _;
    apply binary_normalize_not_nan.
Qed.

Lemma add_zero_above (x : float) :
  PrimFloat.ltb 0 x = true -> (x + 0)%float = x.
Proof.
  rewrite FloatAxioms.ltb_spec. intro Hx. apply Prim2SF_inj.
  rewrite FloatAxioms.add_spec. revert Hx.
  change (Prim2SF 0%float) with (S754_zero false). unfold SF64add.
  destruct (Prim2SF x) as [sx|sx| |sx mx ex]; try destruct sx;
    try discriminate; reflexivity.
Qed.

Lemma sub_zero_above (x : float) :
  PrimFloat.ltb 0 x = true -> (x - 0)%float = x.
Proof.
  rewrite FloatAxioms.ltb_spec. intro Hx. apply Prim2SF_inj.
  rewrite FloatAxioms.sub_spec. revert Hx.
  change (Prim2SF 0%float) with (S754_zero false). unfold SF64sub.
  destruct (Prim2SF x) as [sx|sx| |sx mx ex]; try destruct sx;
    try discriminate; reflexivity.
Qed.

(** If [x - y * 2] is a number, so is [x - y]. *)
Lemma sub_half_not_nan (x y : float) :
  PrimFloat.is_nan (x - y * 2) = false -> PrimFloat.is_nan (x - y) = false.
Proof.
  rewrite !is_nan_spec, !FloatAxioms.sub_spec, FloatAxioms.mul_spec.
  change (Prim2SF 2%float) with (S754_finite false 4503599627370496 (-51)).
  unfold SF64sub, SF64mul.
  destruct (Prim2SF x) as [sx|sx| |sx mx ex],
    (Prim2SF y) as [sy|sy| |sy my ey]; try destruct sx; try destruct sy;
    cbn [SFmul SFsub xorb]; try congruence; intros _;
    apply binary_normalize_not_nan.
Qed.

End FloatRanges.

(* ------------------------------------------------------------------ *)
(** ** Binary64: NaN goes through *)

Module FloatNaN.

Lemma is_nan_true (x : float) :
  PrimFloat.is_nan x = true <-> Prim2SF x = S754_nan.
Proof.
  destruct (PrimFloat.is_nan x) eqn:Hn.
  - split; [intros _|reflexivity].
    destruct (Prim2SF x) as [s|s| |s m e] eqn:Hx; try reflexivity; exfalso;
      assert (H : PrimFloat.is_nan x = false)
        by (apply FloatSums.is_nan_spec; rewrite Hx; discriminate);
      congruence.
  - apply FloatSums.is_nan_spec in Hn. split; [discriminate|contradiction].
Qed.

Lemma abs_nan (x : float) :
  PrimFloat.is_nan x = true -> PrimFloat.is_nan (PrimFloat.abs x) = true.
Proof.
  rewrite !is_nan_true, FloatAxioms.abs_spec. intros ->. reflexivity.
Qed.

Lemma mul_nan_r (x y : float) :
  PrimFloat.is_nan y = true -> PrimFloat.is_nan (x * y) = true.
Proof.
  rewrite !is_nan_true, FloatAxioms.mul_spec. intros ->.
  destruct (Prim2SF x); reflexivity.
Qed.

Lemma mul_nan_l (x y : float) :
  PrimFloat.is_nan x = true -> PrimFloat.is_nan (x * y) = true.
Proof.
  rewrite !is_nan_true, FloatAxioms.mul_spec. intros ->. reflexivity.
Qed.

Lemma add_nan_r (x y : float) :
  PrimFloat.is_nan y = true -> PrimFloat.is_nan (x + y) = true.
Proof.
  rewrite !is_nan_true, FloatAxioms.add_spec. intros ->.
  destruct (Prim2SF x); reflexivity.
Qed.

Lemma div_nan_r (x y : float) :
  PrimFloat.is_nan y = true -> PrimFloat.is_nan (x / y) = true.
Proof.
  rewrite !is_nan_true, FloatAxioms.div_spec. intros ->.
  destruct (Prim2SF x); reflexivity.
Qed.

Lemma nan_not_above (x y : float) :
  PrimFloat.is_nan y = true -> PrimFloat.ltb x y = false.
Proof.
  rewrite is_nan_true, FloatAxioms.ltb_spec. intros ->.
  destruct (Prim2SF x); reflexivity.
Qed.

End FloatNaN.

(* ------------------------------------------------------------------ *)
(** ** Sorting with a comparison function that agrees with an order *)

Section SortOrder.

Context {A num : Type} `{Number num}.

Variable compareFn : A -> A -> num.
Variable inOrder : A -> A -> Prop.
Variable comparable : A -> Prop.

Hypothesis swap_inOrder : forall x y,
  comparable x -> comparable y ->
  ltb (of_Z 0) (compareFn x y) = true -> inOrder y x.
Hypothesis keep_inOrder : forall x y,
  comparable x -> comparable y ->
  ltb (of_Z 0) (compareFn x y) = false -> inOrder x y.
Hypothesis inOrder_trans : forall x y z,
  inOrder x y -> inOrder y z -> inOrder x z.

Lemma sort_insert_inOrder (x : A) (l : list A) :
  comparable x -> Forall comparable l ->
  StronglySorted inOrder l ->
  StronglySorted inOrder (sort_insert compareFn x l).
Proof.
  intros Hx Hl Hs. induction Hs as [|y l Hs IH Hy]; simpl.
  - constructor; constructor.
  - inversion Hl as [|? ? Hcy Hcl]; subst.
    destruct (ltb (of_Z 0) (compareFn x y)) eqn:Hxy.
    + constructor; [exact (IH Hcl)|].
      apply (Permutation_Forall
               (Permutation_sym (sort_insert_perm compareFn x l))).
      constructor; [exact (swap_inOrder Hx Hcy Hxy) | exact Hy].
    + pose proof (keep_inOrder Hx Hcy Hxy) as Hle.
      constructor; [constructor; assumption|].
      constructor; [exact Hle|].
      revert Hy. apply Forall_impl. intros z Hz.
      exact (inOrder_trans Hle Hz).
Qed.

Lemma Array_sort_inOrder (l : list A) :
  Forall comparable l -> StronglySorted inOrder (Array_sort compareFn l).
Proof.
  induction 1 as [|x l Hx Hl IH]; simpl.
  - constructor.
  - apply sort_insert_inOrder; [exact Hx| |exact IH].
    apply Array_sort_Forall, Hl.
Qed.

End SortOrder.

Lemma StronglySorted_filter {A : Type} (R : A -> A -> Prop) (p : A -> bool)
  (l : list A) :
  StronglySorted R l -> StronglySorted R (filter p l).
Proof.
  induction 1 as [|x l Hs IH Hx]; simpl.
  - constructor.
  - destruct (p x); [|exact IH].
    constructor; [exact IH|].
    rewrite Forall_forall in *. intros y Hy. apply filter_In in Hy.
    apply Hx, Hy.
Qed.

Lemma firstn_In {A : Type} (n : nat) (l : list A) (x : A) :
  In x (firstn n l) -> In x l.
Proof.
  intro Hin. rewrite <- (firstn_skipn n l). apply in_or_app. left. exact Hin.
Qed.

Lemma StronglySorted_firstn {A : Type} (R : A -> A -> Prop) (n : nat)
  (l : list A) :
  StronglySorted R l -> StronglySorted R (firstn n l).
Proof.
  intro Hs. revert n. induction Hs as [|x l Hs IH Hx]; intros [|n]; simpl;
    try constructor.
  - apply IH.
  - rewrite Forall_forall in *. intros y Hy. apply Hx.
    exact (firstn_In n l y Hy).
Qed.

Lemma StronglySorted_slice0 {A : Type} (R : A -> A -> Prop) (end_ : Z)
  (l : list A) :
  StronglySorted R l -> StronglySorted R (Array_slice0 l end_).
Proof.
  intro Hs. unfold Array_slice0.
  destruct (end_ <? 0)%Z; apply StronglySorted_firstn, Hs.
Qed.

Lemma Array_mapi_map {A B C : Type} (f : A -> nat -> B) (g : B -> C)
  (h : A -> C) (l : list A) :
  (forall x i, g (f x i) = h x) ->
  forall i, map g (Array_mapi f i l) = map h l.
Proof.
  intro Hfg. induction l as [|x l IH]; intro i; simpl.
  - reflexivity.
  - rewrite Hfg, IH. reflexivity.
Qed.

Lemma Array_mapi_In {A B : Type} (f : A -> nat -> B) (l : list A) (y : B) :
  forall i, In y (Array_mapi f i l) -> exists x k, In x l /\ y = f x k.
Proof.
  induction l as [|x l IH]; intros i; simpl.
  - contradiction.
  - intros [<-|Hin].
    + exists x, i. auto.
    + destruct (IH _ Hin) as (x' & k & Hx' & ->). exists x', k. auto.
Qed.

Lemma Array_mapi_sorted {A B C : Type} (R : C -> C -> Prop)
  (f : A -> nat -> B) (g : B -> C) (h : A -> C) (l : list A) :
  (forall x i, g (f x i) = h x) ->
  StronglySorted (fun x y => R (h x) (h y)) l ->
  forall i, StronglySorted (fun x y => R (g x) (g y)) (Array_mapi f i l).
Proof.
  intros Hfg Hs. induction Hs as [|x l Hs IH Hx]; intro i; simpl.
  - constructor.
  - constructor; [apply IH|].
    apply Forall_forall. intros y Hy.
    destruct (Array_mapi_In _ _ _ _ Hy) as (x' & k & Hx' & ->).
    rewrite !Hfg. rewrite Forall_forall in Hx. apply Hx, Hx'.
Qed.

Lemma Array_slice0_In {A : Type} (l : list A) (end_ : Z) (x : A) :
  In x (Array_slice0 l end_) -> In x l.
Proof.
  unfold Array_slice0. destruct (end_ <? 0)%Z; apply firstn_In.
Qed.

Lemma Array_slice0_length {A : Type} (l : list A) (end_ : Z) :
  (0 <= end_)%Z -> (Z.of_nat (List.length (Array_slice0 l end_)) <= end_)%Z.
Proof.
  intro Hend. unfold Array_slice0.
  destruct (end_ <? 0)%Z eqn:Hneg; [apply Z.ltb_lt in Hneg; lia|].
  rewrite length_firstn. lia.
Qed.

Lemma Array_mapi_rank {A B : Type} (f : A -> nat -> B) (rank : B -> nat)
  (l : list A) :
  (forall x i, rank (f x i) = (i + 1)%nat) ->
  forall i, map rank (Array_mapi f i l) = seq (i + 1) (List.length l).
Proof.
  intro Hr. induction l as [|x l IH]; intro i; simpl.
  - reflexivity.
  - rewrite Hr, IH. reflexivity.
Qed.

(* ------------------------------------------------------------------ *)
(** ** normCDF *)

Lemma normCDF_symmetric_binary64 (M : MathLib) (x : float) :
  PrimFloat.ltb 0 x = true ->
  normCDF (T := float_Transcendental M) x
  = (1 - normCDF (T := float_Transcendental M) (- x))%float.
Proof.
  intro Hx. unfold normCDF. cbv zeta.
  change (ltb (of_Z 0) x) with (PrimFloat.ltb 0 x).
  change (ltb (of_Z 0) (- x)%float) with (PrimFloat.ltb 0 (- x)%float).
  rewrite Hx, (FloatSymmetry.opp_positive Hx).
  change (Math_abs (- x)%float) with (PrimFloat.abs (- x)).
  change (Math_abs x) with (PrimFloat.abs x).
  rewrite FloatSymmetry.abs_opp.
  change (mul (neg (- x)%float) (- x)%float) with (- - x * - x)%float.
  rewrite FloatSymmetry.opp_involutive, (FloatSymmetry.mul_comm x (- x)).
  reflexivity.
Qed.

Lemma normCDF_nan (M : MathLib) (x : float) :
  PrimFloat.is_nan x = true ->
  PrimFloat.is_nan (normCDF (T := float_Transcendental M) x) = true.
Proof.
  intro Hx. unfold normCDF. cbv zeta.
  change (ltb (of_Z 0) x) with (PrimFloat.ltb 0 x).
  rewrite (@FloatNaN.nan_not_above 0 x Hx).
  change (@mul float float_Number) with PrimFloat.mul.
  change (@div float float_Number) with PrimFloat.div.
  change (@add float float_Number) with PrimFloat.add.
  change (@Math_abs float float_Number) with PrimFloat.abs.
  apply FloatNaN.mul_nan_l, FloatNaN.mul_nan_r, FloatNaN.div_nan_r,
    FloatNaN.add_nan_r, FloatNaN.mul_nan_r, FloatNaN.abs_nan, Hx.
Qed.

(** X1. normCDF, in binary64, whatever [Math.exp] returns.  For [x] above
    zero [normCDF x] is [1 - normCDF (-x)]: the two calls compute the same
    [prob], bit for bit.  For NaN the result is NaN. *)
Theorem normCDF_is_symmetric :
  (forall (M : MathLib) (x : float),
     PrimFloat.ltb 0 x = true ->
     normCDF (T := float_Transcendental M) x
     = (1 - normCDF (T := float_Transcendental M) (- x))%float)
  /\ (forall (M : MathLib) (x : float),
        PrimFloat.is_nan x = true ->
        PrimFloat.is_nan (normCDF (T := float_Transcendental M) x) = true).
Proof.
  split; [exact normCDF_symmetric_binary64|exact normCDF_nan].
Qed.

(* ------------------------------------------------------------------ *)
(** ** calculateGammaExposure and aggregateByStrike: the signs *)

Section AggregateInduction.

Context {num : Type} `{NumberLaws num} {T : Transcendental num}.

Variable this : GammaCalculator num.
Variable spotPrice : num.
Variable good : Contract num -> Prop.
Variable P : StrikeData num -> Prop.

Hypothesis P_fresh : forall strike, P (freshStrikeData strike).
Hypothesis P_accumulate : forall contract strikeData,
  good contract -> P strikeData ->
  P (accumulate (calculateGammaExposure this contract spotPrice) strikeData).

Lemma Map_modify_Forall_if (f : StrikeData num -> StrikeData num)
  (key : num) (m : StrikeMap num) :
  (forall v, P v -> P (f v)) ->
  Forall (fun e => P (snd e)) m ->
  Forall (fun e => P (snd e)) (Map_modify m key f).
Proof.
  intros Hf Hm. induction Hm as [|[k v] m Hv Hm IH]; simpl.
  - constructor.
  - destruct (sameValueZero k key); constructor; simpl; auto.
Qed.

Lemma aggregateStep_Forall_if (m : StrikeMap num) (contract : Contract num) :
  good contract ->
  Forall (fun e => P (snd e)) m ->
  Forall (fun e => P (snd e)) (aggregateStep this spotPrice m contract).
Proof.
  intros Hc Hm. unfold aggregateStep.
  apply Map_modify_Forall_if; [intros v Hv; apply P_accumulate; assumption|].
  destruct (Map_has m _); simpl; [exact Hm|].
  unfold Map_set_new. apply Forall_app. split; [exact Hm|].
  constructor; [apply (P_fresh (strike contract)) | constructor].
Qed.

Lemma aggregateByStrike_Forall_if (contracts : list (Contract num)) :
  Forall good contracts ->
  Forall P (aggregateByStrike this contracts spotPrice).
Proof.
  intro Hc. unfold aggregateByStrike. apply Array_sort_Forall.
  unfold Map_values. apply Forall_map. unfold aggregateFold.
  assert (Hgen : forall m, Forall (fun e => P (snd e)) m ->
            Forall (fun e => P (snd e))
              (fold_left (aggregateStep this spotPrice) contracts m)).
  { induction Hc as [|c l Hgood Hl IH]; intros m Hm; simpl.
    - exact Hm.
    - apply IH, aggregateStep_Forall_if; assumption. }
  apply Hgen. constructor.
Qed.

End AggregateInduction.

Section ExposureSigns.

Variable M : MathLib.
Variable this : GammaCalculator float.
Variable spotPrice : float.

Hypothesis exp_not_negative :
  forall x : float, PrimFloat.ltb (lib_exp M x) 0 = false.
Hypothesis spot_positive : PrimFloat.ltb 0 spotPrice = true.

Lemma calculateGamma_never_negative (strike timeToExpiry volatility : float) :
  PrimFloat.ltb 0 volatility = true ->
  PrimFloat.ltb
    (calculateGamma (T := float_Transcendental M) this spotPrice strike
       timeToExpiry volatility) 0 = false.
Proof.
  intro Hv. unfold calculateGamma.
  change (leb timeToExpiry (of_Z 0)) with (PrimFloat.leb timeToExpiry 0).
  destruct (PrimFloat.leb timeToExpiry 0) eqn:Ht; [reflexivity|].
  cbv zeta. apply FloatFacts.div_not_negative.
  - apply normPDF_not_negative, exp_not_negative.
  - apply FloatFacts.mul_signClear.
    + apply FloatFacts.mul_signClear; apply FloatFacts.positive_signClear;
        assumption.
    + apply FloatFacts.sqrt_signClear, FloatSigns.not_leb_zero_signClear, Ht.
Qed.

Lemma calculateGammaExposure_sign (contract : Contract float) :
  quoted contract ->
  if String.eqb (optionType contract) "call"
  then PrimFloat.ltb 0 (signedExposure M this spotPrice contract) = false
  else PrimFloat.ltb (signedExposure M this spotPrice contract) 0 = false.
Proof.
  intros [Hv Hoi]. unfold signedExposure, calculateGammaExposure. simpl.
  pose proof (FloatFacts.ltb_asym spot_positive) as Hs0.
  destruct (String.eqb (optionType contract) "call");
    [apply FloatSigns.opp_not_positive|];
    repeat apply FloatSigns.mul_not_negative; try assumption;
    try reflexivity; apply calculateGamma_never_negative, Hv.
Qed.

End ExposureSigns.

(** X2. The sign convention, in binary64.  At a spot above zero, with a
    [Math.exp] that returns nothing below zero, every contract with a
    volatility above zero and an open interest not below zero gets an
    exposure that is not above zero if it is a call and not below zero
    otherwise; and in every aggregate of such contracts [callGamma] is not
    above zero, [putGamma] and [totalOI] are not below zero. *)
Theorem exposure_signs_are_kept
  (M : MathLib) (this : GammaCalculator float)
  (contracts : list (Contract float)) (spotPrice : float) :
  (forall x : float, PrimFloat.ltb (lib_exp M x) 0 = false) ->
  PrimFloat.ltb 0 spotPrice = true ->
  Forall quoted contracts ->
  Forall
    (fun contract =>
       if String.eqb (optionType contract) "call"
       then PrimFloat.ltb 0 (signedExposure M this spotPrice contract) = false
       else PrimFloat.ltb (signedExposure M this spotPrice contract) 0 = false)
    contracts
  /\ Forall callsBelowPutsAbove
       (aggregateByStrike (T := float_Transcendental M) this contracts
          spotPrice).
Proof.
  intros Hexp Hspot Hq. split.
  - revert Hq. apply Forall_impl. intros c Hc.
    apply calculateGammaExposure_sign; assumption.
  - apply aggregateByStrike_Forall_if with (good := quoted); [| |exact Hq].
    + intro k. repeat split; reflexivity.
    + intros c sd Hc (Hcall & Hput & Hoi).
      pose proof (calculateGammaExposure_sign M this Hexp Hspot Hc) as Hs.
      unfold signedExposure, calculateGammaExposure in Hs. simpl in Hs.
      unfold callsBelowPutsAbove, accumulate. simpl.
      change (exp_optionType (calculateGammaExposure this c spotPrice))
        with (optionType c).
      assert (Hoi' : PrimFloat.ltb (totalOI sd + openInterest c) 0 = false)
        by (apply FloatSigns.add_not_negative; [exact Hoi | apply Hc]).
      destruct (String.eqb (optionType c) "call"); repeat split;
        try assumption.
      * apply FloatSigns.add_not_positive; assumption.
      * apply FloatSigns.add_not_negative; assumption.
Qed.

Lemma square_not_negative (y : float) : PrimFloat.ltb (y * y) 0 = false.
Proof.
  rewrite FloatSigns.not_negative_iff, FloatAxioms.mul_spec.
  unfold SF64mul, SFmul.
  destruct (Prim2SF y) as [s|s| |s m e]; simpl; trivial;
    try (destruct s; reflexivity).
  apply FloatSigns.signIs_signOrZero.
  replace (xorb s s) with false by (destruct s; reflexivity).
  apply FloatFacts.binary_round_aux_sign.
Qed.

Lemma squareTimes_not_negative (n : nat) :
  forall y, PrimFloat.ltb y 0 = false ->
            PrimFloat.ltb (HostExample.squareTimes n y) 0 = false.
Proof.
  induction n as [|n IH]; intros y Hy; simpl.
  - exact Hy.
  - apply IH, square_not_negative.
Qed.

Lemma example_exp_not_negative (x : float) :
  PrimFloat.ltb (lib_exp HostExample.mathLib x) 0 = false.
Proof.
  simpl. apply (squareTimes_not_negative 9), square_not_negative.
Qed.

Lemma exposure_signs_are_kept_witness :
  Forall callsBelowPutsAbove ChainExample.aggregates.
Proof.
  apply (proj2 (@exposure_signs_are_kept HostExample.mathLib
                  ChainExample.calculator ChainExample.chain 450%float
                  example_exp_not_negative eq_refl
                  ltac:(repeat constructor))).
Defined.

(* ------------------------------------------------------------------ *)
(** ** aggregateByStrike: the strikes of the aggregates *)

Section AggregateKeys.

Context {num : Type} {N : Number num} {T : Transcendental num}.

Variable this : GammaCalculator num.
Variable spotPrice : num.

Local Abbreviation step := (aggregateStep this spotPrice).

(** A step leaves the keys of the map as they are, or appends the strike of
    its contract. *)
Lemma aggregateStep_keys (m : StrikeMap num) (contract : Contract num) :
  map fst (step m contract)
  = if Map_has m (strike contract) then map fst m
    else map fst m ++ [strike contract].
Proof.
  unfold aggregateStep. simpl exp_strike. rewrite Map_modify_keys.
  destruct (Map_has m (strike contract)); simpl.
  - reflexivity.
  - unfold Map_set_new. rewrite map_app. reflexivity.
Qed.

Lemma aggregateFold_keys (contracts : list (Contract num)) :
  forall (m : StrikeMap num) (key : num),
    In key (map fst (fold_left step contracts m)) ->
    In key (map fst m) \/ exists c, In c contracts /\ key = strike c.
Proof.
  induction contracts as [|c l IH]; intros m key Hin; simpl in Hin.
  - left. exact Hin.
  - destruct (IH _ _ Hin) as [Hk|(c' & Hc' & ->)].
    + rewrite aggregateStep_keys in Hk.
      destruct (Map_has m (strike c)); [left; exact Hk|].
      apply in_app_or in Hk. destruct Hk as [Hk|[<-|[]]].
      * left. exact Hk.
      * right. exists c. split; [left; reflexivity | reflexivity].
    + right. exists c'. split; [right; exact Hc' | reflexivity].
Qed.

Lemma aggregateFold_length (contracts : list (Contract num)) :
  forall m : StrikeMap num,
    (List.length (fold_left step contracts m)
     <= List.length m + List.length contracts)%nat.
Proof.
  induction contracts as [|c l IH]; intro m; simpl.
  - lia.
  - specialize (IH (step m c)).
    assert (Hs : (List.length (step m c) <= S (List.length m))%nat).
    { rewrite <- (length_map fst), aggregateStep_keys.
      destruct (Map_has m (strike c)).
      - rewrite length_map. lia.
      - rewrite length_app, length_map. simpl. lia. }
    lia.
Qed.

Lemma keyIsStrike_strikes (m : StrikeMap num) :
  Forall keyIsStrike m -> map sd_strike (Map_values m) = map fst m.
Proof.
  unfold Map_values. induction 1 as [|[k v] m Hv Hm IH]; simpl.
  - reflexivity.
  - unfold keyIsStrike in Hv. simpl in Hv. rewrite IH, Hv. reflexivity.
Qed.

End AggregateKeys.

Section AggregateKeysLaws.

Context {num : Type} `{NumberLaws num} {T : Transcendental num}.

Variable this : GammaCalculator num.
Variable spotPrice : num.

Lemma aggregateFold_strikes (contracts : list (Contract num)) :
  map sd_strike (Map_values (aggregateFold this contracts spotPrice))
  = map fst (aggregateFold this contracts spotPrice).
Proof.
  apply keyIsStrike_strikes. unfold aggregateFold.
  apply aggregateFold_keyIsStrike. constructor.
Qed.

Lemma aggregateByStrike_strike (contracts : list (Contract num))
  (strikeData : StrikeData num) :
  In strikeData (aggregateByStrike this contracts spotPrice) ->
  exists c, In c contracts /\ sd_strike strikeData = strike c.
Proof.
  unfold aggregateByStrike. intro Hin. apply Array_sort_In in Hin.
  apply (in_map sd_strike) in Hin. rewrite aggregateFold_strikes in Hin.
  unfold aggregateFold in Hin.
  destruct (aggregateFold_keys _ _ _ _ _ Hin) as [[]|Hc]. exact Hc.
Qed.

End AggregateKeysLaws.

(** X3. aggregateByStrike makes its objects from the contracts: the strike
    of every aggregate is the strike of a contract of the input, there are
    at most as many aggregates as contracts, and no contracts give no
    aggregates. *)
Theorem aggregates_are_the_strikes_of_the_contracts
  (num : Type) `(NumberLaws num) `(Transcendental num)
  (this : GammaCalculator num) (contracts : list (Contract num))
  (spotPrice : num) :
  (forall strikeData,
     In strikeData (aggregateByStrike this contracts spotPrice) ->
     exists contract,
       In contract contracts /\ sd_strike strikeData = strike contract)
  /\ (List.length (aggregateByStrike this contracts spotPrice)
      <= List.length contracts)%nat
  /\ (contracts = [] -> aggregateByStrike this contracts spotPrice = []).
Proof.
  split; [|split].
  - intros strikeData Hin. eapply aggregateByStrike_strike; eassumption.
  - unfold aggregateByStrike.
    rewrite (Permutation_length (Array_sort_perm _ _)).
    unfold Map_values. rewrite length_map.
    exact (aggregateFold_length this spotPrice contracts []).
  - intros ->. reflexivity.
Qed.

Lemma aggregates_are_the_strikes_of_the_contracts_witness :
  (List.length ChainExample.aggregates <= List.length ChainExample.chain)%nat.
Proof.
  apply (proj1 (proj2 (@aggregates_are_the_strikes_of_the_contracts
                         float float_Number float_NumberLaws
                         (float_Transcendental HostExample.mathLib)
                         ChainExample.calculator ChainExample.chain
                         450%float))).
Defined.

Section AggregateAscending.

Context {num : Type} {N : Number num} {L : OrderLaws num}
  {T : Transcendental num}.

Variable this : GammaCalculator num.
Variable spotPrice : num.

Local Abbreviation step := (aggregateStep this spotPrice).

Lemma distinctKeys_app (keys : list num) (key : num) :
  distinctKeys keys ->
  Forall (fun k => sameValueZero k key = false) keys ->
  distinctKeys (keys ++ [key]).
Proof.
  unfold distinctKeys. induction 1 as [|k keys Hk Hkeys IH]; simpl; intro Hall.
  - constructor; constructor.
  - inversion Hall as [|? ? Hkk Hall']; subst.
    constructor; [|apply IH, Hall'].
    apply Forall_app. split; [exact Hk|]. constructor; [exact Hkk|constructor].
Qed.

Lemma Map_has_false_Forall (m : StrikeMap num) (key : num) :
  Map_has m key = false ->
  Forall (fun k => sameValueZero k key = false) (map fst m).
Proof.
  unfold Map_has. induction m as [|[k v] m IH]; simpl; intro Hm.
  - constructor.
  - apply orb_false_iff in Hm. destruct Hm as [Hk Hm].
    constructor; [exact Hk | exact (IH Hm)].
Qed.

Lemma aggregateFold_distinctKeys (contracts : list (Contract num)) :
  forall m : StrikeMap num,
    distinctKeys (map fst m) ->
    distinctKeys (map fst (fold_left step contracts m)).
Proof.
  induction contracts as [|c l IH]; intros m Hm; simpl.
  - exact Hm.
  - apply IH. rewrite aggregateStep_keys.
    destruct (Map_has m (strike c)) eqn:Hhas; [exact Hm|].
    apply distinctKeys_app; [exact Hm|].
    apply Map_has_false_Forall, Hhas.
Qed.

Lemma distinctKeys_Permutation (l1 l2 : list num) :
  Permutation l1 l2 -> distinctKeys l1 -> distinctKeys l2.
Proof.
  unfold distinctKeys.
  induction 1 as [|x l1 l2 Hp IH|x y l|l1 l2 l3 Hp12 IH12 Hp23 IH23];
    intro Hd.
  - constructor.
  - inversion Hd as [|? ? Hx Hl]; subst. constructor.
    + exact (Permutation_Forall Hp Hx).
    + apply IH, Hl.
  - inversion Hd as [|? ? Hy Hl]; subst.
    inversion Hl as [|? ? Hx Hl']; subst.
    inversion Hy as [|? ? Hyx Hy']; subst.
    constructor; [|constructor; assumption].
    constructor; [|assumption].
    rewrite sameValueZero_sym. exact Hyx.
  - apply IH23, IH12, Hd.
Qed.

Lemma sort_by_strike_ascending (l : list (StrikeData num)) :
  Forall (fun sd => comparable (sd_strike sd)) l ->
  StronglySorted (fun a b => leb (sd_strike a) (sd_strike b) = true)
    (Array_sort (fun a b => sub (sd_strike a) (sd_strike b)) l).
Proof.
  apply Array_sort_inOrder.
  - intros x y _ _ Hgt. rewrite sub_above_zero in Hgt. apply ltb_leb, Hgt.
  - intros x y Hx Hy Hgt. rewrite sub_above_zero in Hgt.
    apply leb_total; assumption.
  - intros x y z. apply leb_transitive.
Qed.

Lemma ascending_distinct (l : list (StrikeData num)) :
  StronglySorted (fun a b => leb (sd_strike a) (sd_strike b) = true) l ->
  distinctKeys (map sd_strike l) ->
  StronglySorted (fun a b => ltb (sd_strike a) (sd_strike b) = true) l.
Proof.
  unfold distinctKeys.
  induction 1 as [|x l Hs IH Hx]; simpl; intro Hd.
  - constructor.
  - inversion Hd as [|? ? Hdx Hdl]; subst.
    constructor; [apply IH, Hdl|].
    rewrite Forall_forall in *. intros y Hy.
    apply leb_distinct; [apply Hx, Hy|].
    apply Hdx, in_map, Hy.
Qed.

End AggregateAscending.

(** X4. aggregateByStrike returns the aggregates in strictly ascending
    order of strike, no strike twice, when no contract has the strike NaN.
    The sort compares by [a.strike - b.strike]; in binary64 the difference
    is above zero exactly when [b.strike < a.strike], which makes the
    comparison function an order. *)
Theorem aggregates_are_in_ascending_strike_order
  (num : Type) (N : Number num) (L : OrderLaws num) (T : Transcendental num)
  (this : GammaCalculator num) (contracts : list (Contract num))
  (spotPrice : num) :
  Forall (fun c => leb (strike c) (strike c) = true) contracts ->
  StronglySorted (fun a b => ltb (sd_strike a) (sd_strike b) = true)
    (aggregateByStrike this contracts spotPrice).
Proof.
  intro Hc.
  assert (HL : NumberLaws num).
  { split; [apply sameValueZero_reflexive | apply leb_transitive]. }
  assert (Hcomp : Forall (fun sd => comparable (sd_strike sd))
                    (Map_values (aggregateFold this contracts spotPrice))).
  { apply Forall_forall. intros sd Hsd.
    apply (in_map sd_strike) in Hsd. rewrite aggregateFold_strikes in Hsd.
    unfold aggregateFold in Hsd.
    destruct (aggregateFold_keys _ _ _ _ _ Hsd) as [[]|(c & Hin & Hk)].
    rewrite Hk. rewrite Forall_forall in Hc. apply Hc, Hin. }
  unfold aggregateByStrike.
  apply ascending_distinct.
  - apply sort_by_strike_ascending, Hcomp.
  - apply (distinctKeys_Permutation
             (l1 := map sd_strike
                      (Map_values (aggregateFold this contracts spotPrice)))).
    + apply Permutation_map, Permutation_sym, Array_sort_perm.
    + rewrite aggregateFold_strikes. unfold aggregateFold.
      apply aggregateFold_distinctKeys. constructor.
Qed.

Lemma aggregates_are_in_ascending_strike_order_witness :
  StronglySorted (fun a b => PrimFloat.ltb (sd_strike a) (sd_strike b) = true)
    ChainExample.aggregates.
Proof.
  apply (@aggregates_are_in_ascending_strike_order float float_Number
           float_OrderLaws (float_Transcendental HostExample.mathLib)
           ChainExample.calculator ChainExample.chain 450%float).
  repeat constructor.
Defined.

(* ------------------------------------------------------------------ *)
(** ** calculateExpectedMove *)

(** X8. calculateExpectedMove, in binary64.  For a price above zero and a
    volatility that is not below zero, whenever the lower two-deviation
    bound is a number (not NaN), the ranges are nested around the price:
    [lower2SD <= lower1SD <= currentPrice <= upper1SD <= upper2SD], and the
    two-deviation move is not below the one-deviation move.  Rounding does
    not break the order: binary64 addition, subtraction and multiplication
    are monotone. *)
Theorem expected_move_ranges_are_nested
  (currentPrice impliedVolatility daysToExpiry : float) :
  let move :=
    calculateExpectedMove currentPrice impliedVolatility daysToExpiry in
  PrimFloat.ltb 0 currentPrice = true ->
  PrimFloat.ltb impliedVolatility 0 = false ->
  PrimFloat.is_nan (lower2SD move) = false ->
  PrimFloat.leb (lower2SD move) (lower1SD move) = true
  /\ PrimFloat.leb (lower1SD move) currentPrice = true
  /\ PrimFloat.leb currentPrice (upper1SD move) = true
  /\ PrimFloat.leb (upper1SD move) (upper2SD move) = true
  /\ PrimFloat.leb (expectedMove1SD move) (expectedMove2SD move) = true.
Proof.
  cbv zeta. unfold calculateExpectedMove. cbv zeta.
  cbn [lower2SD lower1SD upper1SD upper2SD expectedMove1SD expectedMove2SD].
  change (of_Z 2 : float) with 2%float.
  change (@Math_sqrt float float_Number) with PrimFloat.sqrt.
  change (@mul float float_Number) with PrimFloat.mul.
  change (@add float float_Number) with PrimFloat.add.
  change (@sub float float_Number) with PrimFloat.sub.
  set (move :=
         (currentPrice * impliedVolatility
          * PrimFloat.sqrt (div daysToExpiry (of_Z 365)))%float).
  intros Hprice Hiv Hlow.
  pose proof (FloatFacts.ltb_asym Hprice) as Hprice0.
  assert (Hm0 : PrimFloat.ltb move 0 = false).
  { unfold move. repeat apply FloatSigns.mul_not_negative; try assumption.
    apply FloatRanges.sqrt_not_negative. }
  destruct (FloatRanges.sub_not_nan_inv _ _ Hlow) as [Hpn Hm2n].
  pose proof (FloatRanges.mul_not_nan_l _ _ Hm2n) as Hmn.
  pose proof (FloatRanges.mul_two_ge Hm0 Hmn) as Hm12.
  assert (H0m : PrimFloat.leb 0 move = true).
  { apply FloatOrder.ltb_false_leb; try assumption. reflexivity. }
  assert (Hm20 : PrimFloat.ltb (move * 2) 0 = false).
  { apply FloatSigns.mul_not_negative; [assumption|reflexivity]. }
  pose proof (FloatRanges.sub_half_not_nan _ _ Hlow) as Hlow1.
  pose proof (FloatRanges.add_not_nan Hprice0 Hm0 Hpn Hmn) as Hup1.
  pose proof (FloatRanges.add_not_nan Hprice0 Hm20 Hpn Hm2n) as Hup2.
  repeat split.
  - apply FloatSums.sub_leb_mono_r; assumption.
  - rewrite <- (FloatRanges.sub_zero_above Hprice) at 2.
    apply FloatSums.sub_leb_mono_r; try assumption.
    rewrite (FloatRanges.sub_zero_above Hprice). exact Hpn.
  - rewrite <- (FloatRanges.add_zero_above Hprice) at 1.
    apply FloatSums.add_leb_mono_r; try assumption.
    rewrite (FloatRanges.add_zero_above Hprice). exact Hpn.
  - apply FloatSums.add_leb_mono_r; assumption.
  - exact Hm12.
Qed.

Lemma expected_move_ranges_are_nested_witness :
  let move := calculateExpectedMove 580%float 0.2%float 30%float in
  PrimFloat.leb (lower2SD move) (lower1SD move) = true
  /\ PrimFloat.leb (lower1SD move) 580 = true
  /\ PrimFloat.leb 580 (upper1SD move) = true
  /\ PrimFloat.leb (upper1SD move) (upper2SD move) = true
  /\ PrimFloat.leb (expectedMove1SD move) (expectedMove2SD move) = true.
Proof.
  apply (@expected_move_ranges_are_nested 580%float 0.2%float 30%float);
    reflexivity.
Defined.

(* ------------------------------------------------------------------ *)
(** ** getAverageIVAndDTE: the contracts nearest the money *)

Lemma sum_of_map {A B num : Type} `{Number num} (g : A -> B) (f : B -> num)
  (l : list A) :
  sum_of f (map g l) = sum_of (fun x => f (g x)) l.
Proof.
  unfold sum_of. generalize (of_Z 0).
  induction l as [|x l IH]; intro a; simpl.
  - reflexivity.
  - apply IH.
Qed.

Lemma length_of_map {A B num : Type} `{Number num} (g : A -> B) (l : list A) :
  length_of (num := num) (map g l) = length_of l.
Proof. unfold length_of. rewrite length_map. reflexivity. Qed.

Lemma StronglySorted_split {A : Type} (R : A -> A -> Prop) (n : nat)
  (l : list A) :
  StronglySorted R l ->
  forall a b, In a (firstn n l) -> In b (skipn n l) -> R a b.
Proof.
  intro Hs. revert n. induction Hs as [|x l Hs IH Hx]; intros [|n] a b;
    simpl; try contradiction.
  intros [<-|Ha] Hb.
  - rewrite Forall_forall in Hx. apply Hx.
    rewrite <- (firstn_skipn n l). apply in_or_app. right. exact Hb.
  - exact (IH n a b Ha Hb).
Qed.

Lemma firstn_min_length {A : Type} (n : nat) (l : list A) :
  firstn (Nat.min n (List.length l)) l = firstn n l.
Proof.
  revert n. induction l as [|x l IH]; intros [|n]; simpl; try reflexivity.
  rewrite IH. reflexivity.
Qed.

Section AtmSelection.

Context {num : Type} {N : Number num} {L : OrderLaws num}.

Variable window : Window num.

Lemma getAverageIVAndDTE_atmIV (c : Contract num) (l : list (Contract num)) :
  atmIV (getAverageIVAndDTE window (Some (c :: l)))
  = div
      (sum_of impliedVolatility
         (map wd_contract
            (firstn 10 (sortedByDistance window (c :: l)))))
      (length_of
         (map wd_contract
            (firstn 10 (sortedByDistance window (c :: l))))).
Proof.
  unfold getAverageIVAndDTE. cbv beta iota zeta delta [atmIV].
  rewrite sum_of_map, length_of_map.
  unfold sortedByDistance, distanceFromAmbient.
  rewrite firstn_min_length. reflexivity.
Qed.

End AtmSelection.

Section AtmNearest.

Context {num : Type} {N : Number num} {L : OrderLaws num}.

Variable window : Window num.

Lemma sortedByDistance_sorted (contracts : list (Contract num)) :
  Forall (fun c => comparable (distanceFromAmbient window c)) contracts ->
  StronglySorted (fun a b => leb (wd_distance a) (wd_distance b) = true)
    (sortedByDistance window contracts).
Proof.
  intro Hc. unfold sortedByDistance. apply Array_sort_inOrder
    with (comparable := fun a => comparable (wd_distance a)).
  - intros x y _ _ Hgt. rewrite sub_above_zero in Hgt. apply ltb_leb, Hgt.
  - intros x y Hx Hy Hgt. rewrite sub_above_zero in Hgt.
    apply leb_total; assumption.
  - intros x y z. apply leb_transitive.
  - apply Forall_map. exact Hc.
Qed.

Lemma sortedByDistance_distance (contracts : list (Contract num)) :
  Forall (fun item =>
            wd_distance item = distanceFromAmbient window (wd_contract item))
    (sortedByDistance window contracts).
Proof.
  unfold sortedByDistance. apply Array_sort_Forall, Forall_map.
  apply Forall_forall. intros c _. reflexivity.
Qed.

Lemma sortedByDistance_contracts (contracts : list (Contract num)) :
  Permutation (map wd_contract (sortedByDistance window contracts)) contracts.
Proof.
  unfold sortedByDistance.
  apply perm_trans
    with (map wd_contract
            (map (fun c => {| wd_contract := c;
                              wd_distance := distanceFromAmbient window c |})
               contracts)).
  - apply Permutation_map, Array_sort_perm.
  - rewrite map_map. simpl. rewrite map_id. apply Permutation_refl.
Qed.

End AtmNearest.

(** X9. getAverageIVAndDTE: [atmIV] is the average volatility of the
    contracts nearest the ambient price.  For a chain that is not empty and
    whose distances are no NaN, the chain splits into [min 10 n] contracts
    and the others, none of the former farther from the ambient price than
    any of the latter, and [atmIV] is the average over the former. *)
Theorem atm_iv_averages_the_nearest_contracts
  (num : Type) (N : Number num) (L : OrderLaws num) (window : Window num)
  (contracts : list (Contract num)) :
  contracts <> [] ->
  Forall (fun c => comparable (distanceFromAmbient window c)) contracts ->
  exists nearest others,
    Permutation contracts (nearest ++ others)
    /\ List.length nearest = Nat.min 10 (List.length contracts)
    /\ (forall a b, In a nearest -> In b others ->
          leb (distanceFromAmbient window a) (distanceFromAmbient window b)
          = true)
    /\ atmIV (getAverageIVAndDTE window (Some contracts))
       = div (sum_of impliedVolatility nearest) (length_of nearest).
Proof.
  intros Hne Hc.
  exists (map wd_contract (firstn 10 (sortedByDistance window contracts))),
    (map wd_contract (skipn 10 (sortedByDistance window contracts))).
  split; [|split; [|split]].
  - rewrite <- map_app, firstn_skipn.
    apply Permutation_sym, sortedByDistance_contracts.
  - rewrite length_map, length_firstn.
    rewrite <- (Permutation_length (sortedByDistance_contracts window contracts)).
    rewrite length_map. reflexivity.
  - intros a b Ha Hb.
    apply in_map_iff in Ha, Hb.
    destruct Ha as (ia & <- & Ha), Hb as (ib & <- & Hb).
    pose proof (sortedByDistance_distance window contracts) as Hd.
    rewrite Forall_forall in Hd.
    rewrite <- (Hd ia), <- (Hd ib).
    + exact (StronglySorted_split 10 (sortedByDistance_sorted window Hc)
               ia ib Ha Hb).
    + rewrite <- (firstn_skipn 10). apply in_or_app. right. exact Hb.
    + rewrite <- (firstn_skipn 10). apply in_or_app. left. exact Ha.
  - destruct contracts as [|c l]; [contradiction|].
    apply getAverageIVAndDTE_atmIV.
Qed.

Lemma atm_iv_averages_the_nearest_contracts_witness :
  exists nearest others,
    Permutation AtmExample.chain (nearest ++ others)
    /\ List.length nearest = 10%nat
    /\ (forall a b, In a nearest -> In b others ->
          PrimFloat.leb
            (distanceFromAmbient AtmExample.unset a)
            (distanceFromAmbient AtmExample.unset b) = true)
    /\ atmIV (getAverageIVAndDTE AtmExample.unset
                (Some AtmExample.chain))
       = div (sum_of impliedVolatility nearest) (length_of nearest).
Proof.
  apply (@atm_iv_averages_the_nearest_contracts float float_Number
           float_OrderLaws AtmExample.unset
           AtmExample.chain).
  - discriminate.
  - repeat constructor.
Defined.

(* ------------------------------------------------------------------ *)
(** ** getAverageIVAndDTE: the price it reads *)

(** A comparison function that returns no number above zero on the elements
    of an array leaves the array as it is. *)
Lemma Array_sort_unordered {A num : Type} `{Number num}
  (compareFn : A -> A -> num) (l : list A) :
  (forall x y, In x l -> In y l -> ltb (of_Z 0) (compareFn x y) = false) ->
  Array_sort compareFn l = l.
Proof.
  induction l as [|x l IH]; intro Hc; [reflexivity|].
  cbn [Array_sort]. rewrite IH.
  - destruct l as [|y l]; [reflexivity|].
    cbn [sort_insert]. rewrite Hc; [reflexivity|left; reflexivity|].
    right. left. reflexivity.
  - intros a b Ha Hb. apply Hc; right; assumption.
Qed.

Section AtmUnordered.

Variable window : Window float.

Hypothesis ambient_nan : PrimFloat.is_nan (ambientPrice window) = true.

Lemma distanceFromAmbient_nan (c : Contract float) :
  PrimFloat.is_nan (distanceFromAmbient window c) = true.
Proof.
  unfold distanceFromAmbient. apply FloatNaN.abs_nan.
  destruct (PrimFloat.is_nan (sub (strike c) (ambientPrice window))) eqn:Hn;
    [reflexivity|].
  destruct (@FloatRanges.sub_not_nan_inv (strike c) (ambientPrice window) Hn)
    as [_ Hp].
  congruence.
Qed.

(** Every distance is NaN, so is every difference of two, and the sort
    moves nothing. *)
Lemma sortedByDistance_unordered (contracts : list (Contract float)) :
  map wd_contract (sortedByDistance window contracts) = contracts.
Proof.
  unfold sortedByDistance. rewrite Array_sort_unordered.
  - rewrite map_map. cbn [wd_contract]. apply map_id.
  - intros a b Ha _. apply in_map_iff in Ha. destruct Ha as (c & <- & _).
    cbn [wd_distance].
    destruct (PrimFloat.is_nan
                (sub (distanceFromAmbient window c) (wd_distance b))) eqn:Hn.
    + apply FloatNaN.nan_not_above, Hn.
    + destruct (@FloatRanges.sub_not_nan_inv (distanceFromAmbient window c)
                  (wd_distance b) Hn) as [Hc _].
      rewrite distanceFromAmbient_nan in Hc. discriminate Hc.
Qed.

Lemma getAverageIVAndDTE_unordered (contracts : list (Contract float)) :
  contracts <> [] ->
  atmIV (getAverageIVAndDTE window (Some contracts))
  = div (sum_of impliedVolatility (firstn 10 contracts))
      (length_of (firstn 10 contracts)).
Proof.
  intro Hne. destruct contracts as [|c l]; [contradiction|].
  rewrite getAverageIVAndDTE_atmIV, <- firstn_map, sortedByDistance_unordered.
  reflexivity.
Qed.

End AtmUnordered.

(** C1 fails of the code.  [getAverageIVAndDTE] takes no spot and reads
    [window.currentPrice || 450]: on the same eleven contracts [atmIV] is
    0.25 in a state where the property is undefined and 0.275 in a state
    where it is 100.  In a state where the value read is NaN as a number,
    such as the page, where the property is the text field of the price,
    every distance is NaN, the sort leaves the contracts in the order of the
    list, and [atmIV] is the average over the first ten of the list, wherever
    the price stands: 0.275 on the example chain, 0.25 on the same contracts
    with the ten at 450 first.  The price the application holds, the one
    the comments in the function speak of and the one [app.js] sorts its
    preview of the strikes closest to spot by, never reaches the
    function. *)
Theorem getAverageIVAndDTE_reads_window :
  atmIV (getAverageIVAndDTE AtmExample.unset (Some AtmExample.chain))
  = 0.25%float
  /\ atmIV (getAverageIVAndDTE {| window_currentPrice := wv_number 100%float |}
              (Some AtmExample.chain)) = 0.27500000000000002%float
  /\ (forall (window : Window float) (contracts : list (Contract float)),
        contracts <> [] ->
        PrimFloat.is_nan (ambientPrice window) = true ->
        atmIV (getAverageIVAndDTE window (Some contracts))
        = div (sum_of impliedVolatility (firstn 10 contracts))
            (length_of (firstn 10 contracts)))
  /\ PrimFloat.is_nan (ambientPrice AtmExample.page) = true
  /\ atmIV (getAverageIVAndDTE AtmExample.page (Some AtmExample.chain))
     = 0.27500000000000002%float
  /\ atmIV (getAverageIVAndDTE AtmExample.page
              (Some AtmExample.chainReversed)) = 0.25%float.
Proof.
  split; [vm_compute; reflexivity|].
  split; [vm_compute; reflexivity|].
  split.
  - intros window contracts Hne Hn.
    exact (@getAverageIVAndDTE_unordered window Hn contracts Hne).
  - repeat split; vm_compute; reflexivity.
Qed.
(* ------------------------------------------------------------------ *)
(** ** getIVLevel *)

(** X11. getIVLevel, in binary64.  The level is HIGH exactly for a
    volatility above the number [0.4], MODERATE for one above [0.25] and
    not above [0.4], and LOW otherwise, NaN included: [iv * 100 > 40] and
    [iv > 0.4] agree on every number although the product is rounded
    ([0.4 * 100] is 40, and the next number after [0.4] times 100 is above
    40).  The level and the style class always go together: HIGH with
    alert-error, MODERATE with alert-warning, LOW with alert-success. *)
Theorem iv_level_thresholds :
  (forall iv : float,
     iv_level (getIVLevel iv)
     = if PrimFloat.ltb 0.4 iv then "HIGH"%string
       else if PrimFloat.ltb 0.25 iv then "MODERATE"%string
       else "LOW"%string)
  /\ (forall (num : Type) (N : Number num) (iv : num),
        In (iv_level (getIVLevel iv), iv_class (getIVLevel iv))
          [("HIGH", "alert-error"); ("MODERATE", "alert-warning");
           ("LOW", "alert-success")]%string).
Proof.
  split.
  - intro iv. unfold getIVLevel. cbv zeta.
    change (ltb (of_Z 40) (mul iv (of_Z 100)))
      with (PrimFloat.ltb 40 (iv * 100)).
    change (ltb (of_Z 25) (mul iv (of_Z 100)))
      with (PrimFloat.ltb 25 (iv * 100)).
    rewrite (@FloatCompare.mul_above_iff 100 40 0.4 (next_up 0.4) iv
               7205759403792794 (-54) eq_refl eq_refl eq_refl eq_refl eq_refl).
    rewrite (@FloatCompare.mul_above_iff 100 25 0.25 (next_up 0.25) iv
               4503599627370496 (-54) eq_refl eq_refl eq_refl eq_refl eq_refl).
    destruct (PrimFloat.ltb 0.4 iv); [reflexivity|].
    destruct (PrimFloat.ltb 0.25 iv); reflexivity.
  - intros num N iv. unfold getIVLevel. cbv zeta.
    destruct (ltb (of_Z 40) _); [simpl; auto|].
    destruct (ltb (of_Z 25) _); simpl; auto.
Qed.

(* ------------------------------------------------------------------ *)
(** ** findCallWalls and findPutWalls: the walls *)

Section WallShape.

Context {num : Type} `{Number num}.

Variable this : WallAnalyzer num.
Variable gammaExposures : list (StrikeData num).
Variable currentPrice : num.
Variable maxWalls : Z.

Lemma Array_slice0_nil {A : Type} (end_ : Z) : Array_slice0 (@nil A) end_ = [].
Proof. unfold Array_slice0. destruct (end_ <? 0)%Z; apply firstn_nil. Qed.

Lemma findCallWalls_shape :
  findCallWalls this gammaExposures currentPrice maxWalls
  = Array_mapi (wallOf "call_wall") 0
      (Array_slice0 (significantCalls this gammaExposures currentPrice)
         maxWalls).
Proof.
  unfold findCallWalls, significantCalls, callThreshold.
  fold (callCandidates gammaExposures currentPrice).
  destruct (callCandidates gammaExposures currentPrice) as [|c l] eqn:Hc.
  - simpl. rewrite Array_slice0_nil. reflexivity.
  - reflexivity.
Qed.

Lemma findPutWalls_shape :
  findPutWalls this gammaExposures currentPrice maxWalls
  = Array_mapi (wallOf "put_wall") 0
      (Array_slice0 (significantPuts this gammaExposures currentPrice)
         maxWalls).
Proof.
  unfold findPutWalls, significantPuts, putThreshold.
  fold (putCandidates gammaExposures currentPrice).
  destruct (putCandidates gammaExposures currentPrice) as [|c l] eqn:Hc.
  - simpl. rewrite Array_slice0_nil. reflexivity.
  - reflexivity.
Qed.

Lemma callCandidates_In (c : Candidate num) :
  In c (callCandidates gammaExposures currentPrice) ->
  exists ge,
    In ge gammaExposures /\ ltb (callGamma ge) (of_Z 0) = true
    /\ c = {| cand_strike := sd_strike ge;
              exposure := Math_abs (callGamma ge);
              rawExposure := callGamma ge;
              distance := Math_abs (sub (sd_strike ge) currentPrice) |}.
Proof.
  unfold callCandidates. intro Hin. apply Array_sort_In in Hin.
  apply in_map_iff in Hin. destruct Hin as (ge & <- & Hge).
  apply filter_In in Hge. destruct Hge as [Hge Hneg].
  exists ge. auto.
Qed.

Lemma putCandidates_In (c : Candidate num) :
  In c (putCandidates gammaExposures currentPrice) ->
  exists ge,
    In ge gammaExposures /\ ltb (of_Z 0) (putGamma ge) = true
    /\ c = {| cand_strike := sd_strike ge;
              exposure := putGamma ge;
              rawExposure := putGamma ge;
              distance := Math_abs (sub (sd_strike ge) currentPrice) |}.
Proof.
  unfold putCandidates. intro Hin. apply Array_sort_In in Hin.
  apply in_map_iff in Hin. destruct Hin as (ge & <- & Hge).
  apply filter_In in Hge. destruct Hge as [Hge Hneg].
  exists ge. auto.
Qed.

End WallShape.

(** X12. findCallWalls and findPutWalls invent nothing: every call wall is
    labelled call_wall, reaches the call threshold in absolute value and
    carries the strike, the call exposure (below zero) and the distance from
    the current price of one of the aggregates; and so every put wall, with
    the put exposure (above zero) and the put threshold. *)
Theorem walls_come_from_aggregates
  (num : Type) (N : Number num) (this : WallAnalyzer num)
  (gammaExposures : list (StrikeData num)) (currentPrice : num)
  (maxWalls : Z) :
  (forall wall,
     In wall (findCallWalls this gammaExposures currentPrice maxWalls) ->
     wallType wall = "call_wall"%string
     /\ leb (callThreshold this gammaExposures currentPrice)
          (Math_abs (exposureValue wall)) = true
     /\ exists ge,
          In ge gammaExposures
          /\ ltb (callGamma ge) (of_Z 0) = true
          /\ wall_strike wall = sd_strike ge
          /\ exposureValue wall = callGamma ge
          /\ distanceFromSpot wall
             = Math_abs (sub (sd_strike ge) currentPrice))
  /\ (forall wall,
        In wall (findPutWalls this gammaExposures currentPrice maxWalls) ->
        wallType wall = "put_wall"%string
        /\ leb (putThreshold this gammaExposures currentPrice)
             (exposureValue wall) = true
        /\ exists ge,
             In ge gammaExposures
             /\ ltb (of_Z 0) (putGamma ge) = true
             /\ wall_strike wall = sd_strike ge
             /\ exposureValue wall = putGamma ge
             /\ distanceFromSpot wall
                = Math_abs (sub (sd_strike ge) currentPrice)).
Proof.
  split; intros wall Hin.
  - rewrite findCallWalls_shape in Hin.
    destruct (Array_mapi_In _ _ _ _ Hin) as (c & k & Hc & ->).
    apply Array_slice0_In in Hc. unfold significantCalls in Hc.
    apply filter_In in Hc. destruct Hc as [Hc Hth].
    destruct (callCandidates_In _ _ _ Hc) as (ge & Hge & Hneg & ->).
    simpl in *. split; [reflexivity|]. split; [exact Hth|].
    exists ge. auto.
  - rewrite findPutWalls_shape in Hin.
    destruct (Array_mapi_In _ _ _ _ Hin) as (c & k & Hc & ->).
    apply Array_slice0_In in Hc. unfold significantPuts in Hc.
    apply filter_In in Hc. destruct Hc as [Hc Hth].
    destruct (putCandidates_In _ _ _ Hc) as (ge & Hge & Hpos & ->).
    simpl in *. split; [reflexivity|]. split; [exact Hth|].
    exists ge. auto.
Qed.

Lemma walls_come_from_aggregates_witness :
  let wall :=
    {| wall_strike := 105%float; exposureValue := (-6)%float;
       wallType := "call_wall"; distanceFromSpot := 5%float;
       significanceRank := 2 |} in
  wallType wall = "call_wall"%string
  /\ leb (callThreshold new_WallAnalyzer WallExample.chain 100%float)
       (Math_abs (exposureValue wall)) = true
  /\ exists ge,
       In ge WallExample.chain
       /\ ltb (callGamma ge) (of_Z 0) = true
       /\ wall_strike wall = sd_strike ge
       /\ exposureValue wall = callGamma ge
       /\ distanceFromSpot wall = Math_abs (sub (sd_strike ge) 100%float).
Proof.
  exact (proj1 (@walls_come_from_aggregates float float_Number
                  new_WallAnalyzer WallExample.chain 100%float 5%Z) _
           (or_intror (or_introl eq_refl))).
Defined.

(** X13. findCallWalls and findPutWalls: the significance ranks of the walls
    returned are 1, 2, ... in the order of the list, and for [maxWalls] not
    below zero at most [maxWalls] walls are returned. *)
Theorem walls_are_ranked_and_capped
  (num : Type) (N : Number num) (this : WallAnalyzer num)
  (gammaExposures : list (StrikeData num)) (currentPrice : num)
  (maxWalls : Z) :
  let callWalls := findCallWalls this gammaExposures currentPrice maxWalls in
  let putWalls := findPutWalls this gammaExposures currentPrice maxWalls in
  map significanceRank callWalls = seq 1 (List.length callWalls)
  /\ map significanceRank putWalls = seq 1 (List.length putWalls)
  /\ ((0 <= maxWalls)%Z ->
      (Z.of_nat (List.length callWalls) <= maxWalls)%Z
      /\ (Z.of_nat (List.length putWalls) <= maxWalls)%Z).
Proof.
  cbv zeta. rewrite findCallWalls_shape, findPutWalls_shape.
  rewrite !Array_mapi_length.
  split; [|split].
  - apply (Array_mapi_rank _ (@significanceRank num)). reflexivity.
  - apply (Array_mapi_rank _ (@significanceRank num)). reflexivity.
  - intro Hmax. split; apply Array_slice0_length, Hmax.
Qed.

Lemma walls_are_ranked_and_capped_witness :
  (Z.of_nat
     (List.length (findCallWalls new_WallAnalyzer WallExample.chain 100%float 1))
   <= 1)%Z.
Proof.
  apply (proj2 (proj2 (@walls_are_ranked_and_capped float float_Number
                         new_WallAnalyzer WallExample.chain 100%float 1%Z))).
  lia.
Defined.

Section WallOrder.

Context {num : Type} `{OrderLaws num}.

Variable this : WallAnalyzer num.
Variable gammaExposures : list (StrikeData num).
Variable currentPrice : num.
Variable maxWalls : Z.

Lemma sorted_by_exposure (candidates : list (Candidate num)) :
  Forall (fun c => comparable (exposure c)) candidates ->
  StronglySorted (fun a b => leb (exposure b) (exposure a) = true)
    (Array_sort (fun a b => sub (exposure b) (exposure a)) candidates).
Proof.
  apply Array_sort_inOrder.
  - intros x y _ _ Hgt. rewrite sub_above_zero in Hgt.
    apply ltb_leb, Hgt.
  - intros x y Hx Hy Hgt. rewrite sub_above_zero in Hgt.
    apply leb_total; assumption.
  - intros x y z Hxy Hyz. exact (leb_transitive _ _ _ Hyz Hxy).
Qed.

Lemma callCandidates_sorted :
  StronglySorted (fun a b => leb (exposure b) (exposure a) = true)
    (callCandidates gammaExposures currentPrice).
Proof.
  unfold callCandidates. apply sorted_by_exposure.
  apply Forall_map, Forall_forall. intros ge Hge. simpl.
  apply filter_In in Hge. destruct Hge as [_ Hneg].
  apply abs_comparable. exact (proj1 (ltb_comparable _ _ Hneg)).
Qed.

Lemma putCandidates_sorted :
  StronglySorted (fun a b => leb (exposure b) (exposure a) = true)
    (putCandidates gammaExposures currentPrice).
Proof.
  unfold putCandidates. apply sorted_by_exposure.
  apply Forall_map, Forall_forall. intros ge Hge. simpl.
  apply filter_In in Hge. destruct Hge as [_ Hpos].
  exact (proj2 (ltb_comparable _ _ Hpos)).
Qed.

End WallOrder.

Lemma candidates_abs {num : Type} {N : Number num}
  (gammaExposures : list (StrikeData num)) (currentPrice : num) :
  Forall (fun c => exposure c = Math_abs (rawExposure c))
    (callCandidates gammaExposures currentPrice).
Proof.
  apply Forall_forall. intros c Hc.
  destruct (callCandidates_In _ _ _ Hc) as (ge & _ & _ & ->). reflexivity.
Qed.

Lemma StronglySorted_impl_In {A : Type} (R1 R2 : A -> A -> Prop) (l : list A) :
  (forall x y, In x l -> In y l -> R1 x y -> R2 x y) ->
  StronglySorted R1 l -> StronglySorted R2 l.
Proof.
  intros Himpl Hs. induction Hs as [|x l Hs IH Hx].
  - constructor.
  - constructor.
    + apply IH. intros a b Ha Hb. apply Himpl; right; assumption.
    + rewrite Forall_forall in *. intros y Hy.
      apply Himpl; [left; reflexivity | right; exact Hy | apply Hx, Hy].
Qed.

(** X14. findCallWalls and findPutWalls list the walls from the largest
    exposure down: every call wall has an absolute exposure at least that of
    each wall after it, and every put wall an exposure at least that of
    each wall after it. *)
Theorem walls_are_listed_by_descending_exposure
  (num : Type) (N : Number num) (L : OrderLaws num)
  (this : WallAnalyzer num) (gammaExposures : list (StrikeData num))
  (currentPrice : num) (maxWalls : Z) :
  StronglySorted
    (fun w1 w2 =>
       leb (Math_abs (exposureValue w2)) (Math_abs (exposureValue w1)) = true)
    (findCallWalls this gammaExposures currentPrice maxWalls)
  /\ StronglySorted
       (fun w1 w2 => leb (exposureValue w2) (exposureValue w1) = true)
       (findPutWalls this gammaExposures currentPrice maxWalls).
Proof.
  split.
  - rewrite findCallWalls_shape.
    apply (Array_mapi_sorted (fun x y => leb (Math_abs y) (Math_abs x) = true)
             (wallOf "call_wall") (@exposureValue num) (@rawExposure num)).
    + reflexivity.
    + apply StronglySorted_slice0. unfold significantCalls.
      apply StronglySorted_filter.
      pose proof (candidates_abs gammaExposures currentPrice) as Habs.
      rewrite Forall_forall in Habs.
      apply StronglySorted_impl_In
        with (R1 := fun a b => leb (exposure b) (exposure a) = true).
      * intros x y Hx Hy. rewrite (Habs x Hx), (Habs y Hy). trivial.
      * apply callCandidates_sorted.
  - rewrite findPutWalls_shape.
    apply (Array_mapi_sorted (fun x y => leb y x = true)
             (wallOf "put_wall") (@exposureValue num) (@rawExposure num)).
    + reflexivity.
    + apply StronglySorted_slice0. unfold significantPuts.
      apply StronglySorted_filter.
      apply StronglySorted_impl_In
        with (R1 := fun a b => leb (exposure b) (exposure a) = true).
      * intros x y Hx Hy.
        destruct (putCandidates_In _ _ _ Hx) as (gx & _ & _ & ->).
        destruct (putCandidates_In _ _ _ Hy) as (gy & _ & _ & ->).
        trivial.
      * apply putCandidates_sorted.
Qed.

Lemma walls_are_listed_by_descending_exposure_witness :
  StronglySorted
    (fun w1 w2 => PrimFloat.leb (exposureValue w2) (exposureValue w1) = true)
    (findPutWalls new_WallAnalyzer ChainExample.aggregates 450%float 5).
Proof.
  exact (proj2 (@walls_are_listed_by_descending_exposure float float_Number
                  float_OrderLaws new_WallAnalyzer ChainExample.aggregates
                  450%float 5%Z)).
Defined.

(* ------------------------------------------------------------------ *)
(** ** findCallWalls and findPutWalls: the significance threshold in binary64 *)

Section WallThresholdBinary64.

Variables low high : WallAnalyzer float.
Variable gammaExposures : list (StrikeData float).
Variable currentPrice : float.
Variable maxWalls : Z.

Hypothesis thresholds_ordered :
  PrimFloat.leb (minSignificanceThreshold low) (minSignificanceThreshold high)
  = true.

Lemma callCandidates_not_negative :
  Forall (fun c => PrimFloat.ltb (exposure c) 0 = false)
    (callCandidates gammaExposures currentPrice).
Proof.
  unfold callCandidates. apply Array_sort_Forall, Forall_map.
  apply Forall_forall. intros ge _. cbn [exposure].
  apply FloatSigns.not_negative_iff, FloatSigns.signIs_signOrZero.
  exact (FloatFacts.abs_signClear (callGamma ge)).
Qed.

Lemma putCandidates_not_negative :
  Forall (fun c => PrimFloat.ltb (exposure c) 0 = false)
    (putCandidates gammaExposures currentPrice).
Proof.
  unfold putCandidates. apply Array_sort_Forall, Forall_map.
  apply Forall_forall. intros ge Hge. cbn [exposure].
  apply filter_In in Hge. destruct Hge as [_ Hge].
  exact (FloatFacts.ltb_asym Hge).
Qed.

(** No candidate reaches a cut-off that is NaN. *)
Lemma nan_cutoff_keeps_nothing (cutoff : float)
  (candidates : list (Candidate float)) :
  PrimFloat.is_nan cutoff = true ->
  filter (fun c => leb cutoff (exposure c)) candidates = [].
Proof.
  intro Hn. induction candidates as [|c l IH]; [reflexivity|].
  cbn [filter]. rewrite IH.
  destruct (leb cutoff (exposure c)) eqn:Hle; [exfalso|reflexivity].
  destruct (FloatCompare.leb_not_nan Hle) as [H _]. congruence.
Qed.

Lemma findCallWalls_mono_binary64 :
  PrimFloat.is_nan (callThreshold low gammaExposures currentPrice) = false ->
  (List.length (findCallWalls high gammaExposures currentPrice maxWalls)
   <= List.length (findCallWalls low gammaExposures currentPrice maxWalls))%nat.
Proof.
  intro Hlow.
  destruct (PrimFloat.is_nan (callThreshold high gammaExposures currentPrice))
    eqn:Hhigh.
  - rewrite (findCallWalls_length high), nan_cutoff_keeps_nothing,
      Array_slice0_nil by exact Hhigh.
    apply Nat.le_0_l.
  - apply findCallWalls_mono. unfold callThreshold in *.
    apply FloatMonotone.mul_leb_mono; try assumption.
    apply sum_not_negative, callCandidates_not_negative.
Qed.

Lemma findPutWalls_mono_binary64 :
  PrimFloat.is_nan (putThreshold low gammaExposures currentPrice) = false ->
  (List.length (findPutWalls high gammaExposures currentPrice maxWalls)
   <= List.length (findPutWalls low gammaExposures currentPrice maxWalls))%nat.
Proof.
  intro Hlow.
  destruct (PrimFloat.is_nan (putThreshold high gammaExposures currentPrice))
    eqn:Hhigh.
  - rewrite (findPutWalls_length high), nan_cutoff_keeps_nothing,
      Array_slice0_nil by exact Hhigh.
    apply Nat.le_0_l.
  - apply findPutWalls_mono. unfold putThreshold in *.
    apply FloatMonotone.mul_leb_mono; try assumption.
    apply sum_not_negative, putCandidates_not_negative.
Qed.

End WallThresholdBinary64.

(** C8, amended.  Raising the significance threshold never increases the
    number of walls, unless the cut-off is NaN.  In binary64, for every
    aggregate list, spot and [maxWalls] and every two thresholds with
    [t1 <= t2]: if the cut-off of the calls at [t1] (the total exposure of
    the call candidates times [t1]) is a number, [findCallWalls] returns no
    more walls at [t2] than at [t1]; and so [findPutWalls], with the cut-off
    of the puts.  In real arithmetic, where no cut-off is NaN, this holds
    for every [t1 <= t2]. *)
Theorem wall_count_monotone_in_threshold :
  (forall (low high : WallAnalyzer float)
     (gammaExposures : list (StrikeData float)) (currentPrice : float)
     (maxWalls : Z),
     PrimFloat.leb (minSignificanceThreshold low)
       (minSignificanceThreshold high) = true ->
     (PrimFloat.is_nan (callThreshold low gammaExposures currentPrice) = false ->
      (List.length (findCallWalls high gammaExposures currentPrice maxWalls)
       <= List.length
            (findCallWalls low gammaExposures currentPrice maxWalls))%nat)
     /\ (PrimFloat.is_nan (putThreshold low gammaExposures currentPrice)
         = false ->
         (List.length (findPutWalls high gammaExposures currentPrice maxWalls)
          <= List.length
               (findPutWalls low gammaExposures currentPrice maxWalls))%nat))
  /\ (forall (low high : WallAnalyzer R)
        (gammaExposures : list (StrikeData R)) (currentPrice : R)
        (maxWalls : Z),
        (minSignificanceThreshold low <= minSignificanceThreshold high)%R ->
        (List.length (findCallWalls high gammaExposures currentPrice maxWalls)
         <= List.length
              (findCallWalls low gammaExposures currentPrice maxWalls))%nat
        /\ (List.length
              (findPutWalls high gammaExposures currentPrice maxWalls)
            <= List.length
                 (findPutWalls low gammaExposures currentPrice maxWalls))%nat).
Proof.
  split.
  - intros low high gammaExposures currentPrice maxWalls Hle. split; intro Hn.
    + exact (@findCallWalls_mono_binary64 low high gammaExposures currentPrice
               maxWalls Hle Hn).
    + exact (@findPutWalls_mono_binary64 low high gammaExposures currentPrice
               maxWalls Hle Hn).
  - intros low high gammaExposures currentPrice maxWalls Hle.
    destruct (thresholds_ordered_real low high gammaExposures currentPrice Hle)
      as [Hcall Hput].
    split.
    + apply findCallWalls_mono, Hcall.
    + apply findPutWalls_mono, Hput.
Qed.

(** Call exposures of 90, 6 and 4 in binary64: significance 0.5 against
    0.05. *)
Lemma wall_count_monotone_in_threshold_witness :
  (List.length
     (findCallWalls {| minSignificanceThreshold := 0.5%float |}
        WallExample.chain 100%float 5%Z)
   <= List.length
        (findCallWalls {| minSignificanceThreshold := 0.05%float |}
           WallExample.chain 100%float 5%Z))%nat.
Proof.
  apply (proj1 (proj1 wall_count_monotone_in_threshold
                  {| minSignificanceThreshold := 0.05%float |}
                  {| minSignificanceThreshold := 0.5%float |}
                  WallExample.chain 100%float 5%Z eq_refl)).
  vm_compute. reflexivity.
Defined.

(* ------------------------------------------------------------------ *)
(** ** From the contracts to the walls *)

Section AggregateEntries.

Context {num : Type} {N : Number num} {T : Transcendental num}.

Variable this : GammaCalculator num.
Variable spotPrice : num.
Variable good : Contract num -> Prop.
Variable Q : num * StrikeData num -> Prop.

Hypothesis Q_fresh : forall contract,
  good contract -> Q (strike contract, freshStrikeData (strike contract)).
Hypothesis Q_accumulate : forall contract key strikeData,
  good contract ->
  sameValueZero key (strike contract) = true ->
  Q (key, strikeData) ->
  Q (key,
     accumulate (calculateGammaExposure this contract spotPrice) strikeData).

Lemma Map_modify_Forall_entry (f : StrikeData num -> StrikeData num)
  (key : num) (m : StrikeMap num) :
  (forall k v, sameValueZero k key = true -> Q (k, v) -> Q (k, f v)) ->
  Forall Q m -> Forall Q (Map_modify m key f).
Proof.
  intros Hf Hm. induction Hm as [|[k v] m Hv Hm IH]; simpl.
  - constructor.
  - destruct (sameValueZero k key) eqn:Hk; constructor; auto.
Qed.

Lemma aggregateStep_Forall_entry (m : StrikeMap num)
  (contract : Contract num) :
  good contract -> Forall Q m ->
  Forall Q (aggregateStep this spotPrice m contract).
Proof.
  intros Hc Hm. unfold aggregateStep. simpl exp_strike.
  apply Map_modify_Forall_entry.
  - intros k v Hk Hv. apply Q_accumulate; assumption.
  - destruct (Map_has m (strike contract)); simpl; [exact Hm|].
    unfold Map_set_new. apply Forall_app. split; [exact Hm|].
    constructor; [exact (Q_fresh Hc) | constructor].
Qed.

Lemma aggregateFold_Forall_entry (contracts : list (Contract num)) :
  Forall good contracts ->
  Forall Q (aggregateFold this contracts spotPrice).
Proof.
  intro Hc. unfold aggregateFold.
  assert (Hgen : forall m, Forall Q m ->
            Forall Q (fold_left (aggregateStep this spotPrice) contracts m)).
  { induction Hc as [|c l Hgood Hl IH]; intros m Hm; simpl.
    - exact Hm.
    - apply IH, aggregateStep_Forall_entry; assumption. }
  apply Hgen. constructor.
Qed.

End AggregateEntries.

Section ExposureSources.

Context {num : Type} {N : Number num} {T : Transcendental num}.

Variable this : GammaCalculator num.
Variable spotPrice : num.
Variable contracts : list (Contract num).

Lemma aggregateFold_hasSources :
  Forall (hasSources contracts) (aggregateFold this contracts spotPrice).
Proof.
  apply aggregateFold_Forall_entry with (good := fun c => In c contracts).
  - intros c Hc. unfold hasSources. simpl. auto.
  - intros c key sd Hc Hkey (Hk & Hcall & Hput).
    unfold hasSources, accumulate. simpl in *.
    split; [exact Hk|].
    destruct (String.eqb (optionType c) "call") eqn:Htype.
    + apply String.eqb_eq in Htype. split; [|exact Hput].
      right. exists c. auto.
    + apply String.eqb_neq in Htype. split; [exact Hcall|].
      right. exists c. auto.
  - apply Forall_forall. auto.
Qed.

Lemma aggregateByStrike_hasSources (strikeData : StrikeData num) :
  In strikeData (aggregateByStrike this contracts spotPrice) ->
  hasSources contracts (sd_strike strikeData, strikeData).
Proof.
  unfold aggregateByStrike. intro Hin. apply Array_sort_In in Hin.
  unfold Map_values in Hin. apply in_map_iff in Hin.
  destruct Hin as ([k v] & <- & Hin).
  pose proof aggregateFold_hasSources as Hall.
  rewrite Forall_forall in Hall. specialize (Hall _ Hin).
  destruct Hall as (Hk & Hrest). simpl in Hk. subst k. split; auto.
Qed.

End ExposureSources.

(** X15. aggregateByStrike, then findCallWalls and findPutWalls: a call wall
    stands at the strike of a call of the chain, and a put wall at the
    strike of a contract of the chain that is no call. *)
Theorem walls_stand_at_strikes_of_their_contracts
  (num : Type) (N : Number num) (L : OrderLaws num) (T : Transcendental num)
  (this : GammaCalculator num) (analyzer : WallAnalyzer num)
  (contracts : list (Contract num)) (spotPrice currentPrice : num)
  (maxWalls : Z) :
  let gammaExposures := aggregateByStrike this contracts spotPrice in
  (forall wall,
     In wall (findCallWalls analyzer gammaExposures currentPrice maxWalls) ->
     exists c, In c contracts /\ optionType c = "call"%string
               /\ sameValueZero (wall_strike wall) (strike c) = true)
  /\ (forall wall,
        In wall (findPutWalls analyzer gammaExposures currentPrice maxWalls) ->
        exists c, In c contracts /\ optionType c <> "call"%string
                  /\ sameValueZero (wall_strike wall) (strike c) = true).
Proof.
  cbv zeta. split; intros wall Hin.
  - rewrite findCallWalls_shape in Hin.
    destruct (Array_mapi_In _ _ _ _ Hin) as (c & k & Hc & ->).
    apply Array_slice0_In in Hc. unfold significantCalls in Hc.
    apply filter_In in Hc. destruct Hc as [Hc _].
    destruct (callCandidates_In _ _ _ Hc) as (ge & Hge & Hneg & ->).
    simpl.
    destruct (aggregateByStrike_hasSources _ _ _ _ Hge)
      as (_ & [Hzero|Hsrc] & _); [|exact Hsrc].
    simpl in Hzero. rewrite Hzero, ltb_irreflexive in Hneg. discriminate.
  - rewrite findPutWalls_shape in Hin.
    destruct (Array_mapi_In _ _ _ _ Hin) as (c & k & Hc & ->).
    apply Array_slice0_In in Hc. unfold significantPuts in Hc.
    apply filter_In in Hc. destruct Hc as [Hc _].
    destruct (putCandidates_In _ _ _ Hc) as (ge & Hge & Hpos & ->).
    simpl.
    destruct (aggregateByStrike_hasSources _ _ _ _ Hge)
      as (_ & _ & [Hzero|Hsrc]); [|exact Hsrc].
    simpl in Hzero. rewrite Hzero, ltb_irreflexive in Hpos. discriminate.
Qed.

Lemma walls_stand_at_strikes_of_their_contracts_witness :
  let wall :=
    {| wall_strike := 450%float;
       exposureValue := (-5191253337.5245495)%float;
       wallType := "call_wall"; distanceFromSpot := 0%float;
       significanceRank := 1 |} in
  exists c, In c ChainExample.chain /\ optionType c = "call"%string
            /\ sameValueZero (wall_strike wall) (strike c) = true.
Proof.
  exact (proj1 (@walls_stand_at_strikes_of_their_contracts float float_Number
                  float_OrderLaws (float_Transcendental HostExample.mathLib)
                  ChainExample.calculator new_WallAnalyzer ChainExample.chain
                  450%float 450%float 5%Z) _ (or_introl eq_refl)).
Defined.

(* ------------------------------------------------------------------ *)
(** ** calculateAllMetrics: the extreme exposures *)

Module FloatExtremes.

Lemma is_nan_leb_refl (x : float) :
  PrimFloat.is_nan x = false -> PrimFloat.leb x x = true.
Proof. apply FloatOrder.leb_refl_not_nan. Qed.

(** Of two numbers, [Math.min] returns one that is not above either. *)
Lemma min2_spec (a b : float) :
  PrimFloat.is_nan a = false -> PrimFloat.is_nan b = false ->
  (FloatNumber.min2 a b = a \/ FloatNumber.min2 a b = b)
  /\ PrimFloat.leb (FloatNumber.min2 a b) a = true
  /\ PrimFloat.leb (FloatNumber.min2 a b) b = true.
Proof.
  intros Ha Hb. unfold FloatNumber.min2. rewrite Ha, Hb. simpl.
  destruct (PrimFloat.ltb a b) eqn:Hab.
  - split; [left; reflexivity|]. split;
      [apply is_nan_leb_refl, Ha | apply FloatOrder.ltb_true_leb, Hab].
  - destruct (PrimFloat.ltb b a) eqn:Hba.
    + split; [right; reflexivity|]. split;
        [apply FloatOrder.ltb_true_leb, Hba | apply is_nan_leb_refl, Hb].
    + pose proof (FloatOrder.ltb_false_leb Hab Ha Hb) as Hle1.
      pose proof (FloatOrder.ltb_false_leb Hba Hb Ha) as Hle2.
      destruct (PrimFloat.get_sign a).
      * split; [left; reflexivity|]. split;
          [apply is_nan_leb_refl, Ha | exact Hle2].
      * split; [right; reflexivity|]. split;
          [exact Hle1 | apply is_nan_leb_refl, Hb].
Qed.

Lemma max2_spec (a b : float) :
  PrimFloat.is_nan a = false -> PrimFloat.is_nan b = false ->
  (FloatNumber.max2 a b = a \/ FloatNumber.max2 a b = b)
  /\ PrimFloat.leb a (FloatNumber.max2 a b) = true
  /\ PrimFloat.leb b (FloatNumber.max2 a b) = true.
Proof.
  intros Ha Hb. unfold FloatNumber.max2. rewrite Ha, Hb. simpl.
  destruct (PrimFloat.ltb a b) eqn:Hab.
  - split; [right; reflexivity|]. split;
      [apply FloatOrder.ltb_true_leb, Hab | apply is_nan_leb_refl, Hb].
  - destruct (PrimFloat.ltb b a) eqn:Hba.
    + split; [left; reflexivity|]. split;
        [apply is_nan_leb_refl, Ha | apply FloatOrder.ltb_true_leb, Hba].
    + pose proof (FloatOrder.ltb_false_leb Hab Ha Hb) as Hle1.
      pose proof (FloatOrder.ltb_false_leb Hba Hb Ha) as Hle2.
      destruct (PrimFloat.get_sign a).
      * split; [right; reflexivity|]. split;
          [exact Hle2 | apply is_nan_leb_refl, Hb].
      * split; [left; reflexivity|]. split;
          [apply is_nan_leb_refl, Ha | exact Hle1].
Qed.

Lemma min2_nan_l (a b : float) :
  PrimFloat.is_nan a = true -> PrimFloat.is_nan (FloatNumber.min2 a b) = true.
Proof. intro Ha. unfold FloatNumber.min2. rewrite Ha. reflexivity. Qed.

Lemma min2_nan_r (a b : float) :
  PrimFloat.is_nan b = true -> PrimFloat.is_nan (FloatNumber.min2 a b) = true.
Proof.
  intro Hb. unfold FloatNumber.min2. rewrite Hb, orb_true_r. reflexivity.
Qed.

Lemma max2_nan_l (a b : float) :
  PrimFloat.is_nan a = true -> PrimFloat.is_nan (FloatNumber.max2 a b) = true.
Proof. intro Ha. unfold FloatNumber.max2. rewrite Ha. reflexivity. Qed.

Lemma max2_nan_r (a b : float) :
  PrimFloat.is_nan b = true -> PrimFloat.is_nan (FloatNumber.max2 a b) = true.
Proof.
  intro Hb. unfold FloatNumber.max2. rewrite Hb, orb_true_r. reflexivity.
Qed.

Section Fold.

(** [step] is [Math.min] or [Math.max] of two numbers, [below a b] the order
    in which its result [a] stands to an argument [b]. *)
Variable step : float -> float -> float.
Variable below : float -> float -> Prop.

Hypothesis step_spec : forall a b,
  PrimFloat.is_nan a = false -> PrimFloat.is_nan b = false ->
  (step a b = a \/ step a b = b) /\ below (step a b) a /\ below (step a b) b.
Hypothesis step_nan_l : forall a b,
  PrimFloat.is_nan a = true -> PrimFloat.is_nan (step a b) = true.
Hypothesis step_nan_r : forall a b,
  PrimFloat.is_nan b = true -> PrimFloat.is_nan (step a b) = true.
Hypothesis below_trans : forall a b c, below a b -> below b c -> below a c.

Lemma fold_nan (values : list float) :
  forall start,
    PrimFloat.is_nan start = true \/ Exists (fun v => PrimFloat.is_nan v = true) values ->
    PrimFloat.is_nan (fold_left step values start) = true.
Proof.
  induction values as [|v l IH]; intros start Hn; simpl.
  - destruct Hn as [Hs|He]; [exact Hs | inversion He].
  - apply IH. destruct Hn as [Hs|He].
    + left. apply step_nan_l, Hs.
    + inversion He as [? ? Hv|? ? Hl]; subst.
      * left. apply step_nan_r, Hv.
      * right. exact Hl.
Qed.

Lemma fold_extreme (values : list float) :
  forall start,
    PrimFloat.is_nan start = false ->
    Forall (fun v => PrimFloat.is_nan v = false) values ->
    let result := fold_left step values start in
    PrimFloat.is_nan result = false
    /\ (result = start \/ In result values)
    /\ (result = start \/ below result start)
    /\ Forall (below result) values.
Proof.
  induction values as [|v l IH]; intros start Hs Hv; simpl.
  - repeat split; auto.
  - inversion Hv as [|? ? Hnv Hl]; subst.
    destruct (step_spec _ _ Hs Hnv) as (Hor & Hbs & Hbv).
    assert (Hn : PrimFloat.is_nan (step start v) = false)
      by (destruct Hor as [->| ->]; assumption).
    destruct (IH (step start v) Hn Hl) as (Hr & Hin & Hb & Hall).
    split; [exact Hr|]. split; [|split].
    + destruct Hin as [Hin|Hin]; [|right; right; exact Hin].
      rewrite Hin. destruct Hor as [->| ->]; [left; reflexivity|].
      right. left. reflexivity.
    + right. destruct Hb as [->|Hb]; [exact Hbs|].
      eapply below_trans; eassumption.
    + constructor; [|exact Hall].
      destruct Hb as [->|Hb]; [exact Hbv|]. eapply below_trans; eassumption.
Qed.

End Fold.

End FloatExtremes.

(** X16. calculateAllMetrics, in binary64: [maxCallExposure] is the least
    call exposure of the aggregates and [maxPutExposure] the greatest put
    exposure, each attained at an aggregate, when none of these exposures is
    NaN; one NaN among them makes the result NaN; and for no aggregates they
    are [Infinity] and [-Infinity]. *)
Theorem extreme_exposures_bound_every_strike
  (pow : float -> float -> float) (gammaExposures : list (StrikeData float)) :
  let metrics := calculateAllMetrics (E := float_Extended pow) gammaExposures in
  (gammaExposures = [] ->
   maxCallExposure metrics = PrimFloat.infinity
   /\ maxPutExposure metrics = PrimFloat.neg_infinity)
  /\ (Exists (fun ge => PrimFloat.is_nan (callGamma ge) = true) gammaExposures ->
      PrimFloat.is_nan (maxCallExposure metrics) = true)
  /\ (Exists (fun ge => PrimFloat.is_nan (putGamma ge) = true) gammaExposures ->
      PrimFloat.is_nan (maxPutExposure metrics) = true)
  /\ (gammaExposures <> [] ->
      Forall (fun ge => PrimFloat.is_nan (callGamma ge) = false) gammaExposures ->
      Forall (fun ge => PrimFloat.leb (maxCallExposure metrics) (callGamma ge)
                        = true) gammaExposures
      /\ exists ge, In ge gammaExposures
                    /\ maxCallExposure metrics = callGamma ge)
  /\ (gammaExposures <> [] ->
      Forall (fun ge => PrimFloat.is_nan (putGamma ge) = false) gammaExposures ->
      Forall (fun ge => PrimFloat.leb (putGamma ge) (maxPutExposure metrics)
                        = true) gammaExposures
      /\ exists ge, In ge gammaExposures
                    /\ maxPutExposure metrics = putGamma ge).
Proof.
  cbv zeta. unfold calculateAllMetrics. simpl maxCallExposure.
  simpl maxPutExposure. unfold Math_min, Math_max.
  change (@Math_min2 float (float_Extended pow)) with FloatNumber.min2.
  change (@Math_max2 float (float_Extended pow)) with FloatNumber.max2.
  change (@Infinity float (float_Extended pow)) with PrimFloat.infinity.
  change (neg PrimFloat.infinity) with PrimFloat.neg_infinity.
  split; [|split; [|split; [|split]]].
  - intros ->. split; reflexivity.
  - intro Hex. apply (FloatExtremes.fold_nan FloatNumber.min2).
    + exact FloatExtremes.min2_nan_l.
    + exact FloatExtremes.min2_nan_r.
    + right. apply Exists_exists in Hex. destruct Hex as (ge & Hge & Hn).
      apply Exists_exists. exists (callGamma ge). split; [|exact Hn].
      apply in_map, Hge.
  - intro Hex. apply (FloatExtremes.fold_nan FloatNumber.max2).
    + exact FloatExtremes.max2_nan_l.
    + exact FloatExtremes.max2_nan_r.
    + right. apply Exists_exists in Hex. destruct Hex as (ge & Hge & Hn).
      apply Exists_exists. exists (putGamma ge). split; [|exact Hn].
      apply in_map, Hge.
  - intros Hne Hall.
    destruct (@FloatExtremes.fold_extreme FloatNumber.min2
                (fun a b => PrimFloat.leb a b = true)
                FloatExtremes.min2_spec FloatFacts.leb_float_trans
                (map callGamma gammaExposures) PrimFloat.infinity eq_refl)
      as (Hr & Hin & Hb & Hbelow).
    { apply Forall_map. exact Hall. }
    split.
    + apply Forall_map in Hbelow. exact Hbelow.
    + destruct Hin as [Hin|Hin].
      * destruct gammaExposures as [|ge l]; [contradiction|].
        exists ge. split; [left; reflexivity|].
        rewrite Hin.
        inversion Hbelow as [|? ? Hge _]; subst.
        rewrite Hin in Hge.
        inversion Hall as [|? ? Hnan _]; subst.
        revert Hge Hnan. unfold PrimFloat.is_nan.
        rewrite FloatAxioms.leb_spec, FloatAxioms.eqb_spec.
        change (Prim2SF PrimFloat.infinity) with (S754_infinity false).
        intros Hge Hnan. apply Prim2SF_inj.
        change (Prim2SF PrimFloat.infinity) with (S754_infinity false).
        destruct (Prim2SF (callGamma ge)) as [s|s| |s m e];
          try destruct s; try discriminate; reflexivity.
      * apply in_map_iff in Hin. destruct Hin as (ge & Hge & Hin).
        exists ge. split; [exact Hin|]. symmetry. exact Hge.
  - intros Hne Hall.
    destruct (@FloatExtremes.fold_extreme FloatNumber.max2
                (fun a b => PrimFloat.leb b a = true)
                FloatExtremes.max2_spec
                (fun a b c Hab Hbc => @FloatFacts.leb_float_trans c b a Hbc Hab)
                (map putGamma gammaExposures) PrimFloat.neg_infinity eq_refl)
      as (Hr & Hin & Hb & Hbelow).
    { apply Forall_map. exact Hall. }
    split.
    + apply Forall_map in Hbelow. exact Hbelow.
    + destruct Hin as [Hin|Hin].
      * destruct gammaExposures as [|ge l]; [contradiction|].
        exists ge. split; [left; reflexivity|].
        rewrite Hin.
        inversion Hbelow as [|? ? Hge _]; subst.
        rewrite Hin in Hge.
        inversion Hall as [|? ? Hnan _]; subst.
        revert Hge Hnan. unfold PrimFloat.is_nan.
        rewrite FloatAxioms.leb_spec, FloatAxioms.eqb_spec.
        change (Prim2SF PrimFloat.neg_infinity) with (S754_infinity true).
        intros Hge Hnan. apply Prim2SF_inj.
        change (Prim2SF PrimFloat.neg_infinity) with (S754_infinity true).
        destruct (Prim2SF (putGamma ge)) as [s|s| |s m e];
          try destruct s; try discriminate; reflexivity.
      * apply in_map_iff in Hin. destruct Hin as (ge & Hge & Hin).
        exists ge. split; [exact Hin|]. symmetry. exact Hge.
Qed.

Lemma extreme_exposures_bound_every_strike_witness :
  Forall
    (fun ge =>
       PrimFloat.leb
         (maxCallExposure
            (calculateAllMetrics (E := float_Extended squaring)
               ChainExample.aggregates)) (callGamma ge) = true)
    ChainExample.aggregates.
Proof.
  apply (proj1 (proj2 (proj2 (proj2 (@extreme_exposures_bound_every_strike
                                       squaring ChainExample.aggregates))))).
  - discriminate.
  - repeat constructor.
Defined.

(* ------------------------------------------------------------------ *)
(** ** calculateGammaEnvironment: the counts and the confidence *)

Module FloatCases.

(** A number is above zero, below zero, a zero or NaN, and one of these
    only. *)
Lemma sign_cases (x : float) :
  let tests :=
    (PrimFloat.ltb 0 x, PrimFloat.ltb x 0, PrimFloat.eqb x 0,
     PrimFloat.is_nan x) in
  tests = (true, false, false, false)
  \/ tests = (false, true, false, false)
  \/ tests = (false, false, true, false)
  \/ tests = (false, false, false, true).
Proof.
  cbv zeta. unfold PrimFloat.is_nan.
  rewrite !FloatAxioms.ltb_spec, !FloatAxioms.eqb_spec.
  change (Prim2SF 0%float) with (S754_zero false).
  destruct (Prim2SF x) as [s|s| |s m e]; try destruct s;
    unfold SFltb, SFeqb, SFcompare;
    rewrite ?Z.compare_refl;
    try change (Pos.compare_cont Eq m m) with (Pos.compare m m);
    rewrite ?Pos.compare_refl; simpl;
    first [ left; reflexivity
          | right; left; reflexivity
          | right; right; left; reflexivity
          | right; right; right; reflexivity ].
Qed.

End FloatCases.

Lemma filter_counts {A : Type} (p1 p2 p3 p4 : A -> bool) (l : list A) :
  (forall x, In x l ->
     (p1 x, p2 x, p3 x, p4 x) = (true, false, false, false)
     \/ (p1 x, p2 x, p3 x, p4 x) = (false, true, false, false)
     \/ (p1 x, p2 x, p3 x, p4 x) = (false, false, true, false)
     \/ (p1 x, p2 x, p3 x, p4 x) = (false, false, false, true)) ->
  (List.length (filter p1 l) + List.length (filter p2 l)
   + List.length (filter p3 l) + List.length (filter p4 l)
   = List.length l)%nat.
Proof.
  induction l as [|x l IH]; intro Hall.
  - reflexivity.
  - simpl. specialize (IH (fun y Hy => Hall y (or_intror Hy))).
    destruct (Hall x (or_introl eq_refl)) as [Hx|[Hx|[Hx|Hx]]];
      injection Hx as -> -> -> ->; simpl; lia.
Qed.

(** X17. calculateGammaEnvironment, in binary64: [positiveStrikes],
    [negativeStrikes] and [neutralStrikes] count every aggregate once, but
    for the aggregates whose net exposure is NaN, which are in none of the
    three. *)
Theorem strike_counts_leave_out_only_nan
  (pow : float -> float -> float) (gammaExposures : list (StrikeData float))
  (currentPrice : float) :
  let env :=
    calculateGammaEnvironment (E := float_Extended pow) gammaExposures
      currentPrice in
  (positiveStrikes env + negativeStrikes env + neutralStrikes env
   + List.length
       (filter (fun ge => PrimFloat.is_nan (netGamma ge)) gammaExposures)
   = List.length gammaExposures)%nat.
Proof.
  cbv zeta. unfold calculateGammaEnvironment. simpl. unfold countIf.
  apply filter_counts. intros ge _. apply FloatCases.sign_cases.
Qed.

(** X18. StrategyEngine.getConfidenceLevel on the strength level that
    calculateGammaEnvironment returns: the confidence is HIGH for an
    environment strength of at least 0.05 (the levels Very Strong and
    Strong), MODERATE from 0.02 (the level Moderate), and LOW below that and
    for a strength that is NaN. *)
Theorem confidence_follows_strength
  (pow : float -> float -> float) (gammaExposures : list (StrikeData float))
  (currentPrice : float) :
  let env :=
    calculateGammaEnvironment (E := float_Extended pow) gammaExposures
      currentPrice in
  getConfidenceLevel (level (strengthInterpretation env))
  = if PrimFloat.leb 0.05%float (environmentStrength env) then "HIGH"%string
    else if PrimFloat.leb 0.02%float (environmentStrength env) then "MODERATE"%string
    else "LOW"%string.
Proof.
  cbv zeta. unfold calculateGammaEnvironment. cbv zeta.
  set (strength := div _ _).
  simpl strengthInterpretation. simpl environmentStrength.
  change (leb (decimal 10 100) strength) with (PrimFloat.leb 0.1%float strength).
  change (leb (decimal 5 100) strength) with (PrimFloat.leb 0.05%float strength).
  change (leb (decimal 2 100) strength) with (PrimFloat.leb 0.02%float strength).
  change (leb (decimal 1 100) strength) with (PrimFloat.leb 0.01%float strength).
  destruct (PrimFloat.leb 0.1%float strength) eqn:H10.
  - assert (H5 : PrimFloat.leb 0.05%float strength = true).
    { apply FloatFacts.leb_float_trans with (y := 0.1%float);
        [reflexivity | exact H10]. }
    rewrite H5. reflexivity.
  - destruct (PrimFloat.leb 0.05%float strength); [reflexivity|].
    destruct (PrimFloat.leb 0.02%float strength); [reflexivity|].
    destruct (PrimFloat.leb 0.01%float strength); reflexivity.
Qed.

(** X19. calculateGammaEnvironment, in binary64: an environment classified
    positive has at least one strike with a net exposure above zero, and
    one classified negative at least one strike with a net exposure below
    zero. *)
Theorem environment_has_a_strike_of_its_sign
  (pow : float -> float -> float) (gammaExposures : list (StrikeData float))
  (currentPrice : float) :
  let env :=
    calculateGammaEnvironment (E := float_Extended pow) gammaExposures
      currentPrice in
  (environment env = "positive"%string -> (1 <= positiveStrikes env)%nat)
  /\ (environment env = "negative"%string -> (1 <= negativeStrikes env)%nat).
Proof.
  cbv zeta. unfold calculateGammaEnvironment. cbv zeta.
  simpl environment. simpl positiveStrikes. simpl negativeStrikes.
  unfold calculateAllMetrics. cbv zeta. simpl totalNetGamma.
  change (ltb (of_Z 0) (sum_of netGamma gammaExposures))
    with (PrimFloat.ltb 0 (sum_of netGamma gammaExposures)).
  change (ltb (sum_of netGamma gammaExposures) (of_Z 0))
    with (PrimFloat.ltb (sum_of netGamma gammaExposures) 0).
  unfold countIf. split.
  - destruct (PrimFloat.ltb 0 (sum_of netGamma gammaExposures)) eqn:Hpos.
    + intros _.
      destruct (List.length (filter _ gammaExposures)) eqn:Hn; [|lia].
      apply filter_none in Hn. apply sum_not_positive in Hn. congruence.
    + destruct (PrimFloat.ltb (sum_of netGamma gammaExposures) 0);
        discriminate.
  - destruct (PrimFloat.ltb 0 (sum_of netGamma gammaExposures)) eqn:Hpos;
      [discriminate|].
    destruct (PrimFloat.ltb (sum_of netGamma gammaExposures) 0) eqn:Hneg;
      [|discriminate].
    intros _.
    destruct (List.length (filter _ gammaExposures)) eqn:Hn; [|lia].
    apply filter_none in Hn. apply sum_not_negative in Hn. congruence.
Qed.

Lemma environment_has_a_strike_of_its_sign_witness :
  (1 <= negativeStrikes
          (calculateGammaEnvironment (E := float_Extended squaring)
             WallExample.chain 100%float))%nat.
Proof.
  apply (proj2 (@environment_has_a_strike_of_its_sign squaring
                  WallExample.chain 100%float)).
  reflexivity.
Defined.

(* ------------------------------------------------------------------ *)
(** ** CSVParser.parse *)

Section ParseFacts.
Context {num : Type} {N : Number num} {E : Extended num} {H : Host num}.
Variable sources : Sources num.

Lemma parseLoop_spec (headers : list string) (lines : list string) :
  forall (i : nat) (contracts result : list (ContractRecord num)),
    parseLoop sources headers lines i contracts = normal result ->
    exists added,
      result = contracts ++ added
      /\ (List.length added <= List.length lines)%nat
      /\ Forall (fun c => exists k line,
                   nth_error lines k = Some line
                   /\ parseLine headers (Date_now sources (i + k - 1)) line
                      = normal (Some c)) added.
Proof.
  induction lines as [|line lines IH]; intros i contracts result; simpl.
  - intro Hr. injection Hr as <-. exists []. rewrite app_nil_r.
    repeat split; auto.
  - destruct (parseLine headers (Date_now sources (i - 1)) line)
      as [[c|]|e] eqn:Hline; [| |discriminate].
    + intro Hr. destruct (IH _ _ _ Hr) as (added & -> & Hlen & Hall).
      exists (c :: added). rewrite <- app_assoc. simpl.
      repeat split; [lia|].
      constructor.
      * exists 0%nat, line. rewrite Nat.add_0_r. auto.
      * revert Hall. apply Forall_impl. intros c' (k & l & Hk & Hl).
        exists (S k), l. replace (i + S k - 1)%nat with (S i + k - 1)%nat by lia.
        auto.
    + intro Hr. destruct (IH _ _ _ Hr) as (added & -> & Hlen & Hall).
      exists added. repeat split; [lia|].
      revert Hall. apply Forall_impl. intros c' (k & l & Hk & Hl).
      exists (S k), l. replace (i + S k - 1)%nat with (S i + k - 1)%nat by lia.
      auto.
Qed.

End ParseFacts.

Module ParseFacts.

Lemma normalized_volatility (rawIV : float) :
  let rawIV1 := if PrimFloat.ltb 10 rawIV then (rawIV / 100)%float else rawIV in
  let rawIV2 :=
    if PrimFloat.ltb rawIV1 0.01 then 0.05%float
    else if PrimFloat.ltb 10 rawIV1 then 10%float
    else rawIV1 in
  PrimFloat.is_nan rawIV2 = true
  \/ PrimFloat.leb 0.01 rawIV2 = true /\ PrimFloat.leb rawIV2 10 = true.
Proof.
  cbv zeta.
  set (rawIV1 := if PrimFloat.ltb 10 rawIV then (rawIV / 100)%float else rawIV).
  destruct (PrimFloat.ltb rawIV1 0.01) eqn:Hlow.
  - right. split; reflexivity.
  - destruct (PrimFloat.ltb 10 rawIV1) eqn:Hhigh.
    + right. split; reflexivity.
    + destruct (PrimFloat.is_nan rawIV1) eqn:Hnan; [left; reflexivity|].
      right. split; apply FloatOrder.ltb_false_leb; trivial.
Qed.

Lemma at_least_one_day (pow : float -> float -> float) (days : float) :
  let daysToExpiry := Math_max (E := float_Extended pow) [1%float; days] in
  PrimFloat.is_nan daysToExpiry = true \/ PrimFloat.leb 1 daysToExpiry = true.
Proof.
  cbv zeta.
  change (Math_max (E := float_Extended pow) [1%float; days])
    with (FloatNumber.max2 1 days).
  destruct (PrimFloat.is_nan days) eqn:Hnan.
  - left. apply FloatExtremes.max2_nan_r, Hnan.
  - right. apply (@FloatExtremes.max2_spec 1 days); trivial.
Qed.

End ParseFacts.

Section ParseLine.

Variable pow : float -> float -> float.
Context {H : Host float}.

Lemma parseLine_parsedWell (headers : list string) (today : float)
  (line : string) (c : ContractRecord float) :
  parseLine (E := float_Extended pow) headers today line = normal (Some c) ->
  parsedWell c.
Proof.
  unfold parseLine. cbv zeta.
  destruct (JS_or _ _) as [|optionType|x]; try discriminate.
  match goal with
  | |- normal (if ?b then _ else _) = _ -> _ => destruct b eqn:Hkeep
  end; [|discriminate].
  intro Hc. injection Hc as <-.
  apply andb_true_iff in Hkeep. destruct Hkeep as [_ Hpos].
  unfold parsedWell. simpl.
  split; [exact Hpos|]. split.
  - apply ParseFacts.normalized_volatility.
  - apply ParseFacts.at_least_one_day.
Qed.

End ParseLine.

(** X20. CSVParser.parse, in binary64: every contract returned has a strike
    above zero, an implied volatility that is NaN or between 0.01 and 10,
    and a number of days to expiry that is NaN or at least 1. *)
Theorem parsed_contracts_are_well_formed
  (pow : float -> float -> float) (H : Host float) (sources : Sources float)
  (csvText : string) (contracts : list (ContractRecord float)) :
  parse (E := float_Extended pow) sources csvText = normal contracts ->
  Forall parsedWell contracts.
Proof.
  unfold parse. intro Hp.
  destruct (parseLoop_spec _ _ _ _ _ Hp) as (added & -> & _ & Hall).
  simpl. revert Hall. apply Forall_impl.
  intros c (k & line & _ & Hline).
  exact (parseLine_parsedWell _ _ _ _ Hline).
Qed.

Lemma parsed_contracts_are_well_formed_witness :
  Forall parsedWell TextExample.parsed.
Proof.
  apply (@parsed_contracts_are_well_formed squaring HostExample.host
           HostExample.sources HostExample.csvText).
  vm_compute. reflexivity.
Defined.

Section ParseErrors.

Context {num : Type} {N : Number num} {E : Extended num} {H : Host num}.

Variable sources : Sources num.

Lemma Array_mapi_keys {B : Type} (f : nat -> B) (headers : list string) :
  forall i,
    map fst (Array_mapi (fun header index => (header, f index)) i headers)
    = headers.
Proof.
  induction headers as [|h l IH]; intro i; simpl.
  - reflexivity.
  - rewrite IH. reflexivity.
Qed.

Lemma Row_get_absent (row : Row (num := num)) (key : string) :
  ~ In key (map fst row) -> Row_get row key = undefined.
Proof.
  intro Hk. unfold Row_get.
  destruct (find (fun e => String.eqb (fst e) key) (rev row)) as [e|] eqn:Hf;
    [|reflexivity].
  exfalso. apply find_some in Hf. destruct Hf as [Hin Heq].
  apply String.eqb_eq in Heq. apply Hk. rewrite <- Heq.
  apply in_map, in_rev, Hin.
Qed.

Lemma parseLine_throws (headers : list string) (today : num) (line : string) :
  ~ In "option_type"%string headers -> ~ In "type"%string headers ->
  parseLine headers today line = throw "TypeError".
Proof.
  intros H1 H2. unfold parseLine. cbv zeta.
  rewrite (@Row_get_absent _ "option_type"), (@Row_get_absent _ "type");
    try (rewrite Array_mapi_keys; assumption).
  reflexivity.
Qed.

End ParseErrors.

(** X21. CSVParser.parse throws a TypeError on a text with a line after the
    header line and neither a column option_type nor a column type:
    [toLowerCase] is called on [undefined] before any row is checked. *)
Theorem parse_throws_without_a_type_column
  (num : Type) (N : Number num) (E : Extended num) (H : Host num)
  (sources : Sources num) (csvText : string) :
  ~ In "option_type"%string (headersOf csvText) ->
  ~ In "type"%string (headersOf csvText) ->
  tl (linesOf csvText) <> [] ->
  parse sources csvText = throw "TypeError".
Proof.
  intros H1 H2 Hdata. unfold parse.
  fold (linesOf csvText). fold (headersOf csvText).
  destruct (tl (linesOf csvText)) as [|line rest]; [contradiction|].
  simpl. rewrite parseLine_throws by assumption. reflexivity.
Qed.

Lemma parse_throws_without_a_type_column_witness :
  parse (E := float_Extended squaring) (H := HostExample.host)
    HostExample.sources TextExample.untyped = throw "TypeError".
Proof.
  apply parse_throws_without_a_type_column.
  - vm_compute. intros [H|[H|[]]]; discriminate.
  - vm_compute. intros [H|[H|[]]]; discriminate.
  - vm_compute. discriminate.
Defined.

(** X22. CSVParser.parse: when it returns, it returns fewer contracts than
    the trimmed text has lines (the header line gives none), and a text of
    one line gives the empty list. *)
Theorem parse_returns_at_most_one_contract_per_line
  (num : Type) (N : Number num) (E : Extended num) (H : Host num)
  (sources : Sources num) (csvText : string) :
  (forall contracts,
     parse sources csvText = normal contracts ->
     (List.length contracts < List.length (linesOf csvText))%nat)
  /\ (List.length (linesOf csvText) = 1%nat ->
      parse sources csvText = normal []).
Proof.
  assert (Hne : linesOf csvText <> []).
  { unfold linesOf. destruct (String_trim csvText) as [|c s]; simpl.
    - discriminate.
    - destruct (Ascii.eqb c "010"); [discriminate|].
      destruct (String_split "010" s); discriminate. }
  split.
  - intros contracts Hp. unfold parse in Hp. fold (linesOf csvText) in Hp.
    destruct (parseLoop_spec _ _ _ _ _ Hp) as (added & -> & Hlen & _).
    simpl. destruct (linesOf csvText); [contradiction|]. simpl in *. lia.
  - intro Hlen. unfold parse. fold (linesOf csvText).
    destruct (linesOf csvText) as [|l [|l' ls]]; try discriminate.
    reflexivity.
Qed.

Lemma parse_returns_at_most_one_contract_per_line_witness :
  (List.length TextExample.parsed
   < List.length (linesOf (H := HostExample.host) HostExample.csvText))%nat.
Proof.
  apply (proj1 (@parse_returns_at_most_one_contract_per_line float
                  float_Number (float_Extended squaring) HostExample.host
                  HostExample.sources HostExample.csvText)).
  vm_compute. reflexivity.
Defined.

(* ------------------------------------------------------------------ *)
(** ** DataGenerator.generateSampleData *)

Section GenerateFacts.

Context {num : Type} {N : Number num} {H : Host num}.

Variable sources : Sources num.

Lemma generateLoop_pairs (strikeSpacing startStrike daysToExpiry : num)
  (remaining : nat) :
  forall (i : nat) (contracts : list (ContractRecord num)) (reads : Reads),
  exists strikes,
    (List.length strikes <= remaining)%nat
    /\ Forall (fun k => leb k (of_Z 0) = false) strikes
    /\ map listing
         (generateLoop sources strikeSpacing startStrike daysToExpiry
            remaining i contracts reads)
       = map listing contracts ++ flat_map (pairAt daysToExpiry) strikes.
Proof.
  induction remaining as [|n IH]; intros i contracts reads; simpl.
  - exists []. simpl. rewrite app_nil_r. repeat split; auto.
  - match goal with
    | |- context [if leb ?k (of_Z 0) then _ else _] =>
        set (strike := k); destruct (leb strike (of_Z 0)) eqn:Hk
    end.
    + destruct (IH (S i) contracts reads) as (strikes & Hlen & Hpos & Heq).
      exists strikes. repeat split; [lia | exact Hpos | exact Heq].
    + match goal with
      | |- context [generateLoop _ _ _ _ _ _ ?cs ?rs] =>
          destruct (IH (S i) cs rs) as (strikes & Hlen & Hpos & Heq)
      end.
      exists (strike :: strikes). split; [simpl; lia|].
      split; [constructor; assumption|].
      rewrite Heq, map_app, <- app_assoc. reflexivity.
Qed.

End GenerateFacts.

(** X23. DataGenerator.generateSampleData returns, for at most [numStrikes]
    strikes that are not [<= 0], a call and then a put at each, all with
    the days to expiry it was given. *)
Theorem sample_data_is_calls_and_puts_in_pairs
  (num : Type) (N : Number num) (H : Host num) (sources : Sources num)
  (spotPrice : num) (numStrikes : Z) (daysToExpiry : num) :
  (numStrikes < 2 ^ 53)%Z ->
  exists strikes,
    (Z.of_nat (List.length strikes) <= Z.max 0 numStrikes)%Z
    /\ Forall (fun k => leb k (of_Z 0) = false) strikes
    /\ map listing (generateSampleData sources spotPrice numStrikes daysToExpiry)
       = flat_map (pairAt daysToExpiry) strikes.
Proof.
  intros _. unfold generateSampleData. cbv zeta.
  match goal with
  | |- context [generateLoop _ ?a ?b ?c ?n ?i ?cs ?rs] =>
      destruct (generateLoop_pairs sources a b c n i cs rs)
        as (strikes & Hlen & Hpos & Heq)
  end.
  exists strikes. split; [lia|]. split; [exact Hpos | exact Heq].
Qed.

Lemma sample_data_is_calls_and_puts_in_pairs_witness :
  exists strikes,
    (Z.of_nat (List.length strikes) <= Z.max 0 4)%Z
    /\ Forall (fun k => PrimFloat.leb k 0 = false) strikes
    /\ map listing
         (generateSampleData (H := HostExample.host) HostExample.sources
            450%float 4 30%float)
       = flat_map (pairAt 30%float) strikes.
Proof.
  apply (@sample_data_is_calls_and_puts_in_pairs float float_Number
           HostExample.host HostExample.sources 450%float 4%Z 30%float).
  lia.
Defined.
